(** * chipy/analog.py: analog modules, their netlist and their eispice model

    A shallow embedding of [chipy/analog.py].  Python objects live in typed
    heaps (one per class) and are referred to by their address, so that the
    aliasing the program relies on (a signal shared by the module registry and
    by every device connected to it, and mutated later by [AddGnd] or
    [AddPower]) is kept.  Functions that mutate run in a state-and-exception
    monad; an exception does not roll the state back, as in Python.

    The digital framework ([chipy.Chipy]) and [eispice] are other code: of
    the first, the module dictionary and the current context are part of the
    state, and a run that calls into it ([AnalogSig] on a tuple or list) is
    followed up to the call and no further; of the second, a circuit is the
    calls made on it. *)

From Stdlib Require Import ZArith String Ascii List Floats Lia Bool.
From stdpp Require Import base tactics option list strings pretty.

Set Warnings "-inexact-float,-register-all".
Local Open Scope string_scope.
Local Open Scope list_scope.
Local Open Scope Z_scope.

(** ** Python values *)

(** The values the program passes around without looking inside: device
    values, signal levels, the [type] argument of the port functions, and the
    nested dictionaries [netlist] returns.  [bool] is a subclass of [int] in
    Python and is folded into [PInt]. *)
Inductive pyval : Type :=
| PNone
| PInt (z : Z)
| PFloat (f : float)
| PStr (s : string)
| PList (l : list pyval)
| PDict (d : list (string * pyval)).

(** [isinstance(v, int)] *)
Definition isinstance_int (v : pyval) : bool :=
  match v with PInt _ => true | _ => false end.

(** The integer [0] that the level attributes of a signal start at. *)
Definition zero : pyval := PInt 0.

(** [v is not None] *)
Definition is_not_None (v : pyval) : bool :=
  match v with PNone => false | _ => true end.

(** ** Python dictionaries with string keys

    Insertion ordered: iteration ([items]) follows the order in which keys
    were first set, and setting an existing key replaces its value in
    place. *)
Module PyDict.

Definition dict (V : Type) : Type := list (string * V).

Section Ops.
Context {V : Type}.

Definition empty : dict V := [].

Fixpoint get (k : string) (d : dict V) : option V :=
  match d with
  | [] => None
  | (k', v) :: d' => if String.eqb k k' then Some v else get k d'
  end.

(** [k in d] *)
Definition contains (k : string) (d : dict V) : bool :=
  match get k d with Some _ => true | None => false end.

(** [d[k] = v] *)
Fixpoint set (k : string) (v : V) (d : dict V) : dict V :=
  match d with
  | [] => [(k, v)]
  | (k', v') :: d' =>
      if String.eqb k k' then (k', v) :: d' else (k', v') :: set k v d'
  end.

Definition items (d : dict V) : list (string * V) := d.

Definition keys (d : dict V) : list string := map fst d.

End Ops.

End PyDict.

Abbreviation dict := PyDict.dict.

(** ** [str.split()]

    A name is a string of code points below 256; [isspace] is Python's
    [str.isspace] on that range. *)
Definition isspace (c : ascii) : bool :=
  let n := N_of_ascii c in
  (((9 <=? n) && (n <=? 13)) || ((28 <=? n) && (n <=? 32))
   || (n =? 133) || (n =? 160))%N.

(** [split_from word s]: [word] is the word read so far ([""] when between
    words). *)
Fixpoint split_from (word : string) (s : string) : list string :=
  match s with
  | EmptyString => match word with EmptyString => [] | _ => [word] end
  | String c s' =>
      if isspace c then
        match word with
        | EmptyString => split_from "" s'
        | _ => word :: split_from "" s'
        end
      else split_from (word ++ String c "")%string s'
  end.

Definition split (s : string) : list string := split_from "" s.

(** ** Objects *)

(** An argument of [AnalogSig]: a signal object, a tuple or list, a string, or
    anything else. *)
Inductive sigarg : Type :=
| ArgSignal (a : nat)
| ArgSeq (elems : list sigarg)
| ArgStr (s : string)
| ArgOther.

(** What a call of [AnalogSig] that this model follows returns: a signal
    object, by its address. *)
Inductive sigval : Type :=
| SigRef (a : nat).

Record ChipyAnalogSignal : Type := mkSignal {
  sig_id : Z;
  sig_name : string;
  sig_module : nat;
  sig_width : Z;
  sig_power : bool;
  sig_power_value : pyval;
  sig_ground : bool;
  sig_inport : bool;
  sig_outport : bool;
  sig_digital : bool;
  sig_high_value : pyval;
  sig_low_value : pyval;
  sig_high_threshold : pyval;
  sig_low_threshold : pyval
}.

Definition set_width (w : Z) (s : ChipyAnalogSignal) : ChipyAnalogSignal :=
  mkSignal (sig_id s) (sig_name s) (sig_module s) w (sig_power s)
    (sig_power_value s) (sig_ground s) (sig_inport s) (sig_outport s)
    (sig_digital s) (sig_high_value s) (sig_low_value s)
    (sig_high_threshold s) (sig_low_threshold s).

Definition set_power (b : bool) (s : ChipyAnalogSignal) : ChipyAnalogSignal :=
  mkSignal (sig_id s) (sig_name s) (sig_module s) (sig_width s) b
    (sig_power_value s) (sig_ground s) (sig_inport s) (sig_outport s)
    (sig_digital s) (sig_high_value s) (sig_low_value s)
    (sig_high_threshold s) (sig_low_threshold s).

Definition set_power_value (v : pyval) (s : ChipyAnalogSignal) : ChipyAnalogSignal :=
  mkSignal (sig_id s) (sig_name s) (sig_module s) (sig_width s) (sig_power s)
    v (sig_ground s) (sig_inport s) (sig_outport s)
    (sig_digital s) (sig_high_value s) (sig_low_value s)
    (sig_high_threshold s) (sig_low_threshold s).

Definition set_ground (b : bool) (s : ChipyAnalogSignal) : ChipyAnalogSignal :=
  mkSignal (sig_id s) (sig_name s) (sig_module s) (sig_width s) (sig_power s)
    (sig_power_value s) b (sig_inport s) (sig_outport s)
    (sig_digital s) (sig_high_value s) (sig_low_value s)
    (sig_high_threshold s) (sig_low_threshold s).

Definition set_inport (b : bool) (s : ChipyAnalogSignal) : ChipyAnalogSignal :=
  mkSignal (sig_id s) (sig_name s) (sig_module s) (sig_width s) (sig_power s)
    (sig_power_value s) (sig_ground s) b (sig_outport s)
    (sig_digital s) (sig_high_value s) (sig_low_value s)
    (sig_high_threshold s) (sig_low_threshold s).

Definition set_outport (b : bool) (s : ChipyAnalogSignal) : ChipyAnalogSignal :=
  mkSignal (sig_id s) (sig_name s) (sig_module s) (sig_width s) (sig_power s)
    (sig_power_value s) (sig_ground s) (sig_inport s) b
    (sig_digital s) (sig_high_value s) (sig_low_value s)
    (sig_high_threshold s) (sig_low_threshold s).

Definition set_digital (b : bool) (s : ChipyAnalogSignal) : ChipyAnalogSignal :=
  mkSignal (sig_id s) (sig_name s) (sig_module s) (sig_width s) (sig_power s)
    (sig_power_value s) (sig_ground s) (sig_inport s) (sig_outport s)
    b (sig_high_value s) (sig_low_value s)
    (sig_high_threshold s) (sig_low_threshold s).

Definition set_high_value (v : pyval) (s : ChipyAnalogSignal) : ChipyAnalogSignal :=
  mkSignal (sig_id s) (sig_name s) (sig_module s) (sig_width s) (sig_power s)
    (sig_power_value s) (sig_ground s) (sig_inport s) (sig_outport s)
    (sig_digital s) v (sig_low_value s)
    (sig_high_threshold s) (sig_low_threshold s).

Definition set_low_value (v : pyval) (s : ChipyAnalogSignal) : ChipyAnalogSignal :=
  mkSignal (sig_id s) (sig_name s) (sig_module s) (sig_width s) (sig_power s)
    (sig_power_value s) (sig_ground s) (sig_inport s) (sig_outport s)
    (sig_digital s) (sig_high_value s) v
    (sig_high_threshold s) (sig_low_threshold s).

(** The concrete device classes and their class attributes. *)
Inductive passive_class : Type :=
| ChipyResistor | ChipyCapacitor | ChipyVoltageSource.

Inductive device_class : Type :=
| ChipyPassive (p : passive_class)
| ChipyTransistor.

Definition RefDes (cls : device_class) : string :=
  match cls with
  | ChipyPassive ChipyResistor => "R"
  | ChipyPassive ChipyCapacitor => "C"
  | ChipyTransistor => "Q"
  | ChipyPassive ChipyVoltageSource => "V"
  end.

Definition Skin (cls : device_class) : option string :=
  match cls with
  | ChipyPassive ChipyResistor => Some "resistor"
  | ChipyPassive ChipyCapacitor => Some "capacitor"
  | ChipyTransistor => Some "transistor-npn"
  | ChipyPassive ChipyVoltageSource => None
  end.

#[global] Instance passive_class_eq_dec : EqDecision passive_class.
Proof. solve_decision. Defined.

#[global] Instance device_class_eq_dec : EqDecision device_class.
Proof. solve_decision. Defined.

(** A device object.  An attribute the constructor has not assigned yet is
    [None]; [dev_value] starts at the class default [' ']. *)
Record ChipyDevice : Type := mkDevice {
  dev_class : device_class;
  dev_name : string;
  dev_module : nat;
  dev_sig1 : option sigval;
  dev_sig2 : option sigval;
  dev_value : pyval;
  dev_c : option sigval;
  dev_b : option sigval;
  dev_e : option sigval;
  dev_substrate : option sigval;
  dev_model : option (dict pyval)
}.

Definition set_sig1 (x : sigval) (d : ChipyDevice) : ChipyDevice :=
  mkDevice (dev_class d) (dev_name d) (dev_module d) (Some x) (dev_sig2 d)
    (dev_value d) (dev_c d) (dev_b d) (dev_e d) (dev_substrate d) (dev_model d).

Definition set_sig2 (x : sigval) (d : ChipyDevice) : ChipyDevice :=
  mkDevice (dev_class d) (dev_name d) (dev_module d) (dev_sig1 d) (Some x)
    (dev_value d) (dev_c d) (dev_b d) (dev_e d) (dev_substrate d) (dev_model d).

Definition set_value (v : pyval) (d : ChipyDevice) : ChipyDevice :=
  mkDevice (dev_class d) (dev_name d) (dev_module d) (dev_sig1 d) (dev_sig2 d)
    v (dev_c d) (dev_b d) (dev_e d) (dev_substrate d) (dev_model d).

Definition set_c (x : sigval) (d : ChipyDevice) : ChipyDevice :=
  mkDevice (dev_class d) (dev_name d) (dev_module d) (dev_sig1 d) (dev_sig2 d)
    (dev_value d) (Some x) (dev_b d) (dev_e d) (dev_substrate d) (dev_model d).

Definition set_b (x : sigval) (d : ChipyDevice) : ChipyDevice :=
  mkDevice (dev_class d) (dev_name d) (dev_module d) (dev_sig1 d) (dev_sig2 d)
    (dev_value d) (dev_c d) (Some x) (dev_e d) (dev_substrate d) (dev_model d).

Definition set_e (x : sigval) (d : ChipyDevice) : ChipyDevice :=
  mkDevice (dev_class d) (dev_name d) (dev_module d) (dev_sig1 d) (dev_sig2 d)
    (dev_value d) (dev_c d) (dev_b d) (Some x) (dev_substrate d) (dev_model d).

Definition set_substrate (x : sigval) (d : ChipyDevice) : ChipyDevice :=
  mkDevice (dev_class d) (dev_name d) (dev_module d) (dev_sig1 d) (dev_sig2 d)
    (dev_value d) (dev_c d) (dev_b d) (dev_e d) (Some x) (dev_model d).

Definition set_model (x : dict pyval) (d : ChipyDevice) : ChipyDevice :=
  mkDevice (dev_class d) (dev_name d) (dev_module d) (dev_sig1 d) (dev_sig2 d)
    (dev_value d) (dev_c d) (dev_b d) (dev_e d) (dev_substrate d) (Some x).

(** A module object: its two registries map a name to the address of the
    signal or device registered under it. *)
Record ChipyAnalogModule : Type := mkModule {
  mod_name : string;
  signals : dict nat;
  devices : dict nat
}.

(** A value of [chipy.ChipyModulesDict]: an analog module of this file, or a
    module of the digital framework that shares the dictionary. *)
Inductive module_entry : Type :=
| AnalogModule (a : nat)
| DigitalModule.

(** ** Program state

    The process-global registry and context of [chipy.Chipy], the class-level
    counters, and the three heaps.  An address is an index into its heap;
    allocation appends. *)
Record state : Type := mkState {
  ChipyModulesDict : dict module_entry;
  ChipyCurrentContext : option nat;
  SigId : Z;
  IdCount : device_class -> Z;
  module_heap : list ChipyAnalogModule;
  signal_heap : list ChipyAnalogSignal;
  device_heap : list ChipyDevice
}.

Definition init_state : state :=
  mkState [] None 0 (fun _ => 0) [] [] [].

Definition with_ModulesDict (f : dict module_entry -> dict module_entry)
    (st : state) : state :=
  mkState (f (ChipyModulesDict st)) (ChipyCurrentContext st) (SigId st)
    (IdCount st) (module_heap st) (signal_heap st) (device_heap st).

Definition with_Context (c : option nat) (st : state) : state :=
  mkState (ChipyModulesDict st) c (SigId st)
    (IdCount st) (module_heap st) (signal_heap st) (device_heap st).

Definition with_SigId (n : Z) (st : state) : state :=
  mkState (ChipyModulesDict st) (ChipyCurrentContext st) n
    (IdCount st) (module_heap st) (signal_heap st) (device_heap st).

Definition with_IdCount (cls : device_class) (n : Z) (st : state) : state :=
  mkState (ChipyModulesDict st) (ChipyCurrentContext st) (SigId st)
    (fun c => if decide (c = cls) then n else IdCount st c)
    (module_heap st) (signal_heap st) (device_heap st).

Definition with_modules (f : list ChipyAnalogModule -> list ChipyAnalogModule)
    (st : state) : state :=
  mkState (ChipyModulesDict st) (ChipyCurrentContext st) (SigId st)
    (IdCount st) (f (module_heap st)) (signal_heap st) (device_heap st).

Definition with_signals (f : list ChipyAnalogSignal -> list ChipyAnalogSignal)
    (st : state) : state :=
  mkState (ChipyModulesDict st) (ChipyCurrentContext st) (SigId st)
    (IdCount st) (module_heap st) (f (signal_heap st)) (device_heap st).

Definition with_devices (f : list ChipyDevice -> list ChipyDevice)
    (st : state) : state :=
  mkState (ChipyModulesDict st) (ChipyCurrentContext st) (SigId st)
    (IdCount st) (module_heap st) (signal_heap st) (f (device_heap st)).

(** ** Exceptions and the two monads *)

Inductive exn : Type :=
| AssertionError
| NotImplementedError (msg : string)
| AttributeError
| KeyError
| RecursionError
| NoSuchObject    (* an address nothing was allocated at: not a Python state *)
| Outside (callee : string).
    (* not an exception: the run goes on in [callee], code of the digital
       framework that is not in this file, and the model does not follow it *)

(** Result of code that only reads the state. *)
Inductive res (A : Type) : Type :=
| Val (a : A)
| Exc (e : exn).
Arguments Val {A} a.
Arguments Exc {A} e.

(** Result of code that may write: the state comes back in both cases. *)
Inductive outcome (A : Type) : Type :=
| Ok (a : A) (st : state)
| Raise (e : exn) (st : state).
Arguments Ok {A} a st.
Arguments Raise {A} e st.

Definition state_of {A} (o : outcome A) : state :=
  match o with Ok _ st => st | Raise _ st => st end.

Definition R (A : Type) : Type := state -> res A.
Definition M (A : Type) : Type := state -> outcome A.

#[global] Instance R_ret : MRet R := fun A a _ => Val a.
#[global] Instance R_bind : MBind R := fun A B f m st =>
  match m st with Val a => f a st | Exc e => Exc e end.

#[global] Instance M_ret : MRet M := fun A a st => Ok a st.
#[global] Instance M_bind : MBind M := fun A B f m st =>
  match m st with Ok a st' => f a st' | Raise e st' => Raise e st' end.

Definition fail {A} (e : exn) : R A := fun _ => Exc e.
Definition raise {A} (e : exn) : M A := fun st => Raise e st.

(** Run a reading computation inside a writing one. *)
Definition read {A} (r : R A) : M A := fun st =>
  match r st with Val a => Ok a st | Exc e => Raise e st end.

Definition get_state : M state := fun st => Ok st st.
Definition modify (f : state -> state) : M unit := fun st => Ok tt (f st).

(** [assert b] *)
Definition assert (b : bool) : M unit :=
  if b then mret tt else raise AssertionError.

(** [for x in xs: acc = f(acc, x)] *)
Fixpoint for_each {A B} (f : B -> A -> R B) (xs : list A) (acc : B) : R B :=
  match xs with
  | [] => mret acc
  | x :: xs' => acc' ← f acc x; for_each f xs' acc'
  end.

(** [[f(x) for x in xs]] *)
Fixpoint comprehension {A B} (f : A -> M B) (xs : list A) : M (list B) :=
  match xs with
  | [] => mret []
  | x :: xs' => y ← f x; ys ← comprehension f xs'; mret (y :: ys)
  end.

(** *** Heap access *)

Definition load_module (a : nat) : R ChipyAnalogModule := fun st =>
  match module_heap st !! a with Some m => Val m | None => Exc NoSuchObject end.

Definition load_signal (a : nat) : R ChipyAnalogSignal := fun st =>
  match signal_heap st !! a with Some s => Val s | None => Exc NoSuchObject end.

Definition load_device (a : nat) : R ChipyDevice := fun st =>
  match device_heap st !! a with Some d => Val d | None => Exc NoSuchObject end.

(** Attribute assignment on the object at an address. *)
Definition update_module (a : nat) (f : ChipyAnalogModule -> ChipyAnalogModule)
    : M unit :=
  m ← read (load_module a); modify (with_modules (<[a := f m]>)).

Definition update_signal (a : nat) (f : ChipyAnalogSignal -> ChipyAnalogSignal)
    : M unit :=
  s ← read (load_signal a); modify (with_signals (<[a := f s]>)).

Definition update_device (a : nat) (f : ChipyDevice -> ChipyDevice) : M unit :=
  d ← read (load_device a); modify (with_devices (<[a := f d]>)).

Definition set_signals (f : dict nat -> dict nat) (m : ChipyAnalogModule)
    : ChipyAnalogModule :=
  mkModule (mod_name m) (f (signals m)) (devices m).

Definition set_devices (f : dict nat -> dict nat) (m : ChipyAnalogModule)
    : ChipyAnalogModule :=
  mkModule (mod_name m) (signals m) (f (devices m)).

(** ** Constructors *)

(** [ChipyAnalogModule.__init__]: the attributes are set, then the name is
    checked and registered.  The object is allocated only once the assertion
    has passed; one whose constructor raised is unreachable garbage. *)
Definition ChipyAnalogModule_init (name : string) : M nat :=
  st ← get_state;
  assert (negb (PyDict.contains name (ChipyModulesDict st)));;
  let self := length (module_heap st) in
  modify (with_modules (fun h => h ++ [mkModule name PyDict.empty PyDict.empty]));;
  modify (with_ModulesDict (PyDict.set name (AnalogModule self)));;
  mret self.

(** The attributes [ChipyAnalogSignal.__init__] gives a signal. *)
Definition new_signal (id : Z) (name : string) (module : nat)
    : ChipyAnalogSignal :=
  mkSignal id name module 1 false zero false false false false zero zero
    zero zero.

(** The attributes [ChipyDevice.__init__] gives a device; the class default of
    [value] is [' ']. *)
Definition new_device (cls : device_class) (name : string) (module : nat)
    : ChipyDevice :=
  mkDevice cls name module None None (PStr " ") None None None None None.

(** [ChipyAnalogSignal.__init__] with a name.  (With [name=None] the name
    comes from [chipy.ChipyAutoName] of the digital framework; no caller in
    this file does that.)  There is no assertion here: the entry of
    [module.signals] is written whether or not the name is taken. *)
Definition ChipyAnalogSignal_init (module : nat) (name : string) : M nat :=
  st ← get_state;
  let self := length (signal_heap st) in
  update_module module (set_signals (PyDict.set name self));;
  modify (with_SigId (SigId st + 1));;
  modify (with_signals (fun h => h ++ [new_signal (SigId st + 1) name module]));;
  mret self.

(** [type(self).IdCount += 1; name = self.RefDes + str(self.IdCount)] *)
Definition auto_name (cls : device_class) : M string :=
  st ← get_state;
  modify (with_IdCount cls (IdCount st cls + 1));;
  mret (RefDes cls ++ pretty (IdCount st cls + 1))%string.

(** [ChipyDevice.__init__] for the class [cls]. *)
Definition ChipyDevice_init (cls : device_class) (module : nat)
    (name : option string) : M nat :=
  name ← match name with
         | None => auto_name cls
         | Some n => mret n
         end;
  m ← read (load_module module);
  assert (negb (PyDict.contains name (devices m)));;
  st ← get_state;
  let self := length (device_heap st) in
  modify (with_devices (fun h => h ++ [new_device cls name module]));;
  update_module module (set_devices (PyDict.set name self));;
  mret self.

(** ** [AnalogSig] *)

Definition check_width (s : ChipyAnalogSignal) (width : option Z) : M unit :=
  match width with
  | Some w => assert (sig_width s =? w)
  | None => mret tt
  end.

(** [chipy.ChipyCurrentContext.module] *)
Definition current_module : M nat := fun st =>
  match ChipyCurrentContext st with
  | Some module => Ok module st
  | None => Raise AttributeError st
  end.

(** [chipy.Concat] is code of the digital framework, not of this file.  It
    builds a signal of that framework from the sequence, which it may
    register in the current module, and it may raise; none of that is
    modelled.  A run that calls it leaves the model there, in the state it
    has at the call: it ends with [Outside], it returns nothing, and no state
    counts as reached through it. *)
Definition chipy_Concat (arg : list sigarg) : M sigval :=
  raise (Outside "chipy.Concat").

Definition AnalogSig (arg : sigarg) (width : option Z) : M sigval :=
  match arg with
  | ArgSignal a =>
      s ← read (load_signal a);
      check_width s width;;
      mret (SigRef a)
  | ArgSeq elems =>
      assert (match width with None => true | Some _ => false end);;
      chipy_Concat elems
  | ArgStr name =>
      module ← current_module;
      m ← read (load_module module);
      match PyDict.get name (signals m) with
      | Some a =>
          s ← read (load_signal a);
          check_width s width;;
          mret (SigRef a)
      | None =>
          a ← ChipyAnalogSignal_init module name;
          match width with
          | Some w => update_signal a (set_width w)
          | None => mret tt
          end;;
          mret (SigRef a)
      end
  | ArgOther => raise AssertionError
  end.

(** Attribute assignment through the result of [AnalogSig]. *)
Definition setattr_signal (s : sigval)
    (f : ChipyAnalogSignal -> ChipyAnalogSignal) : M unit :=
  match s with
  | SigRef a => update_signal a f
  end.

(** ** Device classes *)

(** [ChipyPassive.__init__], for [ChipyResistor], [ChipyCapacitor] and
    [ChipyVoltageSource]. *)
Definition ChipyPassive_init (p : passive_class) (module : nat)
    (name : option string) (sig1 sig2 : sigarg) (value : pyval) : M nat :=
  self ← ChipyDevice_init (ChipyPassive p) module name;
  s1 ← AnalogSig sig1 (Some 1);
  update_device self (set_sig1 s1);;
  s2 ← AnalogSig sig2 (Some 1);
  update_device self (set_sig2 s2);;
  update_device self (set_value value);;
  mret self.

(** [ChipyTransistor.__init__] *)
Definition ChipyTransistor_init (module : nat) (name : option string)
    (c b e substrate : sigarg) (model : dict pyval) : M nat :=
  self ← ChipyDevice_init ChipyTransistor module name;
  x ← AnalogSig c (Some 1);
  update_device self (set_c x);;
  x ← AnalogSig b (Some 1);
  update_device self (set_b x);;
  x ← AnalogSig e (Some 1);
  update_device self (set_e x);;
  x ← AnalogSig substrate (Some 1);
  update_device self (set_substrate x);;
  update_device self (set_model model);;
  mret self.

(** ** The module-level functions *)

(** What the functions below return. *)
Inductive retval : Type :=
| RNone
| RModule (a : nat)
| RSig (s : sigval)
| RList (l : list retval).

Definition AddAnalogModule (name : string) : M retval :=
  a ← ChipyAnalogModule_init name; mret (RModule a).

(** [assert chipy.ChipyCurrentContext is not None] *)
Definition assert_context : M unit :=
  st ← get_state;
  assert (match ChipyCurrentContext st with Some _ => true | None => false end).

(** The recursion of the port functions on the words of [name] is bounded by
    [fuel], as Python bounds it by its recursion limit. *)
Fixpoint AddDigitalInput (fuel : nat) (name : string) (type : pyval)
    (high_value low_value : pyval) : M retval :=
  match fuel with
  | O => raise RecursionError
  | S fuel' =>
      let names := split name in
      if (1 <? length names)%nat then
        l ← comprehension
              (fun n => AddDigitalInput fuel' n (PInt 1) (PFloat 3.3) (PInt 0))
              names;
        mret (RList l)
      else
        assert (length names =? 1)%nat;;
        let name := hd "" names in
        match type with
        | PInt width =>
            assert_context;;
            module ← current_module;
            signal ← ChipyAnalogSignal_init module name;
            update_signal signal (set_width width);;
            update_signal signal (set_inport true);;
            update_signal signal (set_digital true);;
            update_signal signal (set_high_value high_value);;
            update_signal signal (set_low_value low_value);;
            mret (RSig (SigRef signal))
        | _ => raise (NotImplementedError "Ports not supported yet")
        end
  end.

Definition AddDigitalOutput (name : string) (type : pyval) : M retval :=
  raise (NotImplementedError "Digital outputs are not supported yet").

Definition AddAnalogInput (name : string) (type : pyval) : M retval :=
  raise (NotImplementedError "Analog inputs are not supported yet").

Fixpoint AddAnalogOutput (fuel : nat) (name : string) (type : pyval)
    : M retval :=
  match fuel with
  | O => raise RecursionError
  | S fuel' =>
      let names := split name in
      if (1 <? length names)%nat then
        l ← comprehension (fun n => AddAnalogOutput fuel' n (PInt 1)) names;
        mret (RList l)
      else
        assert (length names =? 1)%nat;;
        let name := hd "" names in
        match type with
        | PInt width =>
            assert_context;;
            module ← current_module;
            signal ← ChipyAnalogSignal_init module name;
            update_signal signal (set_width width);;
            update_signal signal (set_outport true);;
            mret (RSig (SigRef signal))
        | _ => raise (NotImplementedError "Ports not supported yet")
        end
  end.

(** [vs.sig1] *)
Definition getattr_sig1 (self : nat) : R sigval :=
  d ← load_device self;
  match dev_sig1 d with Some s => mret s | None => fail AttributeError end.

Definition AddPower (name : string) (value : pyval) : M retval :=
  assert_context;;
  module ← current_module;
  vs ← ChipyPassive_init ChipyVoltageSource module (Some name)
         (ArgStr name) (ArgStr "0") value;
  sig1 ← read (getattr_sig1 vs);
  setattr_signal sig1 (set_power true);;
  setattr_signal sig1 (set_power_value value);;
  mret (RSig sig1).

Definition AddGnd (name : sigarg) : M retval :=
  assert_context;;
  module ← current_module;
  sig ← AnalogSig name (Some 1);
  setattr_signal sig (set_ground true);;
  mret (RSig sig).

Definition AddR (sig1 sig2 : sigarg) (value : pyval) : M retval :=
  assert_context;;
  module ← current_module;
  ChipyPassive_init ChipyResistor module None sig1 sig2 value;;
  mret RNone.

Definition AddC (sig1 sig2 : sigarg) (value : pyval) : M retval :=
  assert_context;;
  module ← current_module;
  ChipyPassive_init ChipyCapacitor module None sig1 sig2 value;;
  mret RNone.

Definition AddQ (c b e substrate : sigarg) (model : dict pyval) : M retval :=
  assert_context;;
  module ← current_module;
  ChipyTransistor_init module None c b e substrate model;;
  mret RNone.

(** ** [netlist] *)

Definition yosys_cell (skin_name : string) (pin_net_dict : dict Z)
    (value : pyval) : dict pyval :=
  let connections :=
    fold_left (fun connections '(pin, net) =>
                 PyDict.set pin (PList [PInt net]) connections)
              (PyDict.items pin_net_dict) PyDict.empty in
  let cell := [("type", PStr skin_name); ("connections", PDict connections)] in
  if is_not_None value
  then PyDict.set "attributes" (PDict [("value", value)]) cell
  else cell.

(** [x.id] for an attribute [x] of a device *)
Definition getattr_id (x : option sigval) : R Z :=
  match x with
  | Some (SigRef a) => s ← load_signal a; mret (sig_id s)
  | None => fail AttributeError
  end.

(** [device.connections()] *)
Definition connections (device : ChipyDevice) : R (dict Z) :=
  match dev_class device with
  | ChipyPassive _ =>
      l ← getattr_id (dev_sig1 device);
      r ← getattr_id (dev_sig2 device);
      mret [("L", l); ("R", r)]
  | ChipyTransistor =>
      c ← getattr_id (dev_c device);
      b ← getattr_id (dev_b device);
      e ← getattr_id (dev_e device);
      mret [("C", c); ("B", b); ("E", e)]
  end.

Definition port (direction : string) (id : Z) : pyval :=
  PDict [("direction", PStr direction); ("bits", PList [PInt id])].

(** The body of the loop over [self.devices.items()]. *)
Definition netlist_device (cells : dict pyval) (item : string * nat)
    : R (dict pyval) :=
  let '(ref, a) := item in
  device ← load_device a;
  match Skin (dev_class device) with
  | Some skin =>
      pins ← connections device;
      mret (PyDict.set ref (PDict (yosys_cell skin pins (dev_value device)))
              cells)
  | None => mret cells
  end.

(** The body of the loop over [self.signals.items()]. *)
Definition netlist_signal (acc : dict pyval * dict pyval) (item : string * nat)
    : R (dict pyval * dict pyval) :=
  let '(ports, cells) := acc in
  let '(name, a) := item in
  signal ← load_signal a;
  if sig_power signal then
    mret (ports,
          PyDict.set name
            (PDict (yosys_cell "power" [("VCC", sig_id signal)] (PStr name)))
            cells)
  else if sig_ground signal then
    mret (ports,
          PyDict.set name
            (PDict (yosys_cell "ground" [("GND", sig_id signal)] (PStr name)))
            cells)
  else if sig_inport signal then
    mret (PyDict.set name (port "input" (sig_id signal)) ports, cells)
  else if sig_outport signal then
    mret (PyDict.set name (port "output" (sig_id signal)) ports, cells)
  else mret (ports, cells).

Definition netlist (self : nat) : R pyval :=
  m ← load_module self;
  cells ← for_each netlist_device (PyDict.items (devices m)) PyDict.empty;
  pc ← for_each netlist_signal (PyDict.items (signals m)) (PyDict.empty, cells);
  mret (PDict [("ports", PDict (fst pc)); ("cells", PDict (snd pc))]).

(** ** The eispice model

    [eispice] is an external library.  Its objects are kept as the
    constructor calls that build them, and a circuit as its title and the
    [__setattr__] calls made on it, in order. *)

Inductive eispice_node : Type :=
| GND                       (* eispice.GND *)
| Node (name : string).

(** [EispiceDigitalInput]: a [PyB] voltage source between [pNode] and ground
    whose level follows a binary value. *)
Record EispiceDigitalInput : Type := mkDigitalInput {
  pNode : string;
  value : bool;
  high : pyval;
  low : pyval
}.

(** [EispiceDigitalInput.__init__] *)
Definition EispiceDigitalInput_init (pNode : string) (high low : pyval)
    : EispiceDigitalInput :=
  mkDigitalInput pNode false high low.

(** [EispiceDigitalInput.model] *)
Definition model (self : EispiceDigitalInput) : pyval :=
  if value self then high self else low self.

(** [EispiceDigitalInput.set_value] *)
Definition set_value_input (v : bool) (self : EispiceDigitalInput)
    : EispiceDigitalInput :=
  mkDigitalInput (pNode self) v (high self) (low self).

Inductive eispice_device : Type :=
| EispicePassive (p : passive_class) (n1 n2 : eispice_node) (value : pyval)
    (* eispice.R, eispice.C or eispice.V *)
| EispiceQ (c b e : eispice_node) (model : dict pyval)
| EispiceInput (d : EispiceDigitalInput).

Record Circuit : Type := mkCircuit {
  title : string;
  setattr_calls : list (string * eispice_device)
}.

(** [cct.__setattr__(name, x)] *)
Definition setattr (name : string) (x : eispice_device) (cct : Circuit)
    : Circuit :=
  mkCircuit (title cct) (setattr_calls cct ++ [(name, x)]).

(** [ChipyAnalogSignal.eispice_model] *)
Definition signal_eispice_model (self : ChipyAnalogSignal) : eispice_node :=
  if sig_ground self then GND else Node (sig_name self).

(** [x.eispice_model()] for an attribute [x] of a device *)
Definition getattr_eispice_model (x : option sigval) : R eispice_node :=
  match x with
  | Some (SigRef a) => s ← load_signal a; mret (signal_eispice_model s)
  | None => fail AttributeError
  end.

(** [ChipyPassive.eispice_model] and [ChipyTransistor.eispice_model] *)
Definition device_eispice_model (self : ChipyDevice) : R eispice_device :=
  match dev_class self with
  | ChipyPassive p =>
      n1 ← getattr_eispice_model (dev_sig1 self);
      n2 ← getattr_eispice_model (dev_sig2 self);
      mret (EispicePassive p n1 n2 (dev_value self))
  | ChipyTransistor =>
      c ← getattr_eispice_model (dev_c self);
      b ← getattr_eispice_model (dev_b self);
      e ← getattr_eispice_model (dev_e self);
      match dev_model self with
      | Some kwargs => mret (EispiceQ c b e kwargs)
      | None => fail AttributeError
      end
  end.

(** The body of the loop over [self.devices.items()]. *)
Definition eispice_device_step (cct : Circuit) (item : string * nat)
    : R Circuit :=
  let '(name, a) := item in
  device ← load_device a;
  x ← device_eispice_model device;
  mret (setattr name x cct).

(** The body of the loop over [self.signals.items()]. *)
Definition eispice_signal_step (cct : Circuit) (item : string * nat)
    : R Circuit :=
  let '(name, a) := item in
  signal ← load_signal a;
  if sig_digital signal && sig_inport signal then
    mret (setattr name
            (EispiceInput (EispiceDigitalInput_init (sig_name signal)
                             (sig_high_value signal) (sig_low_value signal)))
            cct)
  else mret cct.

(** [ChipyAnalogModule.eispice_model] *)
Definition eispice_model (self : nat) : R Circuit :=
  m ← load_module self;
  cct ← for_each eispice_device_step (PyDict.items (devices m))
          (mkCircuit (mod_name m) []);
  for_each eispice_signal_step (PyDict.items (signals m)) cct.

(** [EispiceModel(modname)].  A module of the digital framework has no
    [eispice_model]. *)
Definition EispiceModel (modname : string) : R Circuit :=
  fun st =>
  match PyDict.get modname (ChipyModulesDict st) with
  | Some (AnalogModule a) => eispice_model a st
  | Some DigitalModule => Exc AttributeError
  | None => Exc KeyError
  end.

(** ** [WriteNetlist]

    [json.dumps] belongs to Python's library: it is a parameter, applied to
    the object and to the options the program passes.  A file object is the
    text written to it so far. *)
Section WriteNetlist.

Variable json_dumps :
  pyval -> forall (sort_keys : bool) (indent : Z) (separators : string * string),
  string.

Definition newline : string := String (ascii_of_nat 10) "".

(** [print(j, file=f)] *)
Definition print (j : string) (f : string) : string :=
  (f ++ j ++ newline)%string.

(** The body of the loop over [chipy.ChipyModulesDict.items()]. *)
Definition WriteNetlist_step (modules : dict pyval)
    (item : string * module_entry) : R (dict pyval) :=
  let '(modname, module) := item in
  match module with
  | AnalogModule a =>
      n ← netlist a; mret (PyDict.set modname n modules)
  | DigitalModule => mret modules
  end.

Definition WriteNetlist (f : string) : R string :=
  fun st =>
  (modules ← for_each WriteNetlist_step
                (PyDict.items (ChipyModulesDict st)) PyDict.empty;
   let j := json_dumps (PDict [("modules", PDict modules)]) true 2 (",", ": ") in
   mret (print j f)) st.

End WriteNetlist.

(** ** Auxiliary definitions for the proofs *)

(** The state after the name of a device has been chosen. *)
Definition named (cls : device_class) (name : option string) (st : state)
    : string * state :=
  match name with
  | Some n => (n, st)
  | None => ((RefDes cls ++ pretty (IdCount st cls + 1))%string,
             with_IdCount cls (IdCount st cls + 1) st)
  end.

(** Does a signal pass the width assertion of [AnalogSig]? *)
Definition width_ok (s : ChipyAnalogSignal) (width : option Z) : bool :=
  match width with Some w => sig_width s =? w | None => true end.

(** The signal [AnalogSig] creates for a new name. *)
Definition created_signal (id : Z) (name : string) (module : nat)
    (width : option Z) : ChipyAnalogSignal :=
  match width with
  | Some w => set_width w (new_signal id name module)
  | None => new_signal id name module
  end.

(** The state after a signal has been constructed in the module at address
    [module], whose object was [m]. *)
Definition add_signal (s : ChipyAnalogSignal) (module : nat)
    (m : ChipyAnalogModule) (st : state) : state :=
  mkState (ChipyModulesDict st) (ChipyCurrentContext st) (SigId st + 1)
    (IdCount st)
    (<[module := set_signals
                   (PyDict.set (sig_name s) (length (signal_heap st))) m]>
       (module_heap st))
    (signal_heap st ++ [s])
    (device_heap st).

(** The state after [ChipyDevice.__init__] has registered a device. *)
Definition add_device (d : ChipyDevice) (module : nat)
    (m : ChipyAnalogModule) (st : state) : state :=
  mkState (ChipyModulesDict st) (ChipyCurrentContext st) (SigId st)
    (IdCount st)
    (<[module := set_devices
                   (PyDict.set (dev_name d) (length (device_heap st))) m]>
       (module_heap st))
    (signal_heap st)
    (device_heap st ++ [d]).

(** ** The calls a program can make, and the states it can reach *)

Inductive call : Type :=
| NewChipyAnalogModule (name : string)
| NewChipyAnalogSignal (module : nat) (name : string)
| NewChipyPassive (p : passive_class) (module : nat) (name : option string)
    (sig1 sig2 : sigarg) (value : pyval)
| NewChipyTransistor (module : nat) (name : option string)
    (c b e substrate : sigarg) (model : dict pyval)
| CallAnalogSig (arg : sigarg) (width : option Z)
| CallAddAnalogModule (name : string)
| CallAddDigitalInput (fuel : nat) (name : string) (type : pyval)
    (high_value low_value : pyval)
| CallAddDigitalOutput (name : string) (type : pyval)
| CallAddAnalogInput (name : string) (type : pyval)
| CallAddAnalogOutput (fuel : nat) (name : string) (type : pyval)
| CallAddPower (name : string) (value : pyval)
| CallAddGnd (name : sigarg)
| CallAddR (sig1 sig2 : sigarg) (value : pyval)
| CallAddC (sig1 sig2 : sigarg) (value : pyval)
| CallAddQ (c b e substrate : sigarg) (model : dict pyval).

Definition run (c : call) : M retval :=
  match c with
  | NewChipyAnalogModule name =>
      a ← ChipyAnalogModule_init name; mret (RModule a)
  | NewChipyAnalogSignal module name =>
      a ← ChipyAnalogSignal_init module name; mret (RSig (SigRef a))
  | NewChipyPassive p module name sig1 sig2 value =>
      ChipyPassive_init p module name sig1 sig2 value;; mret RNone
  | NewChipyTransistor module name c b e substrate model =>
      ChipyTransistor_init module name c b e substrate model;; mret RNone
  | CallAnalogSig arg width => s ← AnalogSig arg width; mret (RSig s)
  | CallAddAnalogModule name => AddAnalogModule name
  | CallAddDigitalInput fuel name type high_value low_value =>
      AddDigitalInput fuel name type high_value low_value
  | CallAddDigitalOutput name type => AddDigitalOutput name type
  | CallAddAnalogInput name type => AddAnalogInput name type
  | CallAddAnalogOutput fuel name type => AddAnalogOutput fuel name type
  | CallAddPower name value => AddPower name value
  | CallAddGnd name => AddGnd name
  | CallAddR sig1 sig2 value => AddR sig1 sig2 value
  | CallAddC sig1 sig2 value => AddC sig1 sig2 value
  | CallAddQ c b e substrate model => AddQ c b e substrate model
  end.

(** The states of a process: from the initial state, by calls that returned
    (an exception ends the program), by the context manager of the digital
    framework making an analog module, or none, the current one
    ([with module:]), and by the digital framework registering a module of
    its own.  A call of [AnalogSig] on a tuple or list without a width does
    not return here, it ends with [Outside]: the states are those of
    programs that do not hand a sequence to [chipy.Concat], and what the
    digital framework does to an analog module is outside this model. *)
Inductive reachable : state -> Prop :=
| reachable_init : reachable init_state
| reachable_call c st r st' :
    reachable st -> run c st = Ok r st' -> reachable st'
| reachable_context ctx st :
    reachable st ->
    (forall a, ctx = Some a -> (a < length (module_heap st))%nat) ->
    reachable (with_Context ctx st)
| reachable_digital name st :
    reachable st ->
    PyDict.get name (ChipyModulesDict st) = None ->
    reachable (with_ModulesDict (PyDict.set name DigitalModule) st).

(** The states of a process that goes on after an exception: as [reachable],
    but a call counts whether it returned or raised.  (A call that ends with
    [Outside] is in the state it started from, so it adds no state: these
    too are states of programs that do not hand a sequence to
    [chipy.Concat].) *)
Inductive process_state : state -> Prop :=
| process_init : process_state init_state
| process_call c st :
    process_state st -> process_state (state_of (run c st))
| process_context ctx st :
    process_state st ->
    (forall a, ctx = Some a -> (a < length (module_heap st))%nat) ->
    process_state (with_Context ctx st)
| process_digital name st :
    process_state st ->
    PyDict.get name (ChipyModulesDict st) = None ->
    process_state (with_ModulesDict (PyDict.set name DigitalModule) st).

(** The counter is the number of signals built, and the signal at address
    [i] has the id [i + 1]. *)
Definition ids_ok (st : state) : Prop :=
  SigId st = Z.of_nat (length (signal_heap st)) /\
  forall i s, signal_heap st !! i = Some s -> sig_id s = Z.of_nat i + 1.

(** A computation keeps [I] when the state it leaves, returning or raising,
    satisfies [I] whenever the state it starts from does. *)
Definition keeps {A} (I : state -> Prop) (m : M A) : Prop :=
  forall st, I st -> I (state_of (m st)).

(** ** Invariants *)

(** A reference held by a device is the address of a signal. *)
Definition valid_ref (st : state) (x : option sigval) : Prop :=
  match x with
  | Some (SigRef a) => (a < length (signal_heap st))%nat
  | None => True
  end.

(** A device in the middle of its constructor: what is set is valid. *)
Definition device_valid (st : state) (d : ChipyDevice) : Prop :=
  valid_ref st (dev_sig1 d) /\ valid_ref st (dev_sig2 d) /\
  valid_ref st (dev_c d) /\ valid_ref st (dev_b d) /\
  valid_ref st (dev_e d) /\ valid_ref st (dev_substrate d).

(** A device whose constructor has returned. *)
Definition device_complete (d : ChipyDevice) : Prop :=
  match dev_class d with
  | ChipyPassive _ => is_Some (dev_sig1 d) /\ is_Some (dev_sig2 d)
  | ChipyTransistor =>
      is_Some (dev_c d) /\ is_Some (dev_b d) /\ is_Some (dev_e d) /\
      is_Some (dev_substrate d) /\ is_Some (dev_model d)
  end.

(** The registries of a module at address [b]: names are unique, every
    entry is the address of an object that carries the name it is registered
    under, and every device except the one under construction ([pending]) is
    complete. *)
Definition module_ok (pending : option nat) (st : state) (b : nat)
    (m : ChipyAnalogModule) : Prop :=
  NoDup (PyDict.keys (signals m)) /\
  NoDup (PyDict.keys (devices m)) /\
  (forall k a, In (k, a) (signals m) ->
     exists s, signal_heap st !! a = Some s /\
               sig_name s = k /\ sig_module s = b) /\
  (forall k a, In (k, a) (devices m) ->
     exists d, device_heap st !! a = Some d /\
               dev_name d = k /\ dev_module d = b /\
               (pending = Some a \/ device_complete d)).

Record inv (pending : option nat) (st : state) : Prop := mkInv {
  inv_SigId : SigId st = Z.of_nat (length (signal_heap st));
  inv_ids : forall i s,
    signal_heap st !! i = Some s -> sig_id s = Z.of_nat i + 1;
  inv_context : forall a,
    ChipyCurrentContext st = Some a -> (a < length (module_heap st))%nat;
  inv_dict_keys : NoDup (PyDict.keys (ChipyModulesDict st));
  inv_dict : forall k a,
    In (k, AnalogModule a) (ChipyModulesDict st) ->
    exists m, module_heap st !! a = Some m /\ mod_name m = k;
  inv_devices : forall a d,
    device_heap st !! a = Some d -> device_valid st d;
  inv_modules : forall b m,
    module_heap st !! b = Some m -> module_ok pending st b m
}.

(** Names, owners and ids of the signals already there are kept. *)
Definition signals_kept (st st' : state) : Prop :=
  forall a s, signal_heap st !! a = Some s ->
    exists s', signal_heap st' !! a = Some s' /\ sig_id s' = sig_id s /\
               sig_name s' = sig_name s /\ sig_module s' = sig_module s.

(** Names and owners of the devices already there are kept, and a complete
    device other than the pending one stays complete. *)
Definition devices_kept (pending : option nat) (st st' : state) : Prop :=
  forall a d, device_heap st !! a = Some d ->
    exists d', device_heap st' !! a = Some d' /\ dev_name d' = dev_name d /\
               dev_module d' = dev_module d /\
               (pending = Some a \/ (device_complete d -> device_complete d')).

(** ** Programs

    A program is a sequence of calls, entries into the context of a module,
    and registrations by the digital framework.  [exec] runs one and gives
    the final state, or [None] when a call raises. *)
Inductive event : Type :=
| Call (c : call)
| Enter (ctx : option nat)
| RegisterDigital (name : string).

Fixpoint exec (es : list event) (st : state) : option state :=
  match es with
  | [] => Some st
  | Call c :: es' =>
      match run c st with
      | Ok _ st' => exec es' st'
      | Raise _ _ => None
      end
  | Enter ctx :: es' =>
      if match ctx with
         | Some a => (a <? length (module_heap st))%nat
         | None => true
         end
      then exec es' (with_Context ctx st) else None
  | RegisterDigital name :: es' =>
      if PyDict.contains name (ChipyModulesDict st) then None
      else exec es' (with_ModulesDict (PyDict.set name DigitalModule) st)
  end.

(** A state with one module, entered, and nothing in it. *)
Definition one_module_state : state :=
  with_Context (Some 0%nat) (state_of (AddAnalogModule "amp" init_state)).

(** A one-transistor amplifier next to a module of the digital framework. *)
Definition amplifier : list event :=
  [ RegisterDigital "top";
    Call (CallAddAnalogModule "amp");
    Enter (Some 0%nat);
    Call (CallAddPower "VCC" (PInt 5));
    Call (CallAddGnd (ArgStr "0"));
    Call (CallAddDigitalInput 2 "a  b" (PInt 1) (PFloat 3.3) (PInt 0));
    Call (CallAddAnalogOutput 2 "out" (PInt 1));
    Call (CallAnalogSig (ArgStr "bias") None);
    Call (CallAddR (ArgStr "a") (ArgStr "bias") (PInt 1000));
    Call (CallAddC (ArgStr "out") (ArgStr "0") PNone);
    Call (CallAddQ (ArgStr "out") (ArgStr "bias") (ArgStr "0") (ArgStr "0") []) ].

Definition amplifier_state : state :=
  match exec amplifier init_state with Some st => st | None => init_state end.

(** The module of the amplifier. *)
Definition amplifier_module : ChipyAnalogModule :=
  match module_heap amplifier_state !! 0%nat with
  | Some m => m
  | None => mkModule "" [] []
  end.

(** A program that declares the input [a] twice, with a resistor connected
    to it in between. *)
Definition declared_twice : list event :=
  [ Call (CallAddAnalogModule "amp");
    Enter (Some 0%nat);
    Call (CallAddDigitalInput 1 "a" (PInt 1) (PFloat 3.3) (PInt 0));
    Call (CallAddR (ArgStr "a") (ArgStr "b") (PInt 1000)) ].

Definition declared_twice_state : state :=
  match exec declared_twice init_state with
  | Some st => st
  | None => init_state
  end.

(** A program that declares a digital input under the name the first
    resistor gets. *)
Definition name_collision : list event :=
  [ Call (CallAddAnalogModule "amp");
    Enter (Some 0%nat);
    Call (CallAddDigitalInput 1 "R1" (PInt 1) (PFloat 3.3) (PInt 0));
    Call (CallAddR (ArgStr "x") (ArgStr "y") (PInt 1000)) ].

Definition name_collision_state : state :=
  match exec name_collision init_state with
  | Some st => st
  | None => init_state
  end.

(** ** Frames

    What a step of a device constructor leaves alone: the devices below
    address [n], and the [devices] registry of every module. *)
Definition registry_frame (n : nat) (st st' : state) : Prop :=
  (forall r, (r < n)%nat -> device_heap st' !! r = device_heap st !! r) /\
  (forall b m, module_heap st !! b = Some m ->
     exists m', module_heap st' !! b = Some m' /\ devices m' = devices m).

(** The effect of a device constructor on the registry of its module: one
    entry, under a name that was free, is appended; the objects of the other
    entries are untouched. *)
Definition device_registered (module self : nat) (st st' : state) : Prop :=
  exists m m' n,
    module_heap st !! module = Some m /\
    module_heap st' !! module = Some m' /\
    PyDict.get n (devices m) = None /\
    devices m' = devices m ++ [(n, self)] /\
    forall r d, device_heap st !! r = Some d -> device_heap st' !! r = Some d.

(** ** Words *)

(** A string without whitespace. *)
Fixpoint nospace (s : string) : bool :=
  match s with
  | EmptyString => true
  | String c s' => negb (isspace c) && nospace s'
  end.

(** A word: not empty, no whitespace. *)
Definition word (s : string) : Prop := s <> "" /\ nospace s = true.

(** The signals the port functions leave behind. *)
Definition input_signal (id : Z) (name : string) (module : nat) (width : Z)
    (high low : pyval) : ChipyAnalogSignal :=
  set_low_value low (set_high_value high (set_digital true (set_inport true
    (set_width width (new_signal id name module))))).

Definition output_signal (id : Z) (name : string) (module : nat) (width : Z)
    : ChipyAnalogSignal :=
  set_outport true (set_width width (new_signal id name module)).

(** ** The entries of a netlist

    [upd k o d] is [d] with [d[k] = v] done when [o] is [Some v]. *)
Definition upd {V} (k : string) (o : option V) (d : dict V) : dict V :=
  match o with Some v => PyDict.set k v d | None => d end.

(** The cell the loop over the devices inserts for the device at [a]. *)
Definition device_cell (a : nat) : R (option pyval) :=
  device ← load_device a;
  match Skin (dev_class device) with
  | Some skin =>
      pins ← connections device;
      mret (Some (PDict (yosys_cell skin pins (dev_value device))))
  | None => mret None
  end.

(** The cell and the port the loop over the signals inserts for a signal. *)
Definition signal_cell (name : string) (s : ChipyAnalogSignal)
    : option pyval :=
  if sig_power s then
    Some (PDict (yosys_cell "power" [("VCC", sig_id s)] (PStr name)))
  else if sig_ground s then
    Some (PDict (yosys_cell "ground" [("GND", sig_id s)] (PStr name)))
  else None.

Definition signal_port (s : ChipyAnalogSignal) : option pyval :=
  if sig_power s then None
  else if sig_ground s then None
  else if sig_inport s then Some (port "input" (sig_id s))
  else if sig_outport s then Some (port "output" (sig_id s))
  else None.

(** The shape of a cell of type [skin] with the pins [pins] and the value
    [v]: a dictionary with the keys ['type'] and ['connections'], where each
    pin maps to the one-element list of its net, and with the key
    ['attributes'], holding [{'value': v}], exactly when [v] is not [None]. *)
Definition is_cell (skin : string) (pins : dict Z) (v : pyval) (c : pyval)
    : Prop :=
  exists entries conns,
    c = PDict entries /\
    PyDict.get "type" entries = Some (PStr skin) /\
    PyDict.get "connections" entries = Some (PDict conns) /\
    (forall pin, PyDict.get pin conns
                 = (fun net => PList [PInt net]) <$> PyDict.get pin pins) /\
    PyDict.get "attributes" entries
    = (if is_not_None v then Some (PDict [("value", v)]) else None) /\
    (forall k, k <> "type" -> k <> "connections" -> k <> "attributes" ->
               PyDict.get k entries = None).

(** The shape of a port: the keys ['direction'] and ['bits'], the latter the
    one-element list of the id. *)
Definition is_port (direction : string) (id : Z) (p : pyval) : Prop :=
  exists entries,
    p = PDict entries /\
    PyDict.get "direction" entries = Some (PStr direction) /\
    PyDict.get "bits" entries = Some (PList [PInt id]) /\
    (forall k, k <> "direction" -> k <> "bits" -> PyDict.get k entries = None).

(** A cell of some type, pins and value; a port of some signal. *)
Definition cell_shaped (c : pyval) : Prop :=
  exists skin pins v, is_cell skin pins v c.

Definition port_shaped (p : pyval) : Prop :=
  exists direction id,
    (direction = "input" \/ direction = "output") /\ is_port direction id p.

(** What the loop of [WriteNetlist] inserts for an entry of
    [ChipyModulesDict]. *)
Definition module_netlist (st : state) (name : string) (module : module_entry)
    : res (option pyval) :=
  match module with
  | AnalogModule a =>
      match netlist a st with Val n => Val (Some n) | Exc e => Exc e end
  | DigitalModule => Val None
  end.

(** The signals of a registry that are digital inputs, in order. *)
Fixpoint digital_inputs (st : state) (l : list (string * nat))
    : list (string * ChipyAnalogSignal) :=
  match l with
  | [] => []
  | (name, a) :: l' =>
      match signal_heap st !! a with
      | Some s =>
          if sig_digital s && sig_inport s
          then (name, s) :: digital_inputs st l'
          else digital_inputs st l'
      | None => digital_inputs st l'
      end
  end.

(** ** Auxiliary definitions for further properties *)

(** A name that is empty or all whitespace. *)
Fixpoint blank (s : string) : bool :=
  match s with
  | EmptyString => true
  | String c s' => isspace c && blank s'
  end.

(** What the construction of a device's pins leaves alone: the context, the
    module dictionary, the signals there are, the entries of every
    [signals] registry, and every [devices] registry. *)
Definition extends (st st' : state) : Prop :=
  ChipyCurrentContext st' = ChipyCurrentContext st /\
  ChipyModulesDict st' = ChipyModulesDict st /\
  IdCount st' = IdCount st /\
  (forall b s, signal_heap st !! b = Some s -> signal_heap st' !! b = Some s) /\
  (forall b m, module_heap st !! b = Some m ->
     exists m', module_heap st' !! b = Some m' /\
                mod_name m' = mod_name m /\ devices m' = devices m /\
                forall k x, PyDict.get k (signals m) = Some x ->
                            PyDict.get k (signals m') = Some x).

(** The signal at [a] is what [AnalogSig(arg, 1)] gives in the state [st]. *)
Definition is_pin (st : state) (arg : sigarg) (a : nat) : Prop :=
  (exists s, signal_heap st !! a = Some s /\ sig_width s = 1) /\
  (forall name, arg = ArgStr name ->
     exists module m,
       ChipyCurrentContext st = Some module /\
       module_heap st !! module = Some m /\
       PyDict.get name (signals m) = Some a) /\
  (forall a0, arg = ArgSignal a0 -> a0 = a).

(** What [AddR] and [AddC] leave behind: one device of class [p], named by
    the next designator, whose pins are the signals [AnalogSig] gives for
    [sig1] and [sig2]; and a cell of the netlist for it. *)
Definition passive_added (p : passive_class) (skin : string)
    (sig1 sig2 : sigarg) (value : pyval) (st st' : state) : Prop :=
  exists module m m' a1 a2 s1 s2 ports cells,
    let n := (RefDes (ChipyPassive p)
              ++ pretty (IdCount st (ChipyPassive p) + 1))%string in
    ChipyCurrentContext st = Some module /\
    module_heap st !! module = Some m /\
    module_heap st' !! module = Some m' /\
    PyDict.get n (devices m) = None /\
    devices m' = devices m ++ [(n, length (device_heap st))] /\
    device_heap st'
    = device_heap st ++
      [mkDevice (ChipyPassive p) n module (Some (SigRef a1)) (Some (SigRef a2))
         value None None None None None] /\
    IdCount st' (ChipyPassive p) = IdCount st (ChipyPassive p) + 1 /\
    is_pin st' sig1 a1 /\ is_pin st' sig2 a2 /\
    signal_heap st' !! a1 = Some s1 /\ signal_heap st' !! a2 = Some s2 /\
    (forall b s, signal_heap st !! b = Some s -> signal_heap st' !! b = Some s) /\
    (forall k x, PyDict.get k (signals m) = Some x ->
                 PyDict.get k (signals m') = Some x) /\
    netlist module st'
    = Val (PDict [("ports", PDict ports); ("cells", PDict cells)]) /\
    (PyDict.get n (signals m') = None ->
     PyDict.get n cells
     = Some (PDict (yosys_cell skin [("L", sig_id s1); ("R", sig_id s2)]
                      value))) /\
    device_eispice_model
      (mkDevice (ChipyPassive p) n module (Some (SigRef a1)) (Some (SigRef a2))
         value None None None None None) st'
    = Val (EispicePassive p (signal_eispice_model s1) (signal_eispice_model s2)
             value).

(** The same for [AddQ]. *)
Definition transistor_added (c b e substrate : sigarg) (model : dict pyval)
    (st st' : state) : Prop :=
  exists module m m' ac ab ae asub sc sb se ports cells,
    let n := ("Q" ++ pretty (IdCount st ChipyTransistor + 1))%string in
    ChipyCurrentContext st = Some module /\
    module_heap st !! module = Some m /\
    module_heap st' !! module = Some m' /\
    PyDict.get n (devices m) = None /\
    devices m' = devices m ++ [(n, length (device_heap st))] /\
    device_heap st'
    = device_heap st ++
      [mkDevice ChipyTransistor n module None None (PStr " ")
         (Some (SigRef ac)) (Some (SigRef ab)) (Some (SigRef ae))
         (Some (SigRef asub)) (Some model)] /\
    IdCount st' ChipyTransistor = IdCount st ChipyTransistor + 1 /\
    is_pin st' c ac /\ is_pin st' b ab /\ is_pin st' e ae /\
    is_pin st' substrate asub /\
    signal_heap st' !! ac = Some sc /\ signal_heap st' !! ab = Some sb /\
    signal_heap st' !! ae = Some se /\
    (forall b s, signal_heap st !! b = Some s -> signal_heap st' !! b = Some s) /\
    (forall k x, PyDict.get k (signals m) = Some x ->
                 PyDict.get k (signals m') = Some x) /\
    netlist module st'
    = Val (PDict [("ports", PDict ports); ("cells", PDict cells)]) /\
    (PyDict.get n (signals m') = None ->
     PyDict.get n cells
     = Some (PDict (yosys_cell "transistor-npn"
                      [("C", sig_id sc); ("B", sig_id sb); ("E", sig_id se)]
                      (PStr " ")))) /\
    device_eispice_model
      (mkDevice ChipyTransistor n module None None (PStr " ")
         (Some (SigRef ac)) (Some (SigRef ab)) (Some (SigRef ae))
         (Some (SigRef asub)) (Some model)) st'
    = Val (EispiceQ (signal_eispice_model sc) (signal_eispice_model sb)
             (signal_eispice_model se) model).

(** Nothing is removed, renamed or renumbered: every entry of the module
    dictionary stays; every module keeps its name, the names in its
    [signals] registry and the entries of its [devices] registry; every
    signal keeps its id, name and module; every device keeps its class, name
    and module; the counters do not decrease. *)
Definition grows (st st' : state) : Prop :=
  (forall k e, PyDict.get k (ChipyModulesDict st) = Some e ->
               PyDict.get k (ChipyModulesDict st') = Some e) /\
  (forall b m, module_heap st !! b = Some m ->
     exists m', module_heap st' !! b = Some m' /\ mod_name m' = mod_name m /\
       (forall k, is_Some (PyDict.get k (signals m)) ->
                  is_Some (PyDict.get k (signals m'))) /\
       (forall k a, PyDict.get k (devices m) = Some a ->
                    PyDict.get k (devices m') = Some a)) /\
  (forall a s, signal_heap st !! a = Some s ->
     exists s', signal_heap st' !! a = Some s' /\ sig_id s' = sig_id s /\
                sig_name s' = sig_name s /\ sig_module s' = sig_module s) /\
  (forall a d, device_heap st !! a = Some d ->
     exists d', device_heap st' !! a = Some d' /\ dev_class d' = dev_class d /\
                dev_name d' = dev_name d /\ dev_module d' = dev_module d) /\
  SigId st <= SigId st' /\
  (forall cls, IdCount st cls <= IdCount st' cls).

(** A computation whose final state, returning or raising, is related to
    its initial state. *)
Definition preserves {A} (Rel : state -> state -> Prop) (m : M A) : Prop :=
  forall st, Rel st (state_of (m st)).

(** The designator counters are left as they are. *)
Definition same_counters (st st' : state) : Prop := IdCount st' = IdCount st.

(** An argument [AnalogSig] rejects when a width is asked for: a tuple or a
    list, or something that is no signal, sequence or string. *)
Definition rejected (arg : sigarg) : bool :=
  match arg with
  | ArgSeq _ | ArgOther => true
  | ArgSignal _ | ArgStr _ => false
  end.

(** The pins of a device: the attributes that hold a signal. *)
Definition device_pins (d : ChipyDevice) : list (option sigval) :=
  [dev_sig1 d; dev_sig2 d; dev_c d; dev_b d; dev_e d; dev_substrate d].

(** Every pin that is set is a signal of width 1. *)
Definition pins_width_one (st : state) : Prop :=
  forall a d x b,
    device_heap st !! a = Some d -> In x (device_pins d) ->
    x = Some (SigRef b) ->
    exists s, signal_heap st !! b = Some s /\ sig_width s = 1.

(** No device is touched, and every signal keeps its width. *)
Definition settled (st st' : state) : Prop :=
  device_heap st' = device_heap st /\
  forall b s, signal_heap st !! b = Some s ->
    exists s', signal_heap st' !! b = Some s' /\ sig_width s' = sig_width s.

(** * Proofs *)

(** ** Dictionaries *)

Section DictFacts.
Context {V : Type}.
Implicit Types (d : dict V) (k : string) (v : V).

Lemma dict_get_set_eq k v d : PyDict.get k (PyDict.set k v d) = Some v.
Proof.
  induction d as [|[k' v'] d IH]; simpl.
  - by rewrite String.eqb_refl.
  - destruct (String.eqb k k') eqn:E; simpl; rewrite E; auto.
Qed.

Lemma dict_get_set_ne k k' v d :
  k <> k' -> PyDict.get k' (PyDict.set k v d) = PyDict.get k' d.
Proof.
  intros Hne. induction d as [|[k0 v0] d IH]; simpl.
  - destruct (String.eqb k' k) eqn:E; auto.
    apply String.eqb_eq in E. congruence.
  - destruct (String.eqb k k0) eqn:E; simpl.
    + apply String.eqb_eq in E; subst k0.
      destruct (String.eqb k' k) eqn:E'; auto.
      apply String.eqb_eq in E'. congruence.
    + by rewrite IH.
Qed.

Lemma dict_get_set k k' v d :
  PyDict.get k' (PyDict.set k v d) = if decide (k = k') then Some v else PyDict.get k' d.
Proof.
  case_decide; subst; auto using dict_get_set_eq, dict_get_set_ne.
Qed.

Lemma dict_contains_true k d :
  PyDict.contains k d = true <-> is_Some (PyDict.get k d).
Proof.
  unfold PyDict.contains. destruct (PyDict.get k d); split; intros H; auto;
    try discriminate; by destruct H.
Qed.

Lemma dict_contains_false k d :
  PyDict.contains k d = false <-> PyDict.get k d = None.
Proof.
  unfold PyDict.contains.
  destruct (PyDict.get k d); split; intros H; auto; discriminate.
Qed.

Lemma dict_get_None_keys k d : PyDict.get k d = None <-> ~ In k (PyDict.keys d).
Proof.
  induction d as [|[k' v'] d IH]; simpl.
  - tauto.
  - destruct (String.eqb k k') eqn:E.
    + apply String.eqb_eq in E. subst. split; [discriminate | tauto].
    + apply String.eqb_neq in E. rewrite IH. split.
      * intros H [?|?]; auto.
      * tauto.
Qed.

Lemma dict_get_Some_In k v d : PyDict.get k d = Some v -> In (k, v) d.
Proof.
  induction d as [|[k' v'] d IH]; simpl; [discriminate|].
  destruct (String.eqb k k') eqn:E.
  - apply String.eqb_eq in E. intros [= ->]. subst. auto.
  - auto.
Qed.

Lemma dict_In_get_Some k v d :
  NoDup (PyDict.keys d) -> In (k, v) d -> PyDict.get k d = Some v.
Proof.
  induction d as [|[k' v'] d IH]; simpl; [tauto|].
  intros Hnd [H|H].
  - injection H as -> ->. by rewrite String.eqb_refl.
  - apply NoDup_cons in Hnd as [Hnd1 Hnd2].
    destruct (String.eqb k k') eqn:E; auto.
    apply String.eqb_eq in E. subst k'. exfalso. apply Hnd1.
    apply list_elem_of_In. change k with (fst (k, v)). by apply in_map.
Qed.

(** Setting a key that is absent appends the entry at the end. *)
Lemma dict_set_fresh k v d :
  PyDict.get k d = None -> PyDict.set k v d = d ++ [(k, v)].
Proof.
  induction d as [|[k' v'] d IH]; simpl; auto.
  destruct (String.eqb k k') eqn:E; [discriminate|].
  intros H. by rewrite IH.
Qed.

(** Setting a key that is present keeps the PyDict.keys and their order. *)
Lemma dict_keys_set_present k v d :
  is_Some (PyDict.get k d) -> PyDict.keys (PyDict.set k v d) = PyDict.keys d.
Proof.
  induction d as [|[k' v'] d IH]; simpl.
  - by intros [? ?].
  - destruct (String.eqb k k') eqn:E; simpl; auto.
    intros H. by rewrite IH.
Qed.

Lemma dict_keys_set_NoDup k v d :
  NoDup (PyDict.keys d) -> NoDup (PyDict.keys (PyDict.set k v d)).
Proof.
  intros Hnd. destruct (PyDict.get k d) eqn:E.
  - rewrite dict_keys_set_present; eauto.
  - rewrite dict_set_fresh by done. unfold PyDict.keys. rewrite map_app. simpl.
    apply NoDup_app. split; [done|]. split.
    + intros x Hx ->%list_elem_of_singleton.
      apply dict_get_None_keys in E. apply E. by apply list_elem_of_In.
    + apply NoDup_singleton.
Qed.

End DictFacts.

(** ** The monads *)

Lemma M_bind_Ok {A B} (f : A -> M B) (m : M A) st b st' :
  (m ≫= f) st = Ok b st' <->
  exists a st1, m st = Ok a st1 /\ f a st1 = Ok b st'.
Proof.
  unfold mbind, M_bind. destruct (m st) as [a st1|e st1]; split.
  - intros H. by exists a, st1.
  - intros (a0 & st2 & H1 & H2). by injection H1 as -> ->.
  - discriminate.
  - intros (a0 & st2 & H1 & H2). discriminate.
Qed.

Lemma M_bind_Raise {A B} (f : A -> M B) (m : M A) st e st' :
  (m ≫= f) st = Raise e st' <->
  m st = Raise e st' \/
  exists a st1, m st = Ok a st1 /\ f a st1 = Raise e st'.
Proof.
  unfold mbind, M_bind. destruct (m st) as [a st1|e1 st1]; split.
  - intros H. right. by exists a, st1.
  - intros [H|(a0 & st2 & H1 & H2)]; [discriminate|]. by injection H1 as -> ->.
  - intros H. left. by injection H as -> ->.
  - intros [H|(a0 & st2 & H1 & H2)]; [by injection H as -> ->|discriminate].
Qed.

Lemma R_bind_Val {A B} (f : A -> R B) (m : R A) st b :
  (m ≫= f) st = Val b <-> exists a, m st = Val a /\ f a st = Val b.
Proof.
  unfold mbind, R_bind. destruct (m st) as [a|e]; split.
  - intros H. by exists a.
  - intros (a0 & H1 & H2). by injection H1 as ->.
  - discriminate.
  - intros (a0 & H1 & H2). discriminate.
Qed.

Lemma read_Ok {A} (r : R A) st a st' :
  read r st = Ok a st' <-> r st = Val a /\ st' = st.
Proof.
  unfold read. destruct (r st) as [a0|e]; split.
  - by intros [= -> ->].
  - by intros [[= ->] ->].
  - discriminate.
  - intros [H _]. discriminate.
Qed.

Lemma assert_Ok b st u st' : assert b st = Ok u st' <-> b = true /\ st' = st.
Proof.
  destruct u, b; unfold assert; split.
  - by intros [= ->].
  - by intros [_ ->].
  - discriminate.
  - intros [H _]. discriminate.
Qed.

Lemma assert_Raise b st e st' :
  assert b st = Raise e st' <-> b = false /\ e = AssertionError /\ st' = st.
Proof.
  destruct b; unfold assert; split.
  - discriminate.
  - intros (H & _). discriminate.
  - by intros [= <- <-].
  - by intros (_ & -> & ->).
Qed.

(** Invert the hypotheses that say a monadic computation returned. *)
Ltac inv_M :=
  repeat match goal with
  | H : (_ ≫= _) _ = Ok _ _ |- _ =>
      let a := fresh "a" in let st := fresh "st" in let H1 := fresh "H" in
      apply M_bind_Ok in H as (a & st & H1 & H)
  | H : (_ ≫= _) _ = Val _ |- _ =>
      let a := fresh "a" in let H1 := fresh "H" in
      apply R_bind_Val in H as (a & H1 & H)
  | H : read _ _ = Ok _ _ |- _ => apply read_Ok in H as [H ->]
  | H : assert _ _ = Ok _ _ |- _ => apply assert_Ok in H as [H ->]
  | H : get_state _ = Ok _ _ |- _ => injection H as <- <-
  | H : modify _ _ = Ok _ _ |- _ => injection H as <- <-
  | H : mret _ _ = Ok _ _ |- _ => injection H as <- <-
  | H : mret _ _ = Val _ |- _ => injection H as <-
  | H : raise _ _ = Ok _ _ |- _ => discriminate H
  | H : fail _ _ = Val _ |- _ => discriminate H
  end.

(** ** C5: the stubs *)

(** C5: [AddDigitalOutput] and [AddAnalogInput] raise [NotImplementedError] on
    every input; [AddDigitalInput] and [AddAnalogOutput] raise it when the name
    is a single word and the type is not an int.  In each case the state at
    the raise is the state of the call: nothing was registered. *)
Theorem not_implemented_stubs :
  (forall name type st,
      AddDigitalOutput name type st
      = Raise (NotImplementedError "Digital outputs are not supported yet") st) /\
  (forall name type st,
      AddAnalogInput name type st
      = Raise (NotImplementedError "Analog inputs are not supported yet") st) /\
  (forall fuel name type high_value low_value st,
      length (split name) = 1%nat -> isinstance_int type = false ->
      AddDigitalInput (S fuel) name type high_value low_value st
      = Raise (NotImplementedError "Ports not supported yet") st) /\
  (forall fuel name type st,
      length (split name) = 1%nat -> isinstance_int type = false ->
      AddAnalogOutput (S fuel) name type st
      = Raise (NotImplementedError "Ports not supported yet") st).
Proof.
  repeat split.
  - intros fuel name type hv lv st Hlen Hty. simpl.
    rewrite Hlen. simpl. destruct type; try discriminate; reflexivity.
  - intros fuel name type st Hlen Hty. simpl.
    rewrite Hlen. simpl. destruct type; try discriminate; reflexivity.
Qed.

Lemma not_implemented_stubs_witness :
  AddDigitalInput 1 "clk" (PStr "bus") (PFloat 3.3) (PInt 0) init_state
  = Raise (NotImplementedError "Ports not supported yet") init_state.
Proof.
  apply (proj1 (proj2 (proj2 not_implemented_stubs))); reflexivity.
Defined.

(** Evaluate the monadic plumbing of a goal. *)
Ltac M_eval :=
  cbv beta iota delta
    [mbind M_bind mret M_ret R_bind R_ret get_state modify read raise fail
     update_module update_signal update_device load_module load_signal
     load_device current_module assert_context].

Lemma M_bind_step {A B} (f : A -> M B) (m : M A) st a st1 :
  m st = Ok a st1 -> (m ≫= f) st = f a st1.
Proof. intros H. unfold mbind, M_bind. by rewrite H. Qed.

Lemma R_bind_step {A B} (f : A -> R B) (m : R A) st a :
  m st = Val a -> (m ≫= f) st = f a st.
Proof. intros H. unfold mbind, R_bind. by rewrite H. Qed.

(** ** What the primitives and the constructors do to the state *)

Lemma current_module_Ok st a st' :
  current_module st = Ok a st' <-> ChipyCurrentContext st = Some a /\ st' = st.
Proof.
  unfold current_module. destruct (ChipyCurrentContext st); split.
  - by intros [= -> ->].
  - by intros [[= ->] ->].
  - discriminate.
  - intros [H _]. discriminate.
Qed.

Lemma assert_context_Ok st u st' :
  assert_context st = Ok u st' <->
  (exists a, ChipyCurrentContext st = Some a) /\ st' = st.
Proof.
  destruct u. M_eval. destruct (ChipyCurrentContext st); simpl; split.
  - intros [= ->]. eauto.
  - by intros [_ ->].
  - discriminate.
  - intros [[a H] _]. discriminate.
Qed.

Lemma load_module_Val a st m :
  load_module a st = Val m <-> module_heap st !! a = Some m.
Proof.
  unfold load_module. destruct (module_heap st !! a); split; congruence.
Qed.

Lemma load_signal_Val a st s :
  load_signal a st = Val s <-> signal_heap st !! a = Some s.
Proof.
  unfold load_signal. destruct (signal_heap st !! a); split; congruence.
Qed.

Lemma load_device_Val a st d :
  load_device a st = Val d <-> device_heap st !! a = Some d.
Proof.
  unfold load_device. destruct (device_heap st !! a); split; congruence.
Qed.

Lemma update_module_eq a f st :
  update_module a f st =
  match module_heap st !! a with
  | Some m => Ok tt (with_modules (<[a := f m]>) st)
  | None => Raise NoSuchObject st
  end.
Proof. M_eval. by destruct (module_heap st !! a). Qed.

Lemma update_signal_eq a f st :
  update_signal a f st =
  match signal_heap st !! a with
  | Some s => Ok tt (with_signals (<[a := f s]>) st)
  | None => Raise NoSuchObject st
  end.
Proof. M_eval. by destruct (signal_heap st !! a). Qed.

Lemma update_device_eq a f st :
  update_device a f st =
  match device_heap st !! a with
  | Some d => Ok tt (with_devices (<[a := f d]>) st)
  | None => Raise NoSuchObject st
  end.
Proof. M_eval. by destruct (device_heap st !! a). Qed.

Lemma update_signal_Ok a f st u st' :
  update_signal a f st = Ok u st' <->
  exists s, signal_heap st !! a = Some s /\
            st' = with_signals (<[a := f s]>) st.
Proof.
  rewrite update_signal_eq. destruct u, (signal_heap st !! a) as [s|]; split.
  - intros [= <-]. eauto.
  - by intros (s' & [= <-] & ->).
  - discriminate.
  - intros (s' & H & _). discriminate.
Qed.

Lemma update_device_Ok a f st u st' :
  update_device a f st = Ok u st' <->
  exists d, device_heap st !! a = Some d /\
            st' = with_devices (<[a := f d]>) st.
Proof.
  rewrite update_device_eq. destruct u, (device_heap st !! a) as [d|]; split.
  - intros [= <-]. eauto.
  - by intros (s' & [= <-] & ->).
  - discriminate.
  - intros (s' & H & _). discriminate.
Qed.

Lemma ChipyAnalogModule_init_eq name st :
  ChipyAnalogModule_init name st =
  if PyDict.contains name (ChipyModulesDict st) then Raise AssertionError st
  else
    Ok (length (module_heap st))
       (mkState
          (PyDict.set name (AnalogModule (length (module_heap st)))
             (ChipyModulesDict st))
          (ChipyCurrentContext st) (SigId st) (IdCount st)
          (module_heap st ++ [mkModule name PyDict.empty PyDict.empty])
          (signal_heap st) (device_heap st)).
Proof.
  unfold ChipyAnalogModule_init. M_eval.
  by destruct (PyDict.contains name (ChipyModulesDict st)).
Qed.

Lemma ChipyAnalogSignal_init_eq module name st :
  ChipyAnalogSignal_init module name st =
  match module_heap st !! module with
  | Some m =>
      Ok (length (signal_heap st))
         (mkState (ChipyModulesDict st) (ChipyCurrentContext st) (SigId st + 1)
            (IdCount st)
            (<[module := set_signals (PyDict.set name (length (signal_heap st))) m]>
               (module_heap st))
            (signal_heap st ++ [new_signal (SigId st + 1) name module])
            (device_heap st))
  | None => Raise NoSuchObject st
  end.
Proof.
  unfold ChipyAnalogSignal_init. M_eval.
  by destruct (module_heap st !! module).
Qed.

Lemma ChipyDevice_init_eq cls module name st :
  ChipyDevice_init cls module name st =
  let '(n, st1) := named cls name st in
  match module_heap st !! module with
  | Some m =>
      if PyDict.contains n (devices m) then Raise AssertionError st1
      else
        Ok (length (device_heap st))
           (mkState (ChipyModulesDict st1) (ChipyCurrentContext st1)
              (SigId st1) (IdCount st1)
              (<[module := set_devices (PyDict.set n (length (device_heap st))) m]>
                 (module_heap st))
              (signal_heap st)
              (device_heap st ++ [new_device cls n module]))
  | None => Raise NoSuchObject st1
  end.
Proof.
  unfold ChipyDevice_init, auto_name.
  destruct name as [n|]; simpl; M_eval; simpl;
    (destruct (module_heap st !! module) as [m|] eqn:Hm; [|done]);
    destruct (PyDict.contains _ (devices m)); simpl; [done| |done|];
    M_eval; simpl; by rewrite Hm.
Qed.

(** ** [AnalogSig] as an equation *)

Lemma check_width_eq s width st :
  check_width s width st =
  if width_ok s width then Ok tt st else Raise AssertionError st.
Proof.
  destruct width as [w|]; simpl; [|done].
  unfold assert. by destruct (sig_width s =? w).
Qed.

Lemma AnalogSig_signal_eq a width st :
  AnalogSig (ArgSignal a) width st =
  match signal_heap st !! a with
  | Some s =>
      if width_ok s width then Ok (SigRef a) st else Raise AssertionError st
  | None => Raise NoSuchObject st
  end.
Proof.
  simpl. M_eval. destruct (signal_heap st !! a) as [s|]; [|done].
  rewrite check_width_eq. by destruct (width_ok s width).
Qed.

Lemma AnalogSig_seq_eq elems width st :
  AnalogSig (ArgSeq elems) width st =
  match width with
  | Some _ => Raise AssertionError st
  | None => Raise (Outside "chipy.Concat") st
  end.
Proof. by destruct width. Qed.

Lemma AnalogSig_str_eq name width st :
  AnalogSig (ArgStr name) width st =
  match ChipyCurrentContext st with
  | None => Raise AttributeError st
  | Some module =>
      match module_heap st !! module with
      | None => Raise NoSuchObject st
      | Some m =>
          match PyDict.get name (signals m) with
          | Some a =>
              match signal_heap st !! a with
              | Some s =>
                  if width_ok s width then Ok (SigRef a) st
                  else Raise AssertionError st
              | None => Raise NoSuchObject st
              end
          | None =>
              Ok (SigRef (length (signal_heap st)))
                 (mkState (ChipyModulesDict st) (ChipyCurrentContext st)
                    (SigId st + 1) (IdCount st)
                    (<[module := set_signals
                                   (PyDict.set name (length (signal_heap st))) m]>
                       (module_heap st))
                    (signal_heap st ++
                       [created_signal (SigId st + 1) name module width])
                    (device_heap st))
          end
      end
  end.
Proof.
  simpl. M_eval. destruct (ChipyCurrentContext st) as [module|] eqn:Hc; [|done].
  destruct (module_heap st !! module) as [m|] eqn:Hm; [|done].
  destruct (PyDict.get name (signals m)) as [a|].
  - M_eval. destruct (signal_heap st !! a) as [s|]; [|done].
    rewrite check_width_eq. by destruct (width_ok s width).
  - rewrite ChipyAnalogSignal_init_eq, Hm, Hc.
    destruct width as [w|]; simpl; [|done].
    rewrite list_lookup_middle by done. simpl. unfold with_signals. simpl.
    f_equal. f_equal.
    rewrite insert_app_r_alt by done.
    by rewrite Nat.sub_diag.
Qed.

(** ** C8: [AnalogSig] twice *)

(** C8: [AnalogSig] on an existing signal object returns that object and
    leaves the state alone, provided a supplied width equals the width of the
    signal (it raises [AssertionError] otherwise); and once [AnalogSig] on a
    name has returned, the same call returns the same signal again, without
    creating anything. *)
Theorem AnalogSig_idempotent :
  (forall a s width st,
      signal_heap st !! a = Some s ->
      AnalogSig (ArgSignal a) width st =
      if width_ok s width then Ok (SigRef a) st else Raise AssertionError st) /\
  (forall name width st r st1,
      AnalogSig (ArgStr name) width st = Ok r st1 ->
      ChipyCurrentContext st1 = ChipyCurrentContext st /\
      AnalogSig (ArgStr name) width st1 = Ok r st1).
Proof.
  split.
  - intros a s width st Hs. by rewrite AnalogSig_signal_eq, Hs.
  - intros name width st r st1. rewrite !AnalogSig_str_eq.
    destruct (ChipyCurrentContext st) as [module|] eqn:Hc; [|done].
    destruct (module_heap st !! module) as [m|] eqn:Hm; [|done].
    destruct (PyDict.get name (signals m)) as [a|] eqn:Hget.
    + destruct (signal_heap st !! a) as [s|] eqn:Hs; [|done].
      destruct (width_ok s width) eqn:Hw; [|done].
      intros [= <- <-]. by rewrite Hc, Hm, Hget, Hs, Hw.
    + intros [= <- <-]. simpl. split; [done|].
      rewrite list_lookup_insert_eq by (by eapply lookup_lt_Some).
      simpl. rewrite dict_get_set_eq.
      rewrite list_lookup_middle by done.
      assert (width_ok (created_signal (SigId st + 1) name module width) width
              = true) as ->; [|done].
      destruct width as [w|]; simpl; [apply Z.eqb_refl | done].
Qed.

Lemma AnalogSig_idempotent_witness :
  ChipyCurrentContext
    (state_of (AnalogSig (ArgStr "out") None one_module_state))
  = ChipyCurrentContext one_module_state /\
  AnalogSig (ArgStr "out") None
    (state_of (AnalogSig (ArgStr "out") None one_module_state))
  = Ok (SigRef 0)
       (state_of (AnalogSig (ArgStr "out") None one_module_state)).
Proof.
  apply (proj2 AnalogSig_idempotent "out" None one_module_state).
  reflexivity.
Defined.

(** ** Preservation of the invariant by the state changes *)

Lemma dict_In_set {V} (k k' : string) (v v' : V) d :
  In (k', v') (PyDict.set k v d) -> (k' = k /\ v' = v) \/ In (k', v') d.
Proof.
  induction d as [|[k0 v0] d IH]; simpl.
  - intros [[= <- <-]|[]]. by left.
  - destruct (String.eqb k k0) eqn:E; simpl.
    + apply String.eqb_eq in E. subst k0. intros [[= <- <-]|H]; auto.
    + intros [H|H]; auto. destruct (IH H); auto.
Qed.

Lemma valid_ref_kept st st' x :
  signals_kept st st' -> valid_ref st x -> valid_ref st' x.
Proof.
  intros Hk. destruct x as [[a]|]; simpl; try done.
  intros [s Hs]%lookup_lt_is_Some. destruct (Hk _ _ Hs) as (s' & Hs' & _).
  by eapply lookup_lt_Some.
Qed.

Lemma device_valid_kept st st' d :
  signals_kept st st' -> device_valid st d -> device_valid st' d.
Proof.
  unfold device_valid. intros Hk H. intuition eauto using valid_ref_kept.
Qed.

Lemma module_ok_kept p st st' b m :
  signals_kept st st' -> devices_kept p st st' ->
  module_ok p st b m -> module_ok p st' b m.
Proof.
  intros Hs Hd (Hn1 & Hn2 & Hsig & Hdev). repeat split; try done.
  - intros k a Hin. destruct (Hsig _ _ Hin) as (s & H1 & H2 & H3).
    destruct (Hs _ _ H1) as (s' & H1' & _ & H2' & H3').
    exists s'. split; [done|]. split; congruence.
  - intros k a Hin. destruct (Hdev _ _ Hin) as (d & H1 & H2 & H3 & H4).
    destruct (Hd _ _ H1) as (d' & H1' & H2' & H3' & H4').
    exists d'. split; [done|]. split; [congruence|]. split; [congruence|].
    destruct H4 as [?|?]; [by left|]. destruct H4' as [?|?]; [by left|]. right. auto.
Qed.

Lemma devices_kept_eq p st st' :
  device_heap st' = device_heap st -> devices_kept p st st'.
Proof. intros E a d H. exists d. rewrite E. auto. Qed.

Lemma inv_update_signal p st a s f :
  inv p st -> signal_heap st !! a = Some s ->
  sig_id (f s) = sig_id s -> sig_name (f s) = sig_name s ->
  sig_module (f s) = sig_module s ->
  inv p (with_signals (<[a := f s]>) st).
Proof.
  intros [HSig Hids Hctx Hkeys Hdict Hdevs Hmods] Ha Hid Hname Hmod.
  assert (signals_kept st (with_signals (<[a := f s]>) st)) as Hk.
  { intros a' s' Hs'. simpl. destruct (decide (a = a')) as [<-|Hne].
    - exists (f s). rewrite list_lookup_insert_eq by (by eapply lookup_lt_Some).
      split; [done|]. assert (s' = s) as -> by congruence. done.
    - exists s'. by rewrite list_lookup_insert_ne. }
  assert (devices_kept p st (with_signals (<[a := f s]>) st)) as Hd
    by (by apply devices_kept_eq).
  constructor; simpl; try done.
  - by rewrite length_insert.
  - intros i s' [(<- & <- & _)|(_ & H)]%list_lookup_insert_Some; [|eauto].
    rewrite Hid. eauto.
  - intros a' d H. eapply device_valid_kept; eauto.
  - intros b m H. eapply module_ok_kept; eauto.
Qed.

Lemma signals_kept_eq st st' :
  signal_heap st' = signal_heap st -> signals_kept st st'.
Proof. intros E a s H. exists s. rewrite E. auto. Qed.

Lemma signals_kept_app st st' l :
  signal_heap st' = signal_heap st ++ l -> signals_kept st st'.
Proof.
  intros E a s H. exists s. rewrite E. split; [|done].
  by apply lookup_app_l_Some.
Qed.

Lemma devices_kept_app p st st' l :
  device_heap st' = device_heap st ++ l -> devices_kept p st st'.
Proof.
  intros E a d H. exists d. rewrite E. split; [|auto].
  by apply lookup_app_l_Some.
Qed.

Lemma module_ok_pending x st b m :
  module_ok None st b m -> module_ok (Some x) st b m.
Proof.
  intros (Hn1 & Hn2 & Hsig & Hdev). repeat split; try done.
  intros k a Hin. destruct (Hdev _ _ Hin) as (d & H1 & H2 & H3 & [H4|H4]);
    [done|]. exists d. auto.
Qed.

Lemma inv_pending x st : inv None st -> inv (Some x) st.
Proof.
  intros [HSig Hids Hctx Hkeys Hdict Hdevs Hmods]. constructor; try done.
  intros b m H. apply module_ok_pending. auto.
Qed.

Lemma inv_add_signal p st s module m :
  inv p st -> module_heap st !! module = Some m ->
  sig_id s = SigId st + 1 -> sig_module s = module ->
  inv p (add_signal s module m st).
Proof.
  intros [HSig Hids Hctx Hkeys Hdict Hdevs Hmods] Hm Hid Hmod.
  assert (signals_kept st (add_signal s module m st)) as Hk
    by (by eapply signals_kept_app).
  assert (devices_kept p st (add_signal s module m st)) as Hd
    by (by apply devices_kept_eq).
  constructor; simpl.
  - rewrite length_app. simpl. lia.
  - intros i s' [[_ H]|[-> <-]]%lookup_snoc_Some; [eauto|].
    rewrite Hid. lia.
  - intros a H. rewrite length_insert. auto.
  - done.
  - intros k a Hin. destruct (Hdict _ _ Hin) as (m' & Hm' & Hn).
    destruct (decide (module = a)) as [->|Hne].
    + rewrite list_lookup_insert_eq by (by eapply lookup_lt_Some).
      eexists. split; [done|]. simpl. congruence.
    + rewrite list_lookup_insert_ne by done. eauto.
  - intros a d H. eapply device_valid_kept; eauto.
  - intros b m' [(<- & <- & _)|(_ & H)]%list_lookup_insert_Some.
    + pose proof (module_ok_kept _ _ _ _ _ Hk Hd (Hmods _ _ Hm))
        as (Hn1 & Hn2 & Hsig & Hdev).
      repeat split; simpl; try done.
      * by apply dict_keys_set_NoDup.
      * intros k a [[-> ->]|Hin]%dict_In_set; [|eauto].
        exists s. by rewrite list_lookup_middle.
    + eapply module_ok_kept; eauto.
Qed.

Lemma inv_add_device st d module m :
  inv None st -> module_heap st !! module = Some m ->
  dev_module d = module -> device_valid st d ->
  inv (Some (length (device_heap st))) (add_device d module m st).
Proof.
  intros Hinv Hm Hmod Hval.
  apply (inv_pending (length (device_heap st))) in Hinv.
  destruct Hinv as [HSig Hids Hctx Hkeys Hdict Hdevs Hmods].
  set (self := length (device_heap st)) in *.
  assert (signals_kept st (add_device d module m st)) as Hk
    by (by apply signals_kept_eq).
  assert (devices_kept (Some self) st (add_device d module m st)) as Hd
    by (by eapply devices_kept_app).
  constructor; simpl; try done.
  - intros a H. rewrite length_insert. auto.
  - intros k a Hin. destruct (Hdict _ _ Hin) as (m' & Hm' & Hn).
    destruct (decide (module = a)) as [->|Hne].
    + rewrite list_lookup_insert_eq by (by eapply lookup_lt_Some).
      eexists. split; [done|]. simpl. congruence.
    + rewrite list_lookup_insert_ne by done. eauto.
  - intros a d' [[_ H]|[-> <-]]%lookup_snoc_Some; [eauto|done].
  - intros b m' [(<- & <- & _)|(_ & H)]%list_lookup_insert_Some.
    + pose proof (module_ok_kept _ _ _ _ _ Hk Hd (Hmods _ _ Hm))
        as (Hn1 & Hn2 & Hsig & Hdev).
      repeat split; simpl; try done.
      * by apply dict_keys_set_NoDup.
      * intros k a [[-> ->]|Hin]%dict_In_set; [|eauto].
        exists d. rewrite list_lookup_middle by done. auto.
    + eapply module_ok_kept; eauto.
Qed.

Lemma inv_update_device self st d f :
  inv (Some self) st -> device_heap st !! self = Some d ->
  dev_name (f d) = dev_name d -> dev_module (f d) = dev_module d ->
  device_valid st (f d) ->
  inv (Some self) (with_devices (<[self := f d]>) st).
Proof.
  intros [HSig Hids Hctx Hkeys Hdict Hdevs Hmods] Ha Hname Hmod Hval.
  assert (signals_kept st (with_devices (<[self := f d]>) st)) as Hk
    by (by apply signals_kept_eq).
  assert (devices_kept (Some self) st (with_devices (<[self := f d]>) st)) as Hd.
  { intros a' d' Hd'. simpl. destruct (decide (self = a')) as [<-|Hne].
    - exists (f d). rewrite list_lookup_insert_eq by (by eapply lookup_lt_Some).
      assert (d' = d) as -> by congruence. auto.
    - exists d'. rewrite list_lookup_insert_ne by done. auto. }
  constructor; simpl; try done.
  - intros i d' [(<- & <- & _)|(_ & H)]%list_lookup_insert_Some; [done|eauto].
  - intros b m H. eapply module_ok_kept; eauto.
Qed.

Lemma inv_finished self st :
  inv (Some self) st ->
  (forall d, device_heap st !! self = Some d -> device_complete d) ->
  inv None st.
Proof.
  intros [HSig Hids Hctx Hkeys Hdict Hdevs Hmods] Hc. constructor; try done.
  intros b m Hm. destruct (Hmods _ _ Hm) as (Hn1 & Hn2 & Hsig & Hdev).
  repeat split; try done.
  intros k a Hin. destruct (Hdev _ _ Hin) as (d & H1 & H2 & H3 & H4).
  exists d. repeat split; try done. right.
  destruct H4 as [[= ->]|H4]; auto.
Qed.

(** ** Every call preserves the invariant *)

Lemma created_signal_name id name module width :
  sig_name (created_signal id name module width) = name.
Proof. by destruct width. Qed.

Lemma created_signal_id id name module width :
  sig_id (created_signal id name module width) = id.
Proof. by destruct width. Qed.

Lemma created_signal_module id name module width :
  sig_module (created_signal id name module width) = module.
Proof. by destruct width. Qed.

Lemma AnalogSig_Ok arg width st r st' :
  AnalogSig arg width st = Ok r st' ->
  (st' = st /\ exists a, r = SigRef a /\ is_Some (signal_heap st !! a)) \/
  (exists name module m,
     ChipyCurrentContext st = Some module /\
     module_heap st !! module = Some m /\
     r = SigRef (length (signal_heap st)) /\
     st' = add_signal (created_signal (SigId st + 1) name module width)
             module m st).
Proof.
  destruct arg as [a|l|name|].
  - rewrite AnalogSig_signal_eq. destruct (signal_heap st !! a) as [s|] eqn:Hs; [|done].
    destruct (width_ok s width); [|done]. intros [= <- <-]. left. split; [done|].
    exists a. by rewrite Hs.
  - rewrite AnalogSig_seq_eq. by destruct width.
  - rewrite AnalogSig_str_eq.
    destruct (ChipyCurrentContext st) as [module|] eqn:Hc; [|done].
    destruct (module_heap st !! module) as [m|] eqn:Hm; [|done].
    destruct (PyDict.get name (signals m)) as [a|] eqn:Hget.
    + destruct (signal_heap st !! a) as [s|] eqn:Hs; [|done].
      destruct (width_ok s width); [|done]. intros [= <- <-]. left.
      split; [done|]. exists a. by rewrite Hs.
    + intros [= <- <-]. right. exists name, module, m.
      repeat split; try done.
      unfold add_signal. by rewrite created_signal_name, Hc.
  - done.
Qed.

Lemma AnalogSig_inv p arg width st r st' :
  inv p st -> AnalogSig arg width st = Ok r st' ->
  inv p st' /\ device_heap st' = device_heap st /\
  (is_Some width -> valid_ref st' (Some r)).
Proof.
  intros Hinv [[-> H]|(name & module & m & Hc & Hm & -> & ->)]%AnalogSig_Ok.
  - split; [done|]. split; [done|]. intros _.
    destruct H as (a & -> & Ha).
    simpl. by apply lookup_lt_is_Some.
  - split; [|split; [done|]].
    + apply inv_add_signal; try done.
      * apply created_signal_id.
      * apply created_signal_module.
    + intros _. simpl. rewrite length_app. simpl. lia.
Qed.

Lemma inv_with_IdCount p cls n st : inv p st -> inv p (with_IdCount cls n st).
Proof. intros [HSig Hids Hctx Hkeys Hdict Hdevs Hmods]. by constructor. Qed.

Lemma inv_with_Context p ctx st :
  inv p st ->
  (forall a, ctx = Some a -> (a < length (module_heap st))%nat) ->
  inv p (with_Context ctx st).
Proof. intros [HSig Hids Hctx Hkeys Hdict Hdevs Hmods] H. by constructor. Qed.

Lemma inv_named p cls name st : inv p st -> inv p (named cls name st).2.
Proof. destruct name; simpl; auto using inv_with_IdCount. Qed.

Lemma ChipyDevice_init_Ok cls module name st self st' :
  ChipyDevice_init cls module name st = Ok self st' ->
  exists m,
    module_heap st !! module = Some m /\
    PyDict.get (named cls name st).1 (devices m) = None /\
    self = length (device_heap st) /\
    st' = add_device (new_device cls (named cls name st).1 module) module m
            (named cls name st).2.
Proof.
  rewrite ChipyDevice_init_eq. destruct (named cls name st) as [n st1] eqn:En.
  destruct (module_heap st !! module) as [m|] eqn:Hm; [|done].
  destruct (PyDict.contains n (devices m)) eqn:Hn; [done|].
  intros [= <- <-]. exists m. apply dict_contains_false in Hn.
  repeat split; try done.
  destruct name; simpl in En; injection En as <- <-; done.
Qed.

Lemma ChipyDevice_init_inv cls module name st self st' :
  inv None st -> ChipyDevice_init cls module name st = Ok self st' ->
  inv (Some self) st' /\
  exists n, device_heap st' !! self = Some (new_device cls n module).
Proof.
  intros Hinv (m & Hm & Hn & -> & ->)%ChipyDevice_init_Ok.
  assert (device_heap (named cls name st).2 = device_heap st) as Ed
    by (by destruct name).
  assert (module_heap (named cls name st).2 = module_heap st) as Em
    by (by destruct name).
  split.
  - rewrite <-Ed. apply inv_add_device; try done.
    + by apply inv_named.
    + by rewrite Em.
  - eexists. simpl. rewrite Ed. by rewrite list_lookup_middle.
Qed.

(** One step of a device constructor: [self.x = AnalogSig(arg, 1)]. *)
Lemma set_field_inv (f : sigval -> ChipyDevice -> ChipyDevice)
    self arg w st d r st1 u st2 :
  (forall x d, dev_name (f x d) = dev_name d) ->
  (forall x d, dev_module (f x d) = dev_module d) ->
  (forall st x d, valid_ref st (Some x) -> device_valid st d ->
                  device_valid st (f x d)) ->
  inv (Some self) st -> device_heap st !! self = Some d ->
  AnalogSig arg (Some w) st = Ok r st1 ->
  update_device self (f r) st1 = Ok u st2 ->
  inv (Some self) st2 /\ device_heap st2 !! self = Some (f r d).
Proof.
  intros Hname Hmod Hval Hinv Hd Hsig Hupd.
  destruct (AnalogSig_inv _ _ _ _ _ _ Hinv Hsig) as (Hinv1 & Ed & Hr).
  apply update_device_Ok in Hupd as (d' & Hd' & ->).
  rewrite Ed, Hd in Hd'. injection Hd' as <-.
  split.
  - apply inv_update_device; auto.
    + by rewrite Ed.
    + apply Hval; [by apply Hr|]. apply (inv_devices _ _ Hinv1 self).
      by rewrite Ed.
  - simpl. rewrite list_lookup_insert_eq; [done|].
    rewrite Ed. by eapply lookup_lt_Some.
Qed.

(** A step that assigns an attribute which is not a signal. *)
Lemma set_attr_inv (f : ChipyDevice -> ChipyDevice) self st d u st1 :
  dev_name (f d) = dev_name d -> dev_module (f d) = dev_module d ->
  (forall st, device_valid st d -> device_valid st (f d)) ->
  inv (Some self) st -> device_heap st !! self = Some d ->
  update_device self f st = Ok u st1 ->
  inv (Some self) st1 /\ device_heap st1 !! self = Some (f d).
Proof.
  intros Hname Hmod Hval Hinv Hd Hupd.
  apply update_device_Ok in Hupd as (d' & Hd' & ->).
  rewrite Hd in Hd'. injection Hd' as <-. split.
  - apply inv_update_device; auto. apply Hval. by apply (inv_devices _ _ Hinv self).
  - simpl. rewrite list_lookup_insert_eq; [done|]. by eapply lookup_lt_Some.
Qed.

Ltac solve_valid :=
  intros; unfold device_valid in *; simpl; intuition.

Lemma ChipyPassive_init_inv p module name sig1 sig2 value st self st' :
  inv None st ->
  ChipyPassive_init p module name sig1 sig2 value st = Ok self st' ->
  inv None st'.
Proof.
  intros Hinv H. unfold ChipyPassive_init in H.
  apply M_bind_Ok in H as (self' & st1 & H1 & H).
  destruct (ChipyDevice_init_inv _ _ _ _ _ _ Hinv H1) as (Hinv1 & n & Hd1).
  apply M_bind_Ok in H as (s1 & st2 & Hs1 & H).
  apply M_bind_Ok in H as (u1 & st3 & Hu1 & H).
  destruct (set_field_inv set_sig1 _ _ _ _ _ _ _ _ _
              ltac:(done) ltac:(done) ltac:(solve_valid) Hinv1 Hd1 Hs1 Hu1)
    as (Hinv3 & Hd3).
  apply M_bind_Ok in H as (s2 & st4 & Hs2 & H).
  apply M_bind_Ok in H as (u2 & st5 & Hu2 & H).
  destruct (set_field_inv set_sig2 _ _ _ _ _ _ _ _ _
              ltac:(done) ltac:(done) ltac:(solve_valid) Hinv3 Hd3 Hs2 Hu2)
    as (Hinv5 & Hd5).
  apply M_bind_Ok in H as (u3 & st6 & Hu3 & H).
  destruct (set_attr_inv (set_value value) _ _ _ _ _
              ltac:(done) ltac:(done) ltac:(solve_valid) Hinv5 Hd5 Hu3)
    as (Hinv6 & Hd6).
  injection H as <- <-.
  apply (inv_finished self'); [done|].
  intros d Hd. rewrite Hd6 in Hd. injection Hd as <-.
  unfold device_complete. simpl. eauto.
Qed.

Lemma ChipyTransistor_init_inv module name c b e substrate model st self st' :
  inv None st ->
  ChipyTransistor_init module name c b e substrate model st = Ok self st' ->
  inv None st'.
Proof.
  intros Hinv H. unfold ChipyTransistor_init in H.
  apply M_bind_Ok in H as (self' & st1 & H1 & H).
  destruct (ChipyDevice_init_inv _ _ _ _ _ _ Hinv H1) as (Hinv1 & n & Hd1).
  apply M_bind_Ok in H as (s1 & st2 & Hs1 & H).
  apply M_bind_Ok in H as (u1 & st3 & Hu1 & H).
  destruct (set_field_inv set_c _ _ _ _ _ _ _ _ _
              ltac:(done) ltac:(done) ltac:(solve_valid) Hinv1 Hd1 Hs1 Hu1)
    as (Hinv3 & Hd3).
  apply M_bind_Ok in H as (s2 & st4 & Hs2 & H).
  apply M_bind_Ok in H as (u2 & st5 & Hu2 & H).
  destruct (set_field_inv set_b _ _ _ _ _ _ _ _ _
              ltac:(done) ltac:(done) ltac:(solve_valid) Hinv3 Hd3 Hs2 Hu2)
    as (Hinv5 & Hd5).
  apply M_bind_Ok in H as (s3 & st6 & Hs3 & H).
  apply M_bind_Ok in H as (u3 & st7 & Hu3 & H).
  destruct (set_field_inv set_e _ _ _ _ _ _ _ _ _
              ltac:(done) ltac:(done) ltac:(solve_valid) Hinv5 Hd5 Hs3 Hu3)
    as (Hinv7 & Hd7).
  apply M_bind_Ok in H as (s4 & st8 & Hs4 & H).
  apply M_bind_Ok in H as (u4 & st9 & Hu4 & H).
  destruct (set_field_inv set_substrate _ _ _ _ _ _ _ _ _
              ltac:(done) ltac:(done) ltac:(solve_valid) Hinv7 Hd7 Hs4 Hu4)
    as (Hinv9 & Hd9).
  apply M_bind_Ok in H as (u5 & st10 & Hu5 & H).
  destruct (set_attr_inv (set_model model) _ _ _ _ _
              ltac:(done) ltac:(done) ltac:(solve_valid) Hinv9 Hd9 Hu5)
    as (Hinv10 & Hd10).
  injection H as <- <-.
  apply (inv_finished self'); [done|].
  intros d Hd. rewrite Hd10 in Hd. injection Hd as <-.
  unfold device_complete. simpl. eauto 10.
Qed.

Lemma ChipyAnalogSignal_init_Ok module name st a st' :
  ChipyAnalogSignal_init module name st = Ok a st' ->
  exists m, module_heap st !! module = Some m /\
            a = length (signal_heap st) /\
            st' = add_signal (new_signal (SigId st + 1) name module) module m st.
Proof.
  rewrite ChipyAnalogSignal_init_eq.
  destruct (module_heap st !! module) as [m|]; [|done].
  intros [= <- <-]. by exists m.
Qed.

Lemma ChipyAnalogSignal_init_inv p module name st a st' :
  ChipyAnalogSignal_init module name st = Ok a st' -> inv p st -> inv p st'.
Proof.
  intros (m & Hm & -> & ->)%ChipyAnalogSignal_init_Ok Hinv.
  by apply inv_add_signal.
Qed.

Lemma update_signal_inv p a f st u st' :
  update_signal a f st = Ok u st' -> inv p st ->
  (forall s, sig_id (f s) = sig_id s) ->
  (forall s, sig_name (f s) = sig_name s) ->
  (forall s, sig_module (f s) = sig_module s) ->
  inv p st'.
Proof.
  intros (s & Hs & ->)%update_signal_Ok Hinv H1 H2 H3.
  by apply inv_update_signal.
Qed.

Lemma setattr_signal_inv p x f st u st' :
  setattr_signal x f st = Ok u st' -> inv p st ->
  (forall s, sig_id (f s) = sig_id s) ->
  (forall s, sig_name (f s) = sig_name s) ->
  (forall s, sig_module (f s) = sig_module s) ->
  inv p st'.
Proof.
  destruct x as [a]; simpl. apply update_signal_inv.
Qed.

(** Follow the invariant [Hinv] through the next statement of [H], an
    attribute assignment on a signal. *)
Ltac step_signal H Hinv :=
  let u := fresh "u" in let st := fresh "st" in let H1 := fresh "H" in
  apply M_bind_Ok in H as (u & st & H1 & H);
  first [ eapply update_signal_inv in H1; [|exact Hinv|done..]
        | eapply setattr_signal_inv in H1; [|exact Hinv|done..] ];
  clear Hinv; rename H1 into Hinv.

(** Skip the context lookups at the head of a module-level function. *)
Ltac step_context H :=
  let u := fresh "u" in let st := fresh "st" in let H1 := fresh "H" in
  apply M_bind_Ok in H as (u & st & H1 & H);
  first [ apply assert_context_Ok in H1 as [_ ->]
        | apply current_module_Ok in H1 as [_ ->]
        | apply assert_Ok in H1 as [_ ->]
        | apply read_Ok in H1 as [_ ->] ].

Lemma comprehension_inv {A B} (P : state -> Prop) (f : A -> M B) xs :
  (forall x st r st', P st -> f x st = Ok r st' -> P st') ->
  forall st rs st', P st -> comprehension f xs st = Ok rs st' -> P st'.
Proof.
  intros Hf. induction xs as [|x xs IH]; simpl; intros st rs st' HP H.
  - by injection H as <- <-.
  - apply M_bind_Ok in H as (y & st1 & H1 & H).
    apply M_bind_Ok in H as (ys & st2 & H2 & H).
    injection H as <- <-. eauto.
Qed.

Lemma AddDigitalInput_inv fuel : forall name type high_value low_value st r st',
  inv None st ->
  AddDigitalInput fuel name type high_value low_value st = Ok r st' ->
  inv None st'.
Proof.
  induction fuel as [|fuel IH]; intros name type hv lv st r st' Hinv H; [done|].
  simpl in H. destruct (1 <? length (split name))%nat.
  - apply M_bind_Ok in H as (l & st1 & H1 & H). injection H as <- <-.
    eapply (comprehension_inv (inv None)); [|exact Hinv|exact H1].
    intros x st0 r0 st0' H0 Hx. simpl in Hx. by eapply IH.
  - step_context H. destruct type; try done.
    step_context H. step_context H.
    apply M_bind_Ok in H as (signal & st1 & H1 & H).
    eapply ChipyAnalogSignal_init_inv in H1; [|exact Hinv].
    do 5 step_signal H H1.
    by injection H as <- <-.
Qed.

Lemma AddAnalogOutput_inv fuel : forall name type st r st',
  inv None st -> AddAnalogOutput fuel name type st = Ok r st' -> inv None st'.
Proof.
  induction fuel as [|fuel IH]; intros name type st r st' Hinv H; [done|].
  simpl in H. destruct (1 <? length (split name))%nat.
  - apply M_bind_Ok in H as (l & st1 & H1 & H). injection H as <- <-.
    eapply (comprehension_inv (inv None)); [|exact Hinv|exact H1].
    intros x st0 r0 st0' H0 Hx. simpl in Hx. by eapply IH.
  - step_context H. destruct type; try done.
    step_context H. step_context H.
    apply M_bind_Ok in H as (signal & st1 & H1 & H).
    eapply ChipyAnalogSignal_init_inv in H1; [|exact Hinv].
    do 2 step_signal H H1.
    by injection H as <- <-.
Qed.

Lemma ChipyAnalogModule_init_inv name st a st' :
  inv None st -> ChipyAnalogModule_init name st = Ok a st' -> inv None st'.
Proof.
  intros [HSig Hids Hctx Hkeys Hdict Hdevs Hmods].
  rewrite ChipyAnalogModule_init_eq.
  destruct (PyDict.contains name (ChipyModulesDict st)) eqn:Hn; [done|].
  intros [= <- <-]. constructor; simpl; try done.
  - intros a H. rewrite length_app. simpl. apply Hctx in H. lia.
  - by apply dict_keys_set_NoDup.
  - intros k a [[-> [= ->]]|Hin]%dict_In_set.
    + eexists. by rewrite list_lookup_middle.
    + destruct (Hdict _ _ Hin) as (m & Hm & <-). exists m.
      split; [|done]. by apply lookup_app_l_Some.
  - intros b m [[_ H]|[-> <-]]%lookup_snoc_Some; [eauto|].
    repeat split; simpl; try apply NoDup_nil_2; done.
Qed.

Lemma run_inv c st r st' : inv None st -> run c st = Ok r st' -> inv None st'.
Proof.
  intros Hinv H. destruct c; simpl in H.
  - apply M_bind_Ok in H as (a & st1 & H1 & H). injection H as <- <-.
    eauto using ChipyAnalogModule_init_inv.
  - apply M_bind_Ok in H as (a & st1 & H1 & H). injection H as <- <-.
    eauto using ChipyAnalogSignal_init_inv.
  - apply M_bind_Ok in H as (a & st1 & H1 & H). injection H as <- <-.
    eauto using ChipyPassive_init_inv.
  - apply M_bind_Ok in H as (a & st1 & H1 & H). injection H as <- <-.
    eauto using ChipyTransistor_init_inv.
  - apply M_bind_Ok in H as (a & st1 & H1 & H). injection H as <- <-.
    by eapply AnalogSig_inv.
  - unfold AddAnalogModule in H.
    apply M_bind_Ok in H as (a & st1 & H1 & H). injection H as <- <-.
    eauto using ChipyAnalogModule_init_inv.
  - eauto using AddDigitalInput_inv.
  - done.
  - done.
  - eauto using AddAnalogOutput_inv.
  - unfold AddPower in H. do 2 step_context H.
    apply M_bind_Ok in H as (vs & st1 & H1 & H).
    eapply ChipyPassive_init_inv in H1; [|exact Hinv].
    step_context H. do 2 step_signal H H1.
    by injection H as <- <-.
  - unfold AddGnd in H. do 2 step_context H.
    apply M_bind_Ok in H as (sig & st1 & H1 & H).
    eapply AnalogSig_inv in H1 as [H1 _]; [|exact Hinv].
    step_signal H H1.
    by injection H as <- <-.
  - unfold AddR in H. do 2 step_context H.
    apply M_bind_Ok in H as (vs & st1 & H1 & H). injection H as <- <-.
    eauto using ChipyPassive_init_inv.
  - unfold AddC in H. do 2 step_context H.
    apply M_bind_Ok in H as (vs & st1 & H1 & H). injection H as <- <-.
    eauto using ChipyPassive_init_inv.
  - unfold AddQ in H. do 2 step_context H.
    apply M_bind_Ok in H as (vs & st1 & H1 & H). injection H as <- <-.
    eauto using ChipyTransistor_init_inv.
Qed.

Lemma inv_init : inv None init_state.
Proof.
  constructor; simpl; try done.
  apply NoDup_nil_2.
Qed.

Lemma reachable_inv st : reachable st -> inv None st.
Proof.
  induction 1 as [|c st r st' _ IH Hrun|ctx st _ IH Hctx|name st _ IH Hname].
  - apply inv_init.
  - eauto using run_inv.
  - by apply inv_with_Context.
  - destruct IH as [HSig Hids Hctx Hkeys Hdict Hdevs Hmods].
    constructor; simpl; try done.
    + by apply dict_keys_set_NoDup.
    + intros k a [[_ [=]]|Hin]%dict_In_set. auto.
Qed.

(** ** Programs reach reachable states *)

Lemma exec_reachable es : forall st st',
  reachable st -> exec es st = Some st' -> reachable st'.
Proof.
  induction es as [|[c|ctx|name] es IH]; simpl; intros st st' Hr H.
  - by injection H as <-.
  - destruct (run c st) as [r st1|] eqn:Hrun; [|done].
    eauto using reachable_call.
  - destruct ctx as [a|].
    + destruct (a <? length (module_heap st))%nat eqn:Ha; [|done].
      apply IH in H; [done|]. apply reachable_context; [done|].
      intros a' [= <-]. by apply Nat.ltb_lt.
    + apply IH in H; [done|]. by apply reachable_context.
  - destruct (PyDict.contains name (ChipyModulesDict st)) eqn:Hn; [done|].
    apply IH in H; [done|]. apply reachable_digital; [done|].
    by apply dict_contains_false.
Qed.

Lemma amplifier_reachable : reachable amplifier_state.
Proof.
  apply (exec_reachable amplifier init_state); [apply reachable_init|].
  vm_compute. reflexivity.
Qed.

(** ** C9: the ids of the signals *)

Section Keeps.
Context (I : state -> Prop).

Lemma keeps_bind {A B} (m : M A) (f : A -> M B) :
  keeps I m -> (forall a, keeps I (f a)) -> keeps I (m ≫= f).
Proof.
  intros Hm Hf st Hst. specialize (Hm st Hst).
  unfold mbind, M_bind. destruct (m st) as [a st1|e st1]; simpl in *; [|done].
  by apply Hf.
Qed.

Lemma keeps_ret {A} (a : A) : keeps I (mret a).
Proof. by intros st Hst. Qed.

Lemma keeps_raise {A} e : keeps I (@raise A e).
Proof. by intros st Hst. Qed.

Lemma keeps_read {A} (r : R A) : keeps I (read r).
Proof. intros st Hst. unfold read. by destruct (r st). Qed.

Lemma keeps_assert b : keeps I (assert b).
Proof. intros st Hst. by destruct b. Qed.

Lemma keeps_assert_context : keeps I assert_context.
Proof.
  intros st Hst. unfold assert_context. M_eval.
  by destruct (ChipyCurrentContext st).
Qed.

Lemma keeps_current_module : keeps I current_module.
Proof.
  intros st Hst. unfold current_module. by destruct (ChipyCurrentContext st).
Qed.

Lemma keeps_comprehension {A B} (f : A -> M B) xs :
  (forall x, keeps I (f x)) -> keeps I (comprehension f xs).
Proof.
  intros Hf. induction xs as [|x xs IH]; simpl; [apply keeps_ret|].
  apply keeps_bind; [done|]. intros y.
  apply keeps_bind; [done|]. intros ys. apply keeps_ret.
Qed.

End Keeps.

Lemma ids_ok_add_signal s module m st :
  ids_ok st -> sig_id s = SigId st + 1 -> ids_ok (add_signal s module m st).
Proof.
  intros [H1 H2] Hid. split; simpl.
  - rewrite length_app. simpl. lia.
  - intros i s' [[_ H]|[-> <-]]%lookup_snoc_Some; [eauto|]. rewrite Hid. lia.
Qed.

Lemma keeps_ids_update_signal a f :
  (forall s, sig_id (f s) = sig_id s) -> keeps ids_ok (update_signal a f).
Proof.
  intros Hf st [H1 H2]. rewrite update_signal_eq.
  destruct (signal_heap st !! a) as [s|] eqn:Hs; [|done]. split; simpl.
  - by rewrite length_insert.
  - intros i s' [(<- & <- & _)|(_ & H)]%list_lookup_insert_Some; [|eauto].
    rewrite Hf. eauto.
Qed.

Lemma keeps_ids_setattr_signal x f :
  (forall s, sig_id (f s) = sig_id s) -> keeps ids_ok (setattr_signal x f).
Proof.
  destruct x; simpl. apply keeps_ids_update_signal.
Qed.

Lemma keeps_ids_update_device a f : keeps ids_ok (update_device a f).
Proof.
  intros st H. rewrite update_device_eq. by destruct (device_heap st !! a).
Qed.

Lemma keeps_ids_ChipyAnalogModule_init name :
  keeps ids_ok (ChipyAnalogModule_init name).
Proof.
  intros st H. rewrite ChipyAnalogModule_init_eq.
  by destruct (PyDict.contains name (ChipyModulesDict st)).
Qed.

Lemma keeps_ids_ChipyAnalogSignal_init module name :
  keeps ids_ok (ChipyAnalogSignal_init module name).
Proof.
  intros st H. rewrite ChipyAnalogSignal_init_eq.
  destruct (module_heap st !! module) as [m|]; [|done].
  by apply (ids_ok_add_signal (new_signal (SigId st + 1) name module) module m).
Qed.

Lemma keeps_ids_ChipyDevice_init cls module name :
  keeps ids_ok (ChipyDevice_init cls module name).
Proof.
  intros st H. rewrite ChipyDevice_init_eq.
  destruct name as [n|]; simpl;
    (destruct (module_heap st !! module) as [m|]; [|done]);
    by destruct (PyDict.contains _ (devices m)).
Qed.

Lemma keeps_ids_AnalogSig arg width : keeps ids_ok (AnalogSig arg width).
Proof.
  intros st H. destruct arg as [a|l|name|].
  - rewrite AnalogSig_signal_eq. destruct (signal_heap st !! a) as [s|]; [|done].
    by destruct (width_ok s width).
  - rewrite AnalogSig_seq_eq. by destruct width.
  - rewrite AnalogSig_str_eq.
    destruct (ChipyCurrentContext st) as [module|] eqn:Hc; [|done].
    destruct (module_heap st !! module) as [m|]; [|done].
    destruct (PyDict.get name (signals m)) as [a|].
    + destruct (signal_heap st !! a) as [s|]; [|done].
      by destruct (width_ok s width).
    + destruct H as [H1 H2]. split; simpl.
      * rewrite length_app. simpl. lia.
      * intros i s' [[_ H]|[-> <-]]%lookup_snoc_Some; [eauto|].
        rewrite created_signal_id. lia.
  - done.
Qed.

(** Decompose a computation into steps that keep [ids_ok]. *)
Ltac keeps_ids :=
  repeat first
    [ apply keeps_ret | apply keeps_raise | apply keeps_read
    | apply keeps_assert | apply keeps_assert_context
    | apply keeps_current_module
    | apply keeps_ids_AnalogSig | apply keeps_ids_update_device
    | apply keeps_ids_ChipyDevice_init | apply keeps_ids_ChipyAnalogSignal_init
    | apply keeps_ids_ChipyAnalogModule_init
    | apply keeps_ids_update_signal; done
    | apply keeps_ids_setattr_signal; done
    | apply keeps_bind; [|intros ?] ].

Lemma keeps_ids_ChipyPassive_init p module name sig1 sig2 value :
  keeps ids_ok (ChipyPassive_init p module name sig1 sig2 value).
Proof. unfold ChipyPassive_init. keeps_ids. Qed.

Lemma keeps_ids_ChipyTransistor_init module name c b e substrate model :
  keeps ids_ok (ChipyTransistor_init module name c b e substrate model).
Proof. unfold ChipyTransistor_init. keeps_ids. Qed.

Lemma keeps_ids_AddDigitalInput fuel : forall name type high_value low_value,
  keeps ids_ok (AddDigitalInput fuel name type high_value low_value).
Proof.
  induction fuel as [|fuel IH]; intros name type hv lv; simpl; [keeps_ids|].
  destruct (1 <? length (split name))%nat.
  - apply keeps_bind; [|intros; keeps_ids]. by apply keeps_comprehension.
  - apply keeps_bind; [keeps_ids|intros _]. destruct type; keeps_ids.
Qed.

Lemma keeps_ids_AddAnalogOutput fuel : forall name type,
  keeps ids_ok (AddAnalogOutput fuel name type).
Proof.
  induction fuel as [|fuel IH]; intros name type; simpl; [keeps_ids|].
  destruct (1 <? length (split name))%nat.
  - apply keeps_bind; [|intros; keeps_ids]. by apply keeps_comprehension.
  - apply keeps_bind; [keeps_ids|intros _]. destruct type; keeps_ids.
Qed.

Lemma keeps_ids_run c : keeps ids_ok (run c).
Proof.
  destruct c; simpl;
    try apply keeps_ids_AddDigitalInput; try apply keeps_ids_AddAnalogOutput;
    unfold AddAnalogModule, AddDigitalOutput, AddAnalogInput, AddPower, AddGnd,
      AddR, AddC, AddQ;
    repeat first
      [ apply keeps_ids_ChipyPassive_init
      | apply keeps_ids_ChipyTransistor_init
      | progress keeps_ids ].
Qed.

Lemma process_state_ids st : process_state st -> ids_ok st.
Proof.
  induction 1 as [|c st _ IH|ctx st _ IH _|name st _ IH _].
  - split; [done|]. intros i s H. done.
  - by apply keeps_ids_run.
  - done.
  - done.
Qed.

Lemma reachable_process_state st : reachable st -> process_state st.
Proof.
  induction 1 as [|c st r st' _ IH Hrun|ctx st _ IH Hctx|name st _ IH Hname].
  - apply process_init.
  - change st' with (state_of (Ok r st')). rewrite <-Hrun.
    by apply process_call.
  - by apply process_context.
  - by apply process_digital.
Qed.

(** C9: every construction of a signal increments [SigId] by one and gives the
    new value to the signal as its id; so, in every state of a process,
    whether its calls returned or raised, the ids of the signals of all
    modules are positive and strictly increasing in construction order (the
    order of the signal heap), hence pairwise distinct. *)
Theorem signal_ids st :
  process_state st ->
  (forall module name a st',
      ChipyAnalogSignal_init module name st = Ok a st' ->
      SigId st' = SigId st + 1 /\
      exists s, signal_heap st' !! a = Some s /\ sig_id s = SigId st') /\
  (forall i s, signal_heap st !! i = Some s -> 0 < sig_id s) /\
  (forall i j si sj,
      signal_heap st !! i = Some si -> signal_heap st !! j = Some sj ->
      (i < j)%nat -> sig_id si < sig_id sj) /\
  (forall i j si sj,
      signal_heap st !! i = Some si -> signal_heap st !! j = Some sj ->
      i <> j -> sig_id si <> sig_id sj).
Proof.
  intros [_ Hids]%process_state_ids. repeat split.
  - by apply ChipyAnalogSignal_init_Ok in H as (m & _ & _ & ->).
  - apply ChipyAnalogSignal_init_Ok in H as (m & _ & -> & ->).
    eexists. simpl. by rewrite list_lookup_middle.
  - intros i s Hs. rewrite (Hids _ _ Hs). lia.
  - intros i j si sj Hi Hj Hlt. rewrite (Hids _ _ Hi), (Hids _ _ Hj). lia.
  - intros i j si sj Hi Hj Hne. rewrite (Hids _ _ Hi), (Hids _ _ Hj). lia.
Qed.

Lemma signal_ids_witness :
  map sig_id (signal_heap amplifier_state) = [1; 2; 3; 4; 5; 6] /\
  forall i j si sj,
    signal_heap amplifier_state !! i = Some si ->
    signal_heap amplifier_state !! j = Some sj ->
    i <> j -> sig_id si <> sig_id sj.
Proof.
  split; [vm_compute; reflexivity|].
  apply (signal_ids amplifier_state).
  apply reachable_process_state.
  apply (exec_reachable amplifier init_state); [apply reachable_init|].
  vm_compute. reflexivity.
Defined.

(** ** C7: registration only adds *)

Lemma registry_frame_refl n st : registry_frame n st st.
Proof. split; eauto. Qed.

Lemma registry_frame_trans n st1 st2 st3 :
  registry_frame n st1 st2 -> registry_frame n st2 st3 ->
  registry_frame n st1 st3.
Proof.
  intros [H1 H2] [H3 H4]. split.
  - intros r Hr. rewrite H3, H1; auto.
  - intros b m Hm. destruct (H2 _ _ Hm) as (m' & Hm' & E).
    destruct (H4 _ _ Hm') as (m'' & Hm'' & E'). exists m''. split; [done|].
    congruence.
Qed.

Lemma AnalogSig_frame n arg width st r st' :
  AnalogSig arg width st = Ok r st' -> registry_frame n st st'.
Proof.
  intros [[-> _]|(name & module & m & Hc & Hm & -> & ->)]%AnalogSig_Ok.
  - apply registry_frame_refl.
  - split; [done|]. intros b m' Hm'. simpl.
    destruct (decide (module = b)) as [<-|Hne].
    + rewrite list_lookup_insert_eq by (by eapply lookup_lt_Some).
      eexists. split; [done|]. simpl. congruence.
    + rewrite list_lookup_insert_ne by done. eauto.
Qed.

Lemma update_device_frame n self f st u st' :
  update_device self f st = Ok u st' -> (n <= self)%nat ->
  registry_frame n st st'.
Proof.
  intros (d & Hd & ->)%update_device_Ok Hn. split; simpl; [|eauto].
  intros r Hr. apply list_lookup_insert_ne. lia.
Qed.

Lemma ChipyDevice_init_registered cls module name st self st' :
  ChipyDevice_init cls module name st = Ok self st' ->
  self = length (device_heap st) /\ device_registered module self st st'.
Proof.
  intros (m & Hm & Hn & -> & ->)%ChipyDevice_init_Ok. split; [done|].
  assert (device_heap (named cls name st).2 = device_heap st) as Ed
    by (by destruct name).
  assert (module_heap (named cls name st).2 = module_heap st) as Em
    by (by destruct name).
  exists m. eexists. exists (named cls name st).1. simpl.
  rewrite Em, Ed. repeat split; try done.
  - apply list_lookup_insert_eq. by eapply lookup_lt_Some.
  - simpl. by rewrite dict_set_fresh.
  - intros r d Hd. by apply lookup_app_l_Some.
Qed.

Lemma device_registered_frame module self st st1 st' :
  device_registered module self st st1 -> self = length (device_heap st) ->
  registry_frame self st1 st' ->
  device_registered module self st st'.
Proof.
  intros (m & m1 & n & Hm & Hm1 & Hn & E & Hd) -> [F1 F2].
  destruct (F2 _ _ Hm1) as (m' & Hm' & E').
  exists m, m', n. repeat split; try done; [congruence|].
  intros r d Hr. rewrite F1; [auto|]. by eapply lookup_lt_Some.
Qed.

(** Compose the frame [F] with the next statement of [H]. *)
Ltac step_frame H F :=
  let x := fresh "x" in let st := fresh "st" in let H1 := fresh "H" in
  apply M_bind_Ok in H as (x & st & H1 & H);
  first [ eapply AnalogSig_frame in H1
        | eapply update_device_frame in H1; [|reflexivity] ];
  eapply registry_frame_trans in H1; [|exact F];
  clear F; rename H1 into F.

Lemma ChipyPassive_init_registered p module name sig1 sig2 value st self st' :
  ChipyPassive_init p module name sig1 sig2 value st = Ok self st' ->
  device_registered module self st st'.
Proof.
  intros H. unfold ChipyPassive_init in H.
  apply M_bind_Ok in H as (self' & st1 & H1 & H).
  apply ChipyDevice_init_registered in H1 as [Hs H1].
  pose proof (registry_frame_refl self' st1) as F.
  do 5 step_frame H F.
  injection H as <- <-. eauto using device_registered_frame.
Qed.

Lemma ChipyTransistor_init_registered module name c b e substrate model
    st self st' :
  ChipyTransistor_init module name c b e substrate model st = Ok self st' ->
  device_registered module self st st'.
Proof.
  intros H. unfold ChipyTransistor_init in H.
  apply M_bind_Ok in H as (self' & st1 & H1 & H).
  apply ChipyDevice_init_registered in H1 as [Hs H1].
  pose proof (registry_frame_refl self' st1) as F.
  do 9 step_frame H F.
  injection H as <- <-. eauto using device_registered_frame.
Qed.

(** C7: [AddAnalogModule(name)] appends exactly one entry, under [name], to
    [ChipyModulesDict] and leaves every module object that was there as it
    was; a device constructor appends exactly one entry to the [devices]
    registry of its module and leaves every device object that was there as
    it was. *)
Theorem registration_frame :
  (forall name st r st',
      AddAnalogModule name st = Ok r st' ->
      exists a,
        r = RModule a /\
        PyDict.get name (ChipyModulesDict st) = None /\
        ChipyModulesDict st' = ChipyModulesDict st ++ [(name, AnalogModule a)] /\
        forall b m, module_heap st !! b = Some m ->
                    module_heap st' !! b = Some m) /\
  (forall p module name sig1 sig2 value st self st',
      ChipyPassive_init p module name sig1 sig2 value st = Ok self st' ->
      device_registered module self st st') /\
  (forall module name c b e substrate model st self st',
      ChipyTransistor_init module name c b e substrate model st = Ok self st' ->
      device_registered module self st st').
Proof.
  split; [|split].
  - intros name st r st' H. unfold AddAnalogModule in H.
    apply M_bind_Ok in H as (a & st1 & H1 & H). injection H as <- <-.
    rewrite ChipyAnalogModule_init_eq in H1.
    destruct (PyDict.contains name (ChipyModulesDict st)) eqn:Hn; [done|].
    injection H1 as <- <-. apply dict_contains_false in Hn.
    eexists. repeat split; try done.
    + simpl. by rewrite dict_set_fresh.
    + intros b m Hm. simpl. by apply lookup_app_l_Some.
  - apply ChipyPassive_init_registered.
  - apply ChipyTransistor_init_registered.
Qed.

Lemma registration_frame_witness :
  device_registered 0 0 one_module_state
    (state_of
       (ChipyPassive_init ChipyResistor 0 None (ArgStr "a") (ArgStr "b")
          (PInt 1000) one_module_state)).
Proof.
  apply (proj1 (proj2 registration_frame) ChipyResistor 0%nat None
           (ArgStr "a") (ArgStr "b") (PInt 1000) _ 0%nat).
  vm_compute. reflexivity.
Defined.

(** ** C4: registration under a name *)

(** The constructors of modules and devices refuse a name that is taken, and
    register the object under its name otherwise. *)
Lemma unique_name_registration :
  (forall name st,
      is_Some (PyDict.get name (ChipyModulesDict st)) ->
      ChipyAnalogModule_init name st = Raise AssertionError st) /\
  (forall name st a st',
      ChipyAnalogModule_init name st = Ok a st' ->
      PyDict.get name (ChipyModulesDict st) = None /\
      PyDict.get name (ChipyModulesDict st') = Some (AnalogModule a)) /\
  (forall cls module name st m,
      module_heap st !! module = Some m ->
      is_Some (PyDict.get name (devices m)) ->
      ChipyDevice_init cls module (Some name) st = Raise AssertionError st) /\
  (forall cls module name st self st',
      ChipyDevice_init cls module name st = Ok self st' ->
      exists m m' n,
        module_heap st !! module = Some m /\
        module_heap st' !! module = Some m' /\
        PyDict.get n (devices m) = None /\
        PyDict.get n (devices m') = Some self).
Proof.
  repeat split.
  - intros name st Hn%dict_contains_true.
    by rewrite ChipyAnalogModule_init_eq, Hn.
  - rewrite ChipyAnalogModule_init_eq in H.
    destruct (PyDict.contains name (ChipyModulesDict st)) eqn:Hn; [done|].
    by apply dict_contains_false.
  - rewrite ChipyAnalogModule_init_eq in H.
    destruct (PyDict.contains name (ChipyModulesDict st)) eqn:Hn; [done|].
    injection H as <- <-. simpl. apply dict_get_set_eq.
  - intros cls module name st m Hm Hn%dict_contains_true.
    rewrite ChipyDevice_init_eq. simpl. by rewrite Hm, Hn.
  - intros cls module name st self st' H.
    apply ChipyDevice_init_registered in H
      as (_ & m & m' & n & Hm & Hm' & Hn & E & _).
    exists m, m', n. repeat split; try done.
    rewrite E, <-(dict_set_fresh n self) by done. apply dict_get_set_eq.
Qed.

(** The constructor of signals returns for every name, taken or not: it has
    no assertion. *)
Lemma ChipyAnalogSignal_init_returns module name st m :
  module_heap st !! module = Some m ->
  exists st', ChipyAnalogSignal_init module name st
              = Ok (length (signal_heap st)) st'.
Proof. intros Hm. rewrite ChipyAnalogSignal_init_eq, Hm. eauto. Qed.

(** C4, at the failing input: in a module where the input [a] is declared
    (the signal at address 0, with id 1) and a resistor is connected to it,
    declaring [a] again raises nothing.  It builds a second signal (address
    2, id 3) and replaces the entry of [a] in [module.signals], while the
    resistor stays connected to the first one. *)
Theorem signal_name_reuse :
  (exists m, module_heap declared_twice_state !! 0%nat = Some m /\
             PyDict.get "a" (signals m) = Some 0%nat) /\
  exists st',
    AddDigitalInput 1 "a" (PInt 1) (PFloat 3.3) (PInt 0) declared_twice_state
    = Ok (RSig (SigRef 2)) st' /\
    (exists m', module_heap st' !! 0%nat = Some m' /\
                PyDict.get "a" (signals m') = Some 2%nat) /\
    netlist 0 st'
    = Val (PDict
        [("ports",
          PDict [("a", PDict [("direction", PStr "input");
                              ("bits", PList [PInt 3])])]);
         ("cells",
          PDict [("R1", PDict [("type", PStr "resistor");
                               ("connections",
                                PDict [("L", PList [PInt 1]);
                                       ("R", PList [PInt 2])]);
                               ("attributes",
                                PDict [("value", PInt 1000)])])])]).
Proof.
  split.
  - eexists. split; vm_compute; reflexivity.
  - eexists. split; [vm_compute; reflexivity|]. split.
    + eexists. split; vm_compute; reflexivity.
    + vm_compute. reflexivity.
Qed.

(** ** [str.split] yields words *)

Lemma append_cons c (w s : string) :
  (String c w ++ s)%string = String c (w ++ s).
Proof. reflexivity. Qed.

Lemma append_nil_r (s : string) : (s ++ "")%string = s.
Proof.
  induction s as [|c s IH]; [done|]. by rewrite append_cons, IH.
Qed.

Lemma append_snoc (w : string) c s :
  ((w ++ String c "") ++ s)%string = (w ++ String c s)%string.
Proof.
  induction w as [|c' w IH]; [done|]. by rewrite !append_cons, IH.
Qed.

Lemma nospace_app w s :
  nospace (w ++ s)%string = nospace w && nospace s.
Proof.
  induction w as [|c w IH]; [done|].
  rewrite append_cons. simpl. by rewrite IH, andb_assoc.
Qed.

Lemma split_from_words s : forall w,
  nospace w = true -> Forall word (split_from w s).
Proof.
  induction s as [|c s IH]; intros w Hw; simpl.
  - destruct w; [constructor|]. repeat constructor; done.
  - destruct (isspace c) eqn:Hc.
    + destruct w; [by apply IH|]. constructor; [done|]. by apply IH.
    + apply IH. rewrite nospace_app, Hw. simpl. by rewrite Hc.
Qed.

Lemma split_words s : Forall word (split s).
Proof. by apply split_from_words. Qed.

Lemma split_from_nospace s : forall w,
  nospace s = true ->
  split_from w s =
  match (w ++ s)%string with EmptyString => [] | x => [x] end.
Proof.
  induction s as [|c s IH]; intros w Hs; simpl.
  - rewrite append_nil_r. by destruct w.
  - simpl in Hs. apply andb_true_iff in Hs as [Hc Hs].
    apply negb_true_iff in Hc. rewrite Hc, IH by done.
    by rewrite append_snoc.
Qed.

Lemma split_word s : word s -> split s = [s].
Proof.
  intros [Hne Hs]. unfold split. rewrite split_from_nospace by done.
  simpl. by destruct s.
Qed.

(** ** C10: the port functions on several names *)

Lemma update_signal_add_signal f s module m st :
  sig_name (f s) = sig_name s ->
  update_signal (length (signal_heap st)) f (add_signal s module m st)
  = Ok tt (add_signal (f s) module m st).
Proof.
  intros Hn. rewrite update_signal_eq. simpl.
  rewrite list_lookup_middle by done. unfold add_signal, with_signals. simpl.
  rewrite Hn. do 2 f_equal.
  rewrite insert_app_r_alt by done. by rewrite Nat.sub_diag.
Qed.

Lemma AddDigitalInput_word fuel name width high low st module m :
  word name ->
  ChipyCurrentContext st = Some module ->
  module_heap st !! module = Some m ->
  AddDigitalInput (S fuel) name (PInt width) high low st
  = Ok (RSig (SigRef (length (signal_heap st))))
       (add_signal (input_signal (SigId st + 1) name module width high low)
          module m st).
Proof.
  intros Hw Hc Hm. simpl. rewrite split_word by done. simpl.
  unfold assert_context, current_module, get_state.
  cbv beta iota delta [mbind M_bind mret M_ret assert].
  rewrite Hc. simpl. rewrite Hc.
  rewrite ChipyAnalogSignal_init_eq, Hm.
  change (mkState ?a ?b (SigId st + 1) ?c ?d (signal_heap st ++ [?s]) ?e)
    with (add_signal s module m st).
  rewrite !update_signal_add_signal by done. done.
Qed.

Lemma AddAnalogOutput_word fuel name width st module m :
  word name ->
  ChipyCurrentContext st = Some module ->
  module_heap st !! module = Some m ->
  AddAnalogOutput (S fuel) name (PInt width) st
  = Ok (RSig (SigRef (length (signal_heap st))))
       (add_signal (output_signal (SigId st + 1) name module width)
          module m st).
Proof.
  intros Hw Hc Hm. simpl. rewrite split_word by done. simpl.
  unfold assert_context, current_module, get_state.
  cbv beta iota delta [mbind M_bind mret M_ret assert].
  rewrite Hc. simpl. rewrite Hc.
  rewrite ChipyAnalogSignal_init_eq, Hm.
  change (mkState ?a ?b (SigId st + 1) ?c ?d (signal_heap st ++ [?s]) ?e)
    with (add_signal s module m st).
  rewrite !update_signal_add_signal by done. done.
Qed.

Lemma add_signal_lookup s module m st :
  module_heap st !! module = Some m ->
  module_heap (add_signal s module m st) !! module
  = Some (set_signals (PyDict.set (sig_name s) (length (signal_heap st))) m).
Proof.
  intros Hm. simpl. apply list_lookup_insert_eq. by eapply lookup_lt_Some.
Qed.

(** Declaring the words of a list one after the other with [f], when
    declaring one word appends the signal [mk id word]. *)
Lemma comprehension_declare (f : string -> M retval)
    (mk : Z -> string -> ChipyAnalogSignal) module names :
  (forall n st m, word n ->
      ChipyCurrentContext st = Some module ->
      module_heap st !! module = Some m ->
      f n st = Ok (RSig (SigRef (length (signal_heap st))))
                  (add_signal (mk (SigId st + 1) n) module m st)) ->
  Forall word names ->
  forall st m,
    ChipyCurrentContext st = Some module ->
    module_heap st !! module = Some m ->
    exists st',
      comprehension f names st
      = Ok (imap (fun i _ => RSig (SigRef (length (signal_heap st) + i))) names)
           st' /\
      signal_heap st'
      = signal_heap st ++
        imap (fun i n => mk (SigId st + 1 + Z.of_nat i) n) names.
Proof.
  intros Hf. induction 1 as [|n names Hn Hnames IH]; intros st m Hc Hm.
  - exists st. simpl. by rewrite app_nil_r.
  - simpl. rewrite (M_bind_step _ _ _ _ _ (Hf n st m Hn Hc Hm)).
    destruct (IH (add_signal (mk (SigId st + 1) n) module m st) _ Hc
                (add_signal_lookup _ _ _ _ Hm)) as (st' & Hrun & Hheap).
    exists st'. rewrite (M_bind_step _ _ _ _ _ Hrun). split.
    + cbv beta iota delta [mret M_ret]. do 2 f_equal.
      * do 2 f_equal. lia.
      * apply imap_ext. intros i x _. simpl. rewrite length_app. simpl.
        do 2 f_equal. lia.
    + rewrite Hheap. simpl. rewrite <-app_assoc. simpl. do 2 f_equal.
      * f_equal. lia.
      * apply imap_ext. intros i x _. simpl. f_equal. lia.
Qed.

Lemma Forall2_imap {A B} (P : A -> B -> Prop) (f : nat -> A -> B) l :
  (forall i x, P x (f i x)) -> Forall2 P l (imap f l).
Proof.
  revert f. induction l as [|x l IH]; intros f Hf; simpl; constructor; auto.
  apply IH. intros i y. apply Hf.
Qed.

(** C10: on a name of several words, and with fuel for the one level of
    recursion, [AddDigitalInput] returns the list of one new signal per word,
    and each of these signals has width 1, high value 3.3 and low value 0,
    whatever [type], [high_value] and [low_value] the caller passed;
    [AddAnalogOutput] likewise creates each signal with width 1. *)
Theorem port_defaults fuel name type high_value low_value st module m :
  (1 < length (split name))%nat ->
  ChipyCurrentContext st = Some module ->
  module_heap st !! module = Some m ->
  (exists st' new,
      AddDigitalInput (S (S fuel)) name type high_value low_value st
      = Ok (RList (imap (fun i _ => RSig (SigRef (length (signal_heap st) + i)))
                     (split name))) st' /\
      signal_heap st' = signal_heap st ++ new /\
      Forall2 (fun n s =>
                 sig_name s = n /\ sig_width s = 1 /\
                 sig_high_value s = PFloat 3.3 /\ sig_low_value s = PInt 0 /\
                 sig_inport s = true /\ sig_digital s = true)
              (split name) new) /\
  (exists st' new,
      AddAnalogOutput (S (S fuel)) name type st
      = Ok (RList (imap (fun i _ => RSig (SigRef (length (signal_heap st) + i)))
                     (split name))) st' /\
      signal_heap st' = signal_heap st ++ new /\
      Forall2 (fun n s =>
                 sig_name s = n /\ sig_width s = 1 /\ sig_outport s = true)
              (split name) new).
Proof.
  intros Hlen Hc Hm. apply Nat.ltb_lt in Hlen. split.
  - destruct (comprehension_declare
                (fun n => AddDigitalInput (S fuel) n (PInt 1) (PFloat 3.3) (PInt 0))
                (fun id n => input_signal id n module 1 (PFloat 3.3) (PInt 0))
                module (split name)
                ltac:(intros; by apply AddDigitalInput_word)
                (split_words name) st m Hc Hm) as (st' & Hrun & Hheap).
    exists st'. eexists. split; [|split; [exact Hheap|]].
    + simpl. rewrite Hlen. by rewrite (M_bind_step _ _ _ _ _ Hrun).
    + by apply Forall2_imap.
  - destruct (comprehension_declare
                (fun n => AddAnalogOutput (S fuel) n (PInt 1))
                (fun id n => output_signal id n module 1)
                module (split name)
                ltac:(intros; by apply AddAnalogOutput_word)
                (split_words name) st m Hc Hm) as (st' & Hrun & Hheap).
    exists st'. eexists. split; [|split; [exact Hheap|]].
    + simpl. rewrite Hlen. by rewrite (M_bind_step _ _ _ _ _ Hrun).
    + by apply Forall2_imap.
Qed.

Lemma port_defaults_witness :
  exists st' new,
    AddDigitalInput 2 "clk  rst" (PStr "bus") (PInt 5) (PInt 1) one_module_state
    = Ok (RList (imap (fun i _ =>
                         RSig (SigRef (length (signal_heap one_module_state) + i)))
                   (split "clk  rst"))) st' /\
    signal_heap st' = signal_heap one_module_state ++ new /\
    Forall2 (fun n s =>
               sig_name s = n /\ sig_width s = 1 /\
               sig_high_value s = PFloat 3.3 /\ sig_low_value s = PInt 0 /\
               sig_inport s = true /\ sig_digital s = true)
            (split "clk  rst") new.
Proof.
  apply (port_defaults 0 "clk  rst" (PStr "bus") (PInt 5) (PInt 1)
           one_module_state 0 (mkModule "amp" [] [])).
  - vm_compute. lia.
  - reflexivity.
  - reflexivity.
Defined.

(** ** [netlist], entry by entry *)

Lemma netlist_device_eq cells ref a st :
  netlist_device cells (ref, a) st =
  match device_cell a st with
  | Val o => Val (upd ref o cells)
  | Exc e => Exc e
  end.
Proof.
  unfold netlist_device, device_cell. M_eval.
  destruct (device_heap st !! a) as [d|]; [|done].
  destruct (Skin (dev_class d)); [|done].
  by destruct (connections d st).
Qed.

Lemma netlist_signal_eq ports cells name a st :
  netlist_signal (ports, cells) (name, a) st =
  match signal_heap st !! a with
  | Some s => Val (upd name (signal_port s) ports,
                   upd name (signal_cell name s) cells)
  | None => Exc NoSuchObject
  end.
Proof.
  unfold netlist_signal, signal_port, signal_cell. M_eval.
  destruct (signal_heap st !! a) as [s|]; [|done].
  destruct (sig_power s); [done|]. destruct (sig_ground s); [done|].
  destruct (sig_inport s); [done|]. by destruct (sig_outport s).
Qed.

Lemma get_upd {V} k k' (o : option V) d :
  PyDict.get k' (upd k o d) =
  if decide (k = k') then match o with Some v => Some v | None => PyDict.get k' d end
  else PyDict.get k' d.
Proof.
  destruct o as [v|]; simpl; [apply dict_get_set|]. by case_decide; subst.
Qed.

Lemma dict_get_cons {V} k k0 (x0 : V) l :
  PyDict.get k ((k0, x0) :: l) =
  if decide (k0 = k) then Some x0 else PyDict.get k l.
Proof.
  simpl. case_decide as E.
  - subst. by rewrite String.eqb_refl.
  - destruct (String.eqb k k0) eqn:E'; [|done].
    apply String.eqb_eq in E'. congruence.
Qed.

Lemma for_each_upd {T V} (f : dict V -> string * T -> R (dict V))
    (g : string -> T -> res (option V)) st :
  (forall acc k x, f acc (k, x) st =
     match g k x with Val o => Val (upd k o acc) | Exc e => Exc e end) ->
  forall l acc,
    NoDup (PyDict.keys l) ->
    (forall k x, In (k, x) l -> exists o, g k x = Val o) ->
    exists out,
      for_each f l acc st = Val out /\
      forall k, PyDict.get k out =
        match PyDict.get k l with
        | Some x => match g k x with
                    | Val (Some v) => Some v
                    | _ => PyDict.get k acc
                    end
        | None => PyDict.get k acc
        end.
Proof.
  intros Hf. induction l as [|[k0 x0] l IH]; intros acc Hnd Hg.
  - exists acc. done.
  - apply NoDup_cons in Hnd as [Hk0 Hnd].
    destruct (Hg k0 x0 (or_introl eq_refl)) as [o Ho].
    destruct (IH (upd k0 o acc) Hnd) as (out & Hrun & Hout).
    { intros k x Hin. apply Hg. by right. }
    exists out. split.
    + simpl. unfold mbind, R_bind. by rewrite Hf, Ho.
    + intros k. rewrite Hout, dict_get_cons, get_upd.
      case_decide as E; [subst k|done].
      assert (PyDict.get k0 l = None) as ->.
      { apply dict_get_None_keys. intros Hin. apply Hk0.
        by apply list_elem_of_In. }
      rewrite Ho. by destruct o.
Qed.

Lemma for_each_upd2 {T V} (f : dict V * dict V -> string * T -> R (dict V * dict V))
    (g : string -> T -> res (option V * option V)) st :
  (forall p c k x, f (p, c) (k, x) st =
     match g k x with
     | Val (op, oc) => Val (upd k op p, upd k oc c)
     | Exc e => Exc e
     end) ->
  forall l p c,
    NoDup (PyDict.keys l) ->
    (forall k x, In (k, x) l -> exists o, g k x = Val o) ->
    exists p' c',
      for_each f l (p, c) st = Val (p', c') /\
      (forall k, PyDict.get k p' =
        match PyDict.get k l with
        | Some x => match g k x with
                    | Val (Some v, _) => Some v
                    | _ => PyDict.get k p
                    end
        | None => PyDict.get k p
        end) /\
      (forall k, PyDict.get k c' =
        match PyDict.get k l with
        | Some x => match g k x with
                    | Val (_, Some v) => Some v
                    | _ => PyDict.get k c
                    end
        | None => PyDict.get k c
        end).
Proof.
  intros Hf. induction l as [|[k0 x0] l IH]; intros p c Hnd Hg.
  - exists p, c. done.
  - apply NoDup_cons in Hnd as [Hk0 Hnd].
    destruct (Hg k0 x0 (or_introl eq_refl)) as [[op oc] Ho].
    destruct (IH (upd k0 op p) (upd k0 oc c) Hnd) as (p' & c' & Hrun & Hp & Hc).
    { intros k x Hin. apply Hg. by right. }
    assert (PyDict.get k0 l = None) as Hnone.
    { apply dict_get_None_keys. intros Hin. apply Hk0.
      by apply list_elem_of_In. }
    exists p', c'. split; [|split].
    + simpl. unfold mbind, R_bind. by rewrite Hf, Ho.
    + intros k. rewrite Hp, dict_get_cons, get_upd.
      case_decide as E; [subst k|done]. rewrite Hnone, Ho. by destruct op.
    + intros k. rewrite Hc, dict_get_cons, get_upd.
      case_decide as E; [subst k|done]. rewrite Hnone, Ho. by destruct oc.
Qed.

Lemma fold_set_lookup (pins : list (string * Z)) : forall acc pin,
  NoDup (PyDict.keys pins) ->
  PyDict.get pin
    (fold_left (fun connections '(pin, net) =>
                  PyDict.set pin (PList [PInt net]) connections) pins acc)
  = match PyDict.get pin pins with
    | Some net => Some (PList [PInt net])
    | None => PyDict.get pin acc
    end.
Proof.
  induction pins as [|[k0 n0] pins IH]; intros acc pin Hnd; [done|].
  apply NoDup_cons in Hnd as [Hk0 Hnd].
  cbn [fold_left]. rewrite IH by done. rewrite dict_get_cons, dict_get_set.
  case_decide as E; [subst pin|done].
  assert (PyDict.get k0 pins = None) as ->; [|done].
  apply dict_get_None_keys. intros Hin. apply Hk0. by apply list_elem_of_In.
Qed.

Lemma yosys_cell_is_cell skin pins v :
  NoDup (PyDict.keys pins) -> is_cell skin pins v (PDict (yosys_cell skin pins v)).
Proof.
  intros Hnd. unfold yosys_cell, is_cell. eexists. eexists. split; [done|].
  assert (forall pin,
    PyDict.get pin
      (fold_left (fun connections '(pin, net) =>
                    PyDict.set pin (PList [PInt net]) connections)
                 (PyDict.items pins) PyDict.empty)
    = (fun net => PList [PInt net]) <$> PyDict.get pin pins) as Hconn.
  { intros pin. unfold PyDict.items. rewrite fold_set_lookup by done.
    by destruct (PyDict.get pin pins). }
  destruct (is_not_None v).
  - split; [done|]. split; [done|]. split; [exact Hconn|]. split; [done|].
    intros k H1 H2 H3. simpl.
    by rewrite !(proj2 (String.eqb_neq _ _)) by done.
  - split; [done|]. split; [done|]. split; [exact Hconn|]. split; [done|].
    intros k H1 H2 H3. simpl.
    by rewrite !(proj2 (String.eqb_neq _ _)) by done.
Qed.

Lemma port_is_port direction id : is_port direction id (port direction id).
Proof.
  unfold port, is_port. eexists. repeat split; try done.
  intros k H1 H2. simpl.
  by rewrite !(proj2 (String.eqb_neq _ _)) by done.
Qed.

Lemma getattr_id_total st x :
  is_Some x -> valid_ref st x -> exists id, getattr_id x st = Val id.
Proof.
  intros [[a] ->]; simpl.
  intros [s Hs]%lookup_lt_is_Some. exists (sig_id s). M_eval. by rewrite Hs.
Qed.

Lemma connections_total st d :
  device_complete d -> device_valid st d ->
  exists pins, connections d st = Val pins.
Proof.
  unfold device_complete, device_valid, connections.
  intros Hc (V1 & V2 & V3 & V4 & V5 & V6).
  destruct (dev_class d).
  - destruct Hc as [C1 C2].
    destruct (getattr_id_total st _ C1 V1) as [l Hl].
    destruct (getattr_id_total st _ C2 V2) as [r Hr].
    eexists. rewrite (R_bind_step _ _ _ _ Hl), (R_bind_step _ _ _ _ Hr). done.
  - destruct Hc as (C1 & C2 & C3 & _).
    destruct (getattr_id_total st _ C1 V3) as [c Hc].
    destruct (getattr_id_total st _ C2 V4) as [b Hb].
    destruct (getattr_id_total st _ C3 V5) as [e He].
    eexists. rewrite (R_bind_step _ _ _ _ Hc), (R_bind_step _ _ _ _ Hb),
      (R_bind_step _ _ _ _ He). done.
Qed.

Lemma connections_keys st d pins :
  connections d st = Val pins -> NoDup (PyDict.keys pins).
Proof.
  unfold connections. destruct (dev_class d); intros H; inv_M; simpl;
    repeat (apply NoDup_cons; split;
            [rewrite ?elem_of_cons, elem_of_nil; intuition discriminate|]);
    apply NoDup_nil_2.
Qed.

Lemma device_cell_total st d a :
  device_heap st !! a = Some d -> device_complete d -> device_valid st d ->
  exists o, device_cell a st = Val o.
Proof.
  intros Hd Hc Hv. unfold device_cell.
  rewrite (R_bind_step _ _ _ _ (proj2 (load_device_Val _ _ _) Hd)).
  destruct (Skin (dev_class d)); [|by eexists].
  destruct (connections_total _ _ Hc Hv) as [pins Hp].
  rewrite (R_bind_step _ _ _ _ Hp). by eexists.
Qed.

Lemma device_cell_Some st a c :
  device_cell a st = Val (Some c) ->
  exists d skin pins,
    device_heap st !! a = Some d /\ Skin (dev_class d) = Some skin /\
    connections d st = Val pins /\
    c = PDict (yosys_cell skin pins (dev_value d)).
Proof.
  unfold device_cell. intros H. inv_M. apply load_device_Val in H0.
  destruct (Skin (dev_class a0)) as [skin|] eqn:Hs; inv_M; [|done].
  exists a0, skin, a1. done.
Qed.

(** What [netlist] returns, entry by entry. *)
Lemma netlist_lookup st self m :
  inv None st -> module_heap st !! self = Some m ->
  exists device_cells ports cells,
    for_each netlist_device (PyDict.items (devices m)) PyDict.empty st
    = Val device_cells /\
    netlist self st
    = Val (PDict [("ports", PDict ports); ("cells", PDict cells)]) /\
    (forall k, PyDict.get k device_cells =
       match PyDict.get k (devices m) with
       | Some a => match device_cell a st with
                   | Val (Some c) => Some c
                   | _ => None
                   end
       | None => None
       end) /\
    (forall k, PyDict.get k ports =
       match PyDict.get k (signals m) with
       | Some a => match signal_heap st !! a with
                   | Some s => signal_port s
                   | None => None
                   end
       | None => None
       end) /\
    (forall k, PyDict.get k cells =
       match PyDict.get k (signals m) with
       | Some a => match signal_heap st !! a with
                   | Some s => match signal_cell k s with
                               | Some c => Some c
                               | None => PyDict.get k device_cells
                               end
                   | None => PyDict.get k device_cells
                   end
       | None => PyDict.get k device_cells
       end).
Proof.
  intros Hinv Hm.
  destruct (inv_modules _ _ Hinv _ _ Hm) as (Hn1 & Hn2 & Hsig & Hdev).
  destruct (for_each_upd netlist_device (fun _ a => device_cell a st) st
              (fun acc k x => netlist_device_eq acc k x st)
              (devices m) PyDict.empty Hn2) as (cells0 & Hrun0 & Hcells0).
  { intros k a Hin. destruct (Hdev _ _ Hin) as (d & Hd & _ & _ & [?|Hc]); [done|].
    eapply device_cell_total; eauto. by eapply inv_devices. }
  destruct (for_each_upd2 netlist_signal
              (fun k a => match signal_heap st !! a with
                          | Some s => Val (signal_port s, signal_cell k s)
                          | None => Exc NoSuchObject
                          end) st) with (l := signals m) (p := @PyDict.empty pyval)
              (c := cells0) as (ports & cells & Hrun & Hports & Hcells).
  { intros p c k a. rewrite netlist_signal_eq. by destruct (signal_heap st !! a). }
  { done. }
  { intros k a Hin. destruct (Hsig _ _ Hin) as (s & Hs & _). rewrite Hs. eauto. }
  exists cells0, ports, cells. split; [done|]. split; [|split; [|split]].
  - unfold netlist.
    rewrite (R_bind_step _ _ _ _ (proj2 (load_module_Val _ _ _) Hm)).
    unfold PyDict.items in *.
    rewrite (R_bind_step _ _ _ _ Hrun0), (R_bind_step _ _ _ _ Hrun). done.
  - intros k. rewrite Hcells0. destruct (PyDict.get k (devices m)); [|done].
    by destruct (device_cell n st) as [[c|]|].
  - intros k. rewrite Hports. destruct (PyDict.get k (signals m)) as [a|]; [|done].
    destruct (signal_heap st !! a) as [s|]; [|done]. by destruct (signal_port s).
  - intros k. rewrite Hcells. destruct (PyDict.get k (signals m)) as [a|]; [|done].
    by destruct (signal_heap st !! a) as [s|].
Qed.

(** In a state a process reaches, [netlist()] returns, and every entry of
    what it returns is that of a device or of a signal of the module. *)
Lemma netlist_entries st self m :
  reachable st -> module_heap st !! self = Some m ->
  exists ports cells,
    netlist self st
    = Val (PDict [("ports", PDict ports); ("cells", PDict cells)]) /\
    (forall k c, PyDict.get k cells = Some c ->
       (exists a d skin pins,
          PyDict.get k (devices m) = Some a /\
          device_heap st !! a = Some d /\
          Skin (dev_class d) = Some skin /\
          connections d st = Val pins /\
          is_cell skin pins (dev_value d) c) \/
       (exists a s skin pin,
          PyDict.get k (signals m) = Some a /\
          signal_heap st !! a = Some s /\
          is_cell skin [(pin, sig_id s)] (PStr k) c)) /\
    (forall k p, PyDict.get k ports = Some p ->
       exists a s direction,
         PyDict.get k (signals m) = Some a /\
         signal_heap st !! a = Some s /\
         (direction = "input" \/ direction = "output") /\
         is_port direction (sig_id s) p).
Proof.
  intros Hinv%reachable_inv Hm.
  destruct (netlist_lookup _ _ _ Hinv Hm)
    as (cells0 & ports & cells & _ & Hrun & Hcells0 & Hports & Hcells).
  exists ports, cells. split; [done|].
  assert (forall k c, PyDict.get k cells0 = Some c ->
            exists a d skin pins,
              PyDict.get k (devices m) = Some a /\
              device_heap st !! a = Some d /\
              Skin (dev_class d) = Some skin /\
              connections d st = Val pins /\
              is_cell skin pins (dev_value d) c) as Hdev.
  { intros k c. rewrite Hcells0.
    destruct (PyDict.get k (devices m)) as [a|]; [|done].
    destruct (device_cell a st) as [[c'|]|] eqn:Hc; try done.
    intros [= ->]. apply device_cell_Some in Hc
      as (d & skin & pins & Hd & Hs & Hp & ->).
    exists a, d, skin, pins. repeat split; try done.
    apply yosys_cell_is_cell. by eapply connections_keys. }
  split.
  - intros k c. rewrite Hcells.
    destruct (PyDict.get k (signals m)) as [a|] eqn:Ha; [|left; auto].
    destruct (signal_heap st !! a) as [s|] eqn:Hs; [|left; auto].
    unfold signal_cell.
    destruct (sig_power s); [|destruct (sig_ground s); [|left; auto]];
      intros [= <-]; right; exists a, s; do 2 eexists;
      (split; [done|]); (split; [exact Hs|]);
      apply yosys_cell_is_cell; apply NoDup_singleton.
  - intros k p. rewrite Hports.
    destruct (PyDict.get k (signals m)) as [a|] eqn:Ha; [|done].
    destruct (signal_heap st !! a) as [s|] eqn:Hs; [|done].
    unfold signal_port.
    destruct (sig_power s); [done|]. destruct (sig_ground s); [done|].
    destruct (sig_inport s); [|destruct (sig_outport s); [|done]];
      intros [= <-]; exists a, s; eexists;
      (split; [done|]); (split; [exact Hs|]);
      (split; [|apply port_is_port]); auto.
Qed.

Lemma for_each_cons {A B} (f : B -> A -> R B) x xs acc st :
  for_each f (x :: xs) acc st =
  match f acc x st with
  | Val acc' => for_each f xs acc' st
  | Exc e => Exc e
  end.
Proof. reflexivity. Qed.

Lemma for_each_invariant {A B} (I : B -> Prop) (f : B -> A -> R B) st l :
  (forall acc x acc', I acc -> f acc x st = Val acc' -> I acc') ->
  forall acc out, I acc -> for_each f l acc st = Val out -> I out.
Proof.
  intros Hf. induction l as [|x l IH]; intros acc out Hacc H.
  - by injection H as <-.
  - rewrite for_each_cons in H.
    destruct (f acc x st) as [acc'|] eqn:Hx; [|done]. eauto.
Qed.

Lemma In_upd {V} k k' (o : option V) v d :
  In (k', v) (upd k o d) -> o = Some v \/ In (k', v) d.
Proof.
  destruct o as [v0|]; simpl; [|auto].
  intros [[_ ->]|H]%dict_In_set; auto.
Qed.

Lemma netlist_shape_any st self nl :
  netlist self st = Val nl ->
  exists ports cells,
    nl = PDict [("ports", PDict ports); ("cells", PDict cells)] /\
    (forall k c, In (k, c) cells -> cell_shaped c) /\
    (forall k p, In (k, p) ports -> port_shaped p).
Proof.
  unfold netlist. intros H.
  apply R_bind_Val in H as (m & _ & H).
  apply R_bind_Val in H as (cells0 & Hrun0 & H).
  apply R_bind_Val in H as (pc & Hrun & H). injection H as <-.
  exists pc.1, pc.2. split; [done|].
  assert (forall k c, In (k, c) cells0 -> cell_shaped c) as Hcells0.
  { apply (for_each_invariant
             (fun cells => forall k c, In (k, c) cells -> cell_shaped c)
             netlist_device st (PyDict.items (devices m)))
      with (acc := PyDict.empty) (out := cells0); [|done|done].
    intros acc [k a] acc' Hacc. rewrite netlist_device_eq.
    destruct (device_cell a st) as [o|] eqn:Ho; [|done]. intros [= <-].
    intros k' c [->|Hin]%In_upd; [|eauto].
    apply device_cell_Some in Ho as (d & skin & pins & _ & _ & Hp & ->).
    exists skin, pins, (dev_value d).
    apply yosys_cell_is_cell. by eapply connections_keys. }
  apply (for_each_invariant
           (fun pc => (forall k c, In (k, c) pc.2 -> cell_shaped c) /\
                      (forall k p, In (k, p) pc.1 -> port_shaped p))
           netlist_signal st (PyDict.items (signals m)))
    with (acc := (PyDict.empty, cells0)) (out := pc); [|by split|done].
  intros [ports cells] [k a] acc' [Hc Hp]. rewrite netlist_signal_eq.
  destruct (signal_heap st !! a) as [s|]; [|done]. intros [= <-]. simpl.
  unfold signal_cell, signal_port. split.
  - intros k' c [Ho|Hin]%In_upd; [|eauto].
    destruct (sig_power s); [|destruct (sig_ground s); [|done]];
      injection Ho as <-; do 3 eexists;
      apply yosys_cell_is_cell, NoDup_singleton.
  - intros k' p [Ho|Hin]%In_upd; [|eauto].
    destruct (sig_power s); [done|]. destruct (sig_ground s); [done|].
    destruct (sig_inport s); [|destruct (sig_outport s); [|done]];
      injection Ho as <-; do 2 eexists; (split; [|apply port_is_port]); auto.
Qed.

(** C1: whatever the state, what [netlist()] returns is a dictionary with
    exactly the keys ['ports'] and ['cells'], where every cell has the keys
    ['type'] and ['connections'], each pin mapped to the one-element list of
    its net id, and the key ['attributes'] with [{'value': v}] exactly when
    its value [v] is not [None], and every port has a ['direction'],
    ['input'] or ['output'], and ['bits'], a one-element list.  For every
    module of a process [netlist()] does return, every cell is the cell of a
    device with a skin, with the connections and the value of the device, or
    the cell of a signal, and the bit of every port is the id of its
    signal. *)
Theorem netlist_shape st self :
  (forall nl, netlist self st = Val nl ->
     exists ports cells,
       nl = PDict [("ports", PDict ports); ("cells", PDict cells)] /\
       (forall k c, In (k, c) cells -> cell_shaped c) /\
       (forall k p, In (k, p) ports -> port_shaped p)) /\
  (reachable st ->
   forall m, module_heap st !! self = Some m ->
     exists ports cells,
       netlist self st
       = Val (PDict [("ports", PDict ports); ("cells", PDict cells)]) /\
       (forall k c, PyDict.get k cells = Some c ->
          (exists a d skin pins,
             PyDict.get k (devices m) = Some a /\
             device_heap st !! a = Some d /\
             Skin (dev_class d) = Some skin /\
             connections d st = Val pins /\
             is_cell skin pins (dev_value d) c) \/
          (exists a s skin pin,
             PyDict.get k (signals m) = Some a /\
             signal_heap st !! a = Some s /\
             is_cell skin [(pin, sig_id s)] (PStr k) c)) /\
       (forall k p, PyDict.get k ports = Some p ->
          exists a s direction,
            PyDict.get k (signals m) = Some a /\
            signal_heap st !! a = Some s /\
            (direction = "input" \/ direction = "output") /\
            is_port direction (sig_id s) p)).
Proof.
  split.
  - apply netlist_shape_any.
  - intros Hr m Hm. by apply netlist_entries.
Qed.

Lemma netlist_shape_witness :
  exists ports cells,
    netlist 0 amplifier_state
    = Val (PDict [("ports", PDict ports); ("cells", PDict cells)]).
Proof.
  destruct (proj2 (netlist_shape amplifier_state 0)) with (m := amplifier_module)
    as (ports & cells & H & _).
  - apply (exec_reachable amplifier init_state); [apply reachable_init|].
    vm_compute. reflexivity.
  - vm_compute. reflexivity.
  - by exists ports, cells.
Defined.

(** C3: in [netlist()] a signal contributes through its own name only, and
    one entry at most, by the first of its flags in the order power, ground,
    inport, outport: a ['power'] cell with pin ['VCC'] and its name as value,
    a ['ground'] cell with pin ['GND'] and its name as value, an input port,
    an output port, or, with none of the flags, nothing.  Where the signal
    gives no cell, the cell under its name is that of the devices; a name
    that is no signal has no port. *)
Theorem netlist_signal_entries st self m :
  reachable st -> module_heap st !! self = Some m ->
  exists device_cells ports cells,
    for_each netlist_device (PyDict.items (devices m)) PyDict.empty st
    = Val device_cells /\
    netlist self st
    = Val (PDict [("ports", PDict ports); ("cells", PDict cells)]) /\
    (forall name, PyDict.get name (signals m) = None ->
       PyDict.get name ports = None /\
       PyDict.get name cells = PyDict.get name device_cells) /\
    (forall name a, PyDict.get name (signals m) = Some a ->
       exists s,
         signal_heap st !! a = Some s /\ sig_name s = name /\
         if sig_power s then
           (exists c, PyDict.get name cells = Some c /\
                      is_cell "power" [("VCC", sig_id s)] (PStr (sig_name s)) c) /\
           PyDict.get name ports = None
         else if sig_ground s then
           (exists c, PyDict.get name cells = Some c /\
                      is_cell "ground" [("GND", sig_id s)] (PStr (sig_name s)) c) /\
           PyDict.get name ports = None
         else if sig_inport s then
           (exists p, PyDict.get name ports = Some p /\
                      is_port "input" (sig_id s) p) /\
           PyDict.get name cells = PyDict.get name device_cells
         else if sig_outport s then
           (exists p, PyDict.get name ports = Some p /\
                      is_port "output" (sig_id s) p) /\
           PyDict.get name cells = PyDict.get name device_cells
         else
           PyDict.get name ports = None /\
           PyDict.get name cells = PyDict.get name device_cells).
Proof.
  intros Hinv%reachable_inv Hm.
  destruct (netlist_lookup _ _ _ Hinv Hm)
    as (cells0 & ports & cells & Hrun0 & Hrun & Hcells0 & Hports & Hcells).
  destruct (inv_modules _ _ Hinv _ _ Hm) as (_ & _ & Hsig & _).
  exists cells0, ports, cells. split; [done|]. split; [done|]. split.
  - intros name Hn. by rewrite Hports, Hcells, Hn.
  - intros name a Hn. apply dict_get_Some_In in Hn as Hin.
    destruct (Hsig _ _ Hin) as (s & Hs & Hname & _).
    exists s. split; [done|]. split; [done|].
    rewrite Hports, Hcells, Hn, Hs, Hname. unfold signal_port, signal_cell.
    destruct (sig_power s).
    { split; [|done]. eexists. split; [done|].
      apply yosys_cell_is_cell, NoDup_singleton. }
    destruct (sig_ground s).
    { split; [|done]. eexists. split; [done|].
      apply yosys_cell_is_cell, NoDup_singleton. }
    destruct (sig_inport s).
    { split; [|done]. eexists. split; [done|]. apply port_is_port. }
    destruct (sig_outport s).
    { split; [|done]. eexists. split; [done|]. apply port_is_port. }
    done.
Qed.

Lemma netlist_signal_entries_witness :
  exists device_cells ports cells,
    for_each netlist_device (PyDict.items (devices amplifier_module))
      PyDict.empty amplifier_state
    = Val device_cells /\
    netlist 0 amplifier_state
    = Val (PDict [("ports", PDict ports); ("cells", PDict cells)]) /\
    ((exists c, PyDict.get "VCC" cells = Some c /\
                is_cell "power" [("VCC", 1)] (PStr "VCC") c) /\
     PyDict.get "VCC" ports = None) /\
    ((exists c, PyDict.get "0" cells = Some c /\
                is_cell "ground" [("GND", 2)] (PStr "0") c) /\
     PyDict.get "0" ports = None) /\
    ((exists p, PyDict.get "a" ports = Some p /\ is_port "input" 3 p) /\
     PyDict.get "a" cells = PyDict.get "a" device_cells) /\
    ((exists p, PyDict.get "out" ports = Some p /\ is_port "output" 5 p) /\
     PyDict.get "out" cells = PyDict.get "out" device_cells) /\
    (PyDict.get "bias" ports = None /\
     PyDict.get "bias" cells = PyDict.get "bias" device_cells) /\
    PyDict.get "R1" ports = None /\
    PyDict.get "R1" cells = PyDict.get "R1" device_cells.
Proof.
  destruct (netlist_signal_entries amplifier_state 0 amplifier_module)
    as (device_cells & ports & cells & H0 & H & Hnone & Hsome).
  - exact amplifier_reachable.
  - vm_compute. reflexivity.
  - assert (Hat : forall name a s,
              PyDict.get name (signals amplifier_module) = Some a ->
              signal_heap amplifier_state !! a = Some s ->
              sig_name s = name /\
              if sig_power s then
                (exists c, PyDict.get name cells = Some c /\
                   is_cell "power" [("VCC", sig_id s)] (PStr (sig_name s)) c) /\
                PyDict.get name ports = None
              else if sig_ground s then
                (exists c, PyDict.get name cells = Some c /\
                   is_cell "ground" [("GND", sig_id s)] (PStr (sig_name s)) c) /\
                PyDict.get name ports = None
              else if sig_inport s then
                (exists p, PyDict.get name ports = Some p /\
                           is_port "input" (sig_id s) p) /\
                PyDict.get name cells = PyDict.get name device_cells
              else if sig_outport s then
                (exists p, PyDict.get name ports = Some p /\
                           is_port "output" (sig_id s) p) /\
                PyDict.get name cells = PyDict.get name device_cells
              else
                PyDict.get name ports = None /\
                PyDict.get name cells = PyDict.get name device_cells).
    { intros name a s Hget Hs.
      destruct (Hsome name a Hget) as (s' & Hs' & Hn & Hflags).
      rewrite Hs in Hs'. injection Hs' as <-. by split. }
    edestruct (Hat "VCC" 0%nat) as [_ HVCC];
      [vm_compute; reflexivity|vm_compute; reflexivity|].
    edestruct (Hat "0" 1%nat) as [_ HGND];
      [vm_compute; reflexivity|vm_compute; reflexivity|].
    edestruct (Hat "a" 2%nat) as [_ Ha];
      [vm_compute; reflexivity|vm_compute; reflexivity|].
    edestruct (Hat "out" 4%nat) as [_ Hout];
      [vm_compute; reflexivity|vm_compute; reflexivity|].
    edestruct (Hat "bias" 5%nat) as [_ Hbias];
      [vm_compute; reflexivity|vm_compute; reflexivity|].
    simpl in HVCC, HGND, Ha, Hout, Hbias.
    exists device_cells, ports, cells.
    split; [exact H0|]. split; [exact H|].
    split; [exact HVCC|]. split; [exact HGND|]. split; [exact Ha|].
    split; [exact Hout|]. split; [exact Hbias|].
    apply Hnone. vm_compute. reflexivity.
Defined.

(** ** C2: [WriteNetlist] *)

Lemma WriteNetlist_step_eq modules modname module st :
  WriteNetlist_step modules (modname, module) st =
  match module_netlist st modname module with
  | Val o => Val (upd modname o modules)
  | Exc e => Exc e
  end.
Proof.
  unfold WriteNetlist_step, module_netlist. destruct module; [|done].
  M_eval. by destruct (netlist a st).
Qed.

(** C2: [WriteNetlist(f)] appends to [f] the text [json.dumps] gives, with
    sorted keys, an indentation of 2 and the separators [(',', ': ')], for
    the object whose single key ['modules'] maps the name of every analog
    module of [ChipyModulesDict] to its [netlist()], followed by a newline;
    a module that is not analog, and a name that is not registered, has no
    entry. *)
Theorem WriteNetlist_prints
    (json_dumps : pyval -> bool -> Z -> string * string -> string) f st :
  reachable st ->
  exists modules,
    WriteNetlist json_dumps f st
    = Val (f ++ json_dumps (PDict [("modules", PDict modules)]) true 2
                  (",", ": ") ++ newline)%string /\
    (forall name a,
        PyDict.get name (ChipyModulesDict st) = Some (AnalogModule a) ->
        exists n, netlist a st = Val n /\ PyDict.get name modules = Some n) /\
    (forall name,
        PyDict.get name (ChipyModulesDict st) = Some DigitalModule ->
        PyDict.get name modules = None) /\
    (forall name,
        PyDict.get name (ChipyModulesDict st) = None ->
        PyDict.get name modules = None).
Proof.
  intros Hinv%reachable_inv.
  assert (forall name a, In (name, AnalogModule a) (ChipyModulesDict st) ->
            exists n, netlist a st = Val n) as Hnet.
  { intros name a Hin. destruct (inv_dict _ _ Hinv _ _ Hin) as (m & Hm & _).
    destruct (netlist_lookup _ _ _ Hinv Hm) as (? & ? & ? & _ & H & _). eauto. }
  destruct (for_each_upd (WriteNetlist_step) (module_netlist st) st
              (fun acc k x => WriteNetlist_step_eq acc k x st)
              (ChipyModulesDict st) PyDict.empty (inv_dict_keys _ _ Hinv))
    as (modules & Hrun & Hmodules).
  { intros name [a|] Hin; simpl; [|eauto].
    destruct (Hnet _ _ Hin) as [n ->]. eauto. }
  exists modules. split; [|split; [|split]].
  - unfold WriteNetlist, PyDict.items.
    by rewrite (R_bind_step _ _ _ _ Hrun).
  - intros name a Hget. destruct (Hnet name a (dict_get_Some_In _ _ _ Hget))
      as [n Hn]. exists n. split; [done|].
    rewrite Hmodules, Hget. simpl. by rewrite Hn.
  - intros name Hget. by rewrite Hmodules, Hget.
  - intros name Hget. by rewrite Hmodules, Hget.
Qed.

Lemma WriteNetlist_prints_witness :
  exists modules,
    WriteNetlist (fun _ _ _ _ => "{}") "" amplifier_state
    = Val ("" ++ "{}" ++ newline)%string /\
    (exists n, netlist 0 amplifier_state = Val n /\
               PyDict.get "amp" modules = Some n) /\
    PyDict.get "top" modules = None.
Proof.
  destruct (WriteNetlist_prints (fun _ _ _ _ => "{}") "" amplifier_state)
    as (modules & H & Hanalog & Hdigital & _).
  - apply (exec_reachable amplifier init_state); [apply reachable_init|].
    vm_compute. reflexivity.
  - exists modules. split; [exact H|]. split.
    + apply Hanalog. vm_compute. reflexivity.
    + apply Hdigital. vm_compute. reflexivity.
Defined.

(** ** C6: the eispice model *)

Lemma getattr_eispice_model_total st x :
  is_Some x -> valid_ref st x -> exists n, getattr_eispice_model x st = Val n.
Proof.
  intros [[a] ->]; simpl.
  intros [s Hs]%lookup_lt_is_Some. eexists. M_eval. by rewrite Hs.
Qed.

Lemma device_eispice_model_total st d :
  device_complete d -> device_valid st d ->
  exists x, device_eispice_model d st = Val x.
Proof.
  unfold device_complete, device_valid, device_eispice_model.
  intros Hc (V1 & V2 & V3 & V4 & V5 & V6).
  destruct (dev_class d).
  - destruct Hc as [C1 C2].
    destruct (getattr_eispice_model_total st _ C1 V1) as [n1 H1].
    destruct (getattr_eispice_model_total st _ C2 V2) as [n2 H2].
    eexists. rewrite (R_bind_step _ _ _ _ H1), (R_bind_step _ _ _ _ H2). done.
  - destruct Hc as (C1 & C2 & C3 & _ & [kw Hkw]).
    destruct (getattr_eispice_model_total st _ C1 V3) as [c Hc].
    destruct (getattr_eispice_model_total st _ C2 V4) as [b Hb].
    destruct (getattr_eispice_model_total st _ C3 V5) as [e He].
    eexists. rewrite (R_bind_step _ _ _ _ Hc), (R_bind_step _ _ _ _ Hb),
      (R_bind_step _ _ _ _ He), Hkw. done.
Qed.

Lemma eispice_device_step_eq cct k a st d x :
  device_heap st !! a = Some d -> device_eispice_model d st = Val x ->
  eispice_device_step cct (k, a) st = Val (setattr k x cct).
Proof.
  intros Hd Hx. unfold eispice_device_step.
  rewrite (R_bind_step _ _ _ _ (proj2 (load_device_Val _ _ _) Hd)).
  by rewrite (R_bind_step _ _ _ _ Hx).
Qed.

Lemma eispice_signal_step_eq cct k a st s :
  signal_heap st !! a = Some s ->
  eispice_signal_step cct (k, a) st =
  Val (if sig_digital s && sig_inport s
       then setattr k (EispiceInput (EispiceDigitalInput_init (sig_name s)
                         (sig_high_value s) (sig_low_value s))) cct
       else cct).
Proof.
  intros Hs. unfold eispice_signal_step.
  rewrite (R_bind_step _ _ _ _ (proj2 (load_signal_Val _ _ _) Hs)).
  by destruct (sig_digital s && sig_inport s).
Qed.

Lemma eispice_devices_loop st l : forall cct,
  (forall k a, In (k, a) l ->
     exists d x, device_heap st !! a = Some d /\
                 device_eispice_model d st = Val x) ->
  exists calls,
    for_each eispice_device_step l cct st
    = Val (mkCircuit (title cct) (setattr_calls cct ++ calls)) /\
    Forall2 (fun item call =>
               call.1 = item.1 /\
               exists d, device_heap st !! item.2 = Some d /\
                         device_eispice_model d st = Val call.2) l calls.
Proof.
  induction l as [|[k a] l IH]; intros cct Hl.
  - exists []. simpl. rewrite app_nil_r. by destruct cct.
  - destruct (Hl k a (or_introl eq_refl)) as (d & x & Hd & Hx).
    destruct (IH (setattr k x cct)) as (calls & Hrun & Hcalls).
    { intros k' a' Hin. apply (Hl k' a'). by right. }
    exists ((k, x) :: calls). split.
    + rewrite for_each_cons, (eispice_device_step_eq _ _ _ _ _ _ Hd Hx), Hrun.
      simpl. by rewrite <-app_assoc.
    + constructor; [|done]. simpl. eauto.
Qed.

Lemma eispice_signals_loop st l : forall cct,
  (forall k a, In (k, a) l -> is_Some (signal_heap st !! a)) ->
  exists calls,
    for_each eispice_signal_step l cct st
    = Val (mkCircuit (title cct) (setattr_calls cct ++ calls)) /\
    Forall2 (fun item call =>
               call.1 = item.1 /\
               call.2 = EispiceInput
                          (mkDigitalInput (sig_name item.2) false
                             (sig_high_value item.2) (sig_low_value item.2)))
            (digital_inputs st l) calls.
Proof.
  induction l as [|[k a] l IH]; intros cct Hl.
  - exists []. simpl. rewrite app_nil_r. split; [by destruct cct|constructor].
  - destruct (Hl k a (or_introl eq_refl)) as [s Hs].
    assert (forall k' a', In (k', a') l -> is_Some (signal_heap st !! a')) as Hl'.
    { intros k' a' Hin. apply (Hl k' a'). by right. }
    rewrite for_each_cons, (eispice_signal_step_eq _ _ _ _ _ Hs).
    cbn [digital_inputs]. rewrite Hs.
    destruct (sig_digital s && sig_inport s).
    + destruct (IH (setattr k (EispiceInput (EispiceDigitalInput_init
                     (sig_name s) (sig_high_value s) (sig_low_value s))) cct) Hl')
        as (calls & Hrun & Hcalls).
      eexists (_ :: calls). split.
      * rewrite Hrun. simpl. by rewrite <-app_assoc.
      * constructor; [|done]. done.
    + destruct (IH cct Hl') as (calls & Hrun & Hcalls).
      exists calls. by split.
Qed.

Lemma Forall2_names {A B} (Q : string * A -> string * B -> Prop) l calls :
  (forall x y, Q x y -> y.1 = x.1) ->
  Forall2 Q l calls -> map fst calls = map fst l.
Proof.
  intros HQ. induction 1 as [|x y l calls E%HQ _ IH]; simpl; [done|].
  by rewrite E, IH.
Qed.

Lemma digital_inputs_names st l k :
  In k (map fst (digital_inputs st l)) -> In k (map fst l).
Proof.
  induction l as [|[k0 a] l IH]; simpl; [done|].
  destruct (signal_heap st !! a) as [s|]; [|auto].
  destruct (sig_digital s && sig_inport s); simpl; intuition.
Qed.

Lemma digital_inputs_NoDup st l :
  NoDup (map fst l) -> NoDup (map fst (digital_inputs st l)).
Proof.
  induction l as [|[k0 a] l IH]; simpl; [done|].
  intros [Hk Hnd]%NoDup_cons.
  destruct (signal_heap st !! a) as [s|]; [|auto].
  destruct (sig_digital s && sig_inport s); simpl; [|auto].
  apply NoDup_cons. split; [|auto].
  intros Hin%list_elem_of_In%digital_inputs_names. apply Hk.
  by apply list_elem_of_In.
Qed.

(** C6, as amended: for every module of a process, [eispice_model()] returns
    a circuit whose title is the name of the module and on which it has
    made, in order, one [__setattr__] call per registered device, under the
    name of the device and with its eispice model, and then one per signal
    that is digital and an inport, under the name of the signal and with the
    [EispiceDigitalInput] built from the name, the high value and the low
    value of the signal.  The names within each group are distinct; the
    names of all the calls are distinct, so that each call sets an attribute
    of its own, provided no digital input has the name of a device of the
    module.  The eispice model of a signal is [eispice.GND] when it is
    ground and its name otherwise. *)
Theorem eispice_circuit st self m :
  reachable st -> module_heap st !! self = Some m ->
  (exists device_calls signal_calls,
      eispice_model self st
      = Val (mkCircuit (mod_name m) (device_calls ++ signal_calls)) /\
      Forall2 (fun item call =>
                 call.1 = item.1 /\
                 exists d, device_heap st !! item.2 = Some d /\
                           device_eispice_model d st = Val call.2)
              (devices m) device_calls /\
      NoDup (map fst device_calls) /\
      Forall2 (fun item call =>
                 call.1 = item.1 /\
                 call.2 = EispiceInput
                            (mkDigitalInput (sig_name item.2) false
                               (sig_high_value item.2) (sig_low_value item.2)))
              (digital_inputs st (signals m)) signal_calls /\
      NoDup (map fst signal_calls) /\
      ((forall k, In k (map fst (digital_inputs st (signals m))) ->
                  PyDict.get k (devices m) = None) ->
       NoDup (map fst (device_calls ++ signal_calls)))) /\
  (forall s, signal_eispice_model s
             = if sig_ground s then GND else Node (sig_name s)).
Proof.
  intros Hinv%reachable_inv Hm. split; [|done].
  destruct (inv_modules _ _ Hinv _ _ Hm) as (Hn1 & Hn2 & Hsig & Hdev).
  destruct (eispice_devices_loop st (devices m) (mkCircuit (mod_name m) []))
    as (dcalls & Hrun1 & Hd).
  { intros k a Hin. destruct (Hdev _ _ Hin) as (d & Hd & _ & _ & [?|Hc]); [done|].
    destruct (device_eispice_model_total st d Hc) as [x Hx];
      [by eapply inv_devices|]. eauto. }
  destruct (eispice_signals_loop st (signals m)
              (mkCircuit (mod_name m) ([] ++ dcalls)))
    as (scalls & Hrun2 & Hs).
  { intros k a Hin. destruct (Hsig _ _ Hin) as (s & Hs & _). eauto. }
  assert (Ed : map fst dcalls = map fst (devices m)).
  { eapply Forall2_names; [|exact Hd]. by intros x y [E _]. }
  assert (Es : map fst scalls = map fst (digital_inputs st (signals m))).
  { eapply Forall2_names; [|exact Hs]. by intros x y [E _]. }
  assert (Nd : NoDup (map fst dcalls)) by (by rewrite Ed).
  assert (Ns : NoDup (map fst scalls)).
  { rewrite Es. by apply digital_inputs_NoDup. }
  exists dcalls, scalls.
  split; [|split; [done|split; [done|split; [done|split; [done|]]]]].
  - unfold eispice_model, PyDict.items.
    rewrite (R_bind_step _ _ _ _ (proj2 (load_module_Val _ _ _) Hm)).
    by rewrite (R_bind_step _ _ _ _ Hrun1).
  - intros Hfree. rewrite map_app. apply NoDup_app. split; [done|].
    split; [|done]. intros k Hk Hk'.
    apply list_elem_of_In in Hk. apply list_elem_of_In in Hk'.
    rewrite Es in Hk'.
    specialize (Hfree k Hk'). apply dict_get_None_keys in Hfree.
    apply Hfree. unfold PyDict.keys. by rewrite <- Ed.
Qed.

Lemma eispice_circuit_witness :
  exists device_calls signal_calls,
    eispice_model 0 amplifier_state
    = Val (mkCircuit "amp" (device_calls ++ signal_calls)) /\
    length device_calls = 4%nat /\ length signal_calls = 2%nat /\
    NoDup (map fst (device_calls ++ signal_calls)).
Proof.
  destruct (eispice_circuit amplifier_state 0 amplifier_module)
    as [(device_calls & signal_calls & H & Hd & _ & Hs & _ & Hall) _].
  - exact amplifier_reachable.
  - vm_compute. reflexivity.
  - exists device_calls, signal_calls. split; [exact H|]. split; [|split].
    + by rewrite <-(Forall2_length _ _ _ Hd).
    + by rewrite <-(Forall2_length _ _ _ Hs).
    + apply Hall. intros k Hk.
      assert (En : map fst (digital_inputs amplifier_state
                              (signals amplifier_module)) = ["a"; "b"])
        by (vm_compute; reflexivity).
      rewrite En in Hk.
      destruct Hk as [<-|[<-|[]]]; vm_compute; reflexivity.
Defined.

(** C6, as stated, fails: a digital input may bear the name of a device.
    After [AddDigitalInput('R1')] and [AddR('x', 'y', 1000)] in a new module,
    which names its resistor [R1], [eispice_model()] calls [__setattr__]
    twice under the name [R1], first with the resistor and then with the
    digital input: the circuit cannot hold one attribute for the device and
    one for the input. *)
Lemma eispice_name_collision :
  reachable name_collision_state /\
  eispice_model 0 name_collision_state
  = Val (mkCircuit "amp"
           [("R1", EispicePassive ChipyResistor (Node "x") (Node "y")
                     (PInt 1000));
            ("R1", EispiceInput
                     (mkDigitalInput "R1" false (PFloat 3.3) (PInt 0)))]).
Proof.
  split.
  - apply (exec_reachable name_collision init_state); [apply reachable_init|].
    vm_compute. reflexivity.
  - vm_compute. reflexivity.
Qed.

(** * Further properties *)

(** ** Steps shared by the proofs below *)

Lemma M_bind_Raise_step {A B} (f : A -> M B) (m : M A) st e st' :
  m st = Raise e st' -> (m ≫= f) st = Raise e st'.
Proof. intros H. unfold mbind, M_bind. by rewrite H. Qed.

Lemma assert_context_step st module :
  ChipyCurrentContext st = Some module -> assert_context st = Ok tt st.
Proof. intros H. unfold assert_context. M_eval. by rewrite H. Qed.

Lemma current_module_step st module :
  ChipyCurrentContext st = Some module -> current_module st = Ok module st.
Proof. intros H. unfold current_module. by rewrite H. Qed.

Lemma one_module_reachable : reachable one_module_state.
Proof.
  apply (exec_reachable [Call (CallAddAnalogModule "amp"); Enter (Some 0%nat)]
           init_state); [constructor|]. vm_compute. reflexivity.
Qed.

Ltac bind_inv H x s H' := apply M_bind_Ok in H as (x & s & H' & H).

(** ** [AnalogSig]: failure and creation *)

Lemma AnalogSig_Raise arg width st e st' :
  AnalogSig arg width st = Raise e st' -> st' = st.
Proof.
  destruct arg as [a|l|name|].
  - rewrite AnalogSig_signal_eq. destruct (signal_heap st !! a) as [s|].
    + destruct (width_ok s width); [done|]. by intros [= _ <-].
    + by intros [= _ <-].
  - rewrite AnalogSig_seq_eq. destruct width; by intros [= _ <-].
  - rewrite AnalogSig_str_eq.
    destruct (ChipyCurrentContext st) as [module|]; [|by intros [= _ <-]].
    destruct (module_heap st !! module) as [m|]; [|by intros [= _ <-]].
    destruct (PyDict.get name (signals m)) as [a|]; [|done].
    destruct (signal_heap st !! a) as [s|]; [|by intros [= _ <-]].
    destruct (width_ok s width); [done|]. by intros [= _ <-].
  - by intros [= _ <-].
Qed.

(** X1: [AnalogSig] fails without a trace.  Whenever it raises an
    exception of its own, the state at the raise is the state of the call.
    A tuple or list with a width, and an argument that is no signal,
    sequence or string, raise [AssertionError]; a string outside any module
    raises [AttributeError]; the name of a signal whose width differs from
    the width asked for raises [AssertionError].  (A tuple or list without a
    width is handed to [chipy.Concat], which this model does not follow:
    nothing is said of that call.) *)
Theorem AnalogSig_errors :
  (forall arg width st e st',
      AnalogSig arg width st = Raise e st' ->
      (forall callee, e <> Outside callee) ->
      st' = st) /\
  (forall elems w st,
      AnalogSig (ArgSeq elems) (Some w) st = Raise AssertionError st) /\
  (forall width st, AnalogSig ArgOther width st = Raise AssertionError st) /\
  (forall name width st,
      ChipyCurrentContext st = None ->
      AnalogSig (ArgStr name) width st = Raise AttributeError st) /\
  (forall name w st module m a s,
      ChipyCurrentContext st = Some module ->
      module_heap st !! module = Some m ->
      PyDict.get name (signals m) = Some a ->
      signal_heap st !! a = Some s ->
      sig_width s <> w ->
      AnalogSig (ArgStr name) (Some w) st = Raise AssertionError st).
Proof.
  split; [intros arg width st e st' H _; by eapply AnalogSig_Raise|].
  repeat split.
  - intros name width st Hc. by rewrite AnalogSig_str_eq, Hc.
  - intros name w st module m a s Hc Hm Ha Hs Hw.
    rewrite AnalogSig_str_eq, Hc, Hm, Ha, Hs. simpl.
    by rewrite (proj2 (Z.eqb_neq _ _) Hw).
Qed.

Lemma AnalogSig_errors_witness :
  AnalogSig (ArgSeq [ArgStr "a"; ArgStr "b"]) (Some 1) one_module_state
  = Raise AssertionError one_module_state /\
  AnalogSig (ArgStr "a") None init_state = Raise AttributeError init_state /\
  state_of (AnalogSig (ArgStr "a") None init_state) = init_state.
Proof.
  destruct AnalogSig_errors as (H0 & H1 & _ & H2 & _). split; [|split].
  - apply H1.
  - apply H2. reflexivity.
  - apply (H0 (ArgStr "a") None init_state AttributeError
             (state_of (AnalogSig (ArgStr "a") None init_state)));
      [reflexivity|discriminate].
Defined.

(** X2: a call of [AnalogSig] on an argument that is not a tuple or list,
    when it returns, either leaves the state as it was or has constructed
    exactly one signal: that happens only for a string that is not yet a
    name of the current module, the signal gets the next id, the width asked
    for (1 when none is) and all flags off, it is appended to the registry
    of the current module under that name, and nothing else changes.  (A
    tuple or list goes to [chipy.Concat], which this model does not
    follow.) *)
Theorem AnalogSig_get_or_create arg width st r st' :
  (forall elems, arg <> ArgSeq elems) ->
  AnalogSig arg width st = Ok r st' ->
  st' = st \/
  exists name module m,
    arg = ArgStr name /\
    ChipyCurrentContext st = Some module /\
    module_heap st !! module = Some m /\
    PyDict.get name (signals m) = None /\
    r = SigRef (length (signal_heap st)) /\
    SigId st' = SigId st + 1 /\
    signal_heap st'
    = signal_heap st ++
      [mkSignal (SigId st + 1) name module
         (match width with Some w => w | None => 1 end)
         false (PInt 0) false false false false (PInt 0) (PInt 0) (PInt 0)
         (PInt 0)] /\
    module_heap st'
    = <[module := mkModule (mod_name m)
                    (signals m ++ [(name, length (signal_heap st))])
                    (devices m)]> (module_heap st) /\
    device_heap st' = device_heap st /\
    ChipyModulesDict st' = ChipyModulesDict st /\
    ChipyCurrentContext st' = ChipyCurrentContext st.
Proof.
  intros Hseq. destruct arg as [a|l|name|].
  - rewrite AnalogSig_signal_eq. destruct (signal_heap st !! a) as [s|]; [|done].
    destruct (width_ok s width); [|done]. intros [= _ <-]. by left.
  - by destruct (Hseq l).
  - rewrite AnalogSig_str_eq.
    destruct (ChipyCurrentContext st) as [module|] eqn:Hc; [|done].
    destruct (module_heap st !! module) as [m|] eqn:Hm; [|done].
    destruct (PyDict.get name (signals m)) as [a|] eqn:Hget.
    + destruct (signal_heap st !! a) as [s|]; [|done].
      destruct (width_ok s width); [|done]. intros [= _ <-]. by left.
    + intros [= <- <-]. right. exists name, module, m. simpl.
      repeat split; try done.
      * by destruct width.
      * unfold set_signals. by rewrite dict_set_fresh.
  - done.
Qed.

Lemma AnalogSig_get_or_create_witness :
  state_of (AnalogSig (ArgStr "a") (Some 1)
              (state_of (AnalogSig (ArgStr "a") (Some 1) one_module_state)))
  = state_of (AnalogSig (ArgStr "a") (Some 1) one_module_state).
Proof.
  destruct (AnalogSig_get_or_create (ArgStr "a") (Some 1)
              (state_of (AnalogSig (ArgStr "a") (Some 1) one_module_state))
              (SigRef 0)
              (state_of (AnalogSig (ArgStr "a") (Some 1)
                           (state_of (AnalogSig (ArgStr "a") (Some 1)
                                        one_module_state)))))
    as [H|(name & module & m & _ & _ & _ & _ & _ & H & _)].
  - discriminate.
  - vm_compute. reflexivity.
  - exact H.
  - vm_compute in H. discriminate H.
Defined.

(** ** [AddAnalogModule] *)

(** X3: [AddAnalogModule] raises [AssertionError], leaving the state alone,
    when the name is taken, by an analog module or by one of the digital
    framework.  When it returns, the module is new and empty: its netlist
    has no port and no cell, [EispiceModel] of its name is a circuit with
    that title and no element, no signal or device was touched, and the
    current context is the one of before (the module is not entered).  A
    second call with the name raises [AssertionError]. *)
Theorem new_module_empty name st :
  (is_Some (PyDict.get name (ChipyModulesDict st)) ->
   AddAnalogModule name st = Raise AssertionError st) /\
  (forall r st',
      AddAnalogModule name st = Ok r st' ->
      r = RModule (length (module_heap st)) /\
      module_heap st'
      = module_heap st ++ [mkModule name PyDict.empty PyDict.empty] /\
      PyDict.get name (ChipyModulesDict st')
      = Some (AnalogModule (length (module_heap st))) /\
      ChipyCurrentContext st' = ChipyCurrentContext st /\
      signal_heap st' = signal_heap st /\ device_heap st' = device_heap st /\
      netlist (length (module_heap st)) st'
      = Val (PDict [("ports", PDict []); ("cells", PDict [])]) /\
      EispiceModel name st' = Val (mkCircuit name []) /\
      AddAnalogModule name st' = Raise AssertionError st').
Proof.
  unfold AddAnalogModule. split.
  - intros H%dict_contains_true. apply M_bind_Raise_step.
    by rewrite ChipyAnalogModule_init_eq, H.
  - intros r st' H. apply M_bind_Ok in H as (a & st1 & H1 & H).
    injection H as <- <-. rewrite ChipyAnalogModule_init_eq in H1.
    destruct (PyDict.contains name (ChipyModulesDict st)) eqn:Hc; [done|].
    injection H1 as <- <-.
    assert (Hget : PyDict.get name
                     (PyDict.set name (AnalogModule (length (module_heap st)))
                        (ChipyModulesDict st))
                   = Some (AnalogModule (length (module_heap st))))
      by apply dict_get_set_eq.
    split; [done|]. split; [done|]. split; [done|]. split; [done|].
    split; [done|]. split; [done|]. split; [|split].
    + unfold netlist. M_eval. simpl. by rewrite list_lookup_middle.
    + unfold EispiceModel. simpl. rewrite Hget.
      unfold eispice_model. M_eval. simpl. by rewrite list_lookup_middle.
    + apply M_bind_Raise_step. rewrite ChipyAnalogModule_init_eq. simpl.
      assert (PyDict.contains name
                (PyDict.set name (AnalogModule (length (module_heap st)))
                   (ChipyModulesDict st)) = true) as ->; [|done].
      apply dict_contains_true. by rewrite Hget.
Qed.

Lemma new_module_empty_witness :
  AddAnalogModule "top"
    (with_ModulesDict (PyDict.set "top" DigitalModule) init_state)
  = Raise AssertionError
      (with_ModulesDict (PyDict.set "top" DigitalModule) init_state) /\
  EispiceModel "amp" (state_of (AddAnalogModule "amp" init_state))
  = Val (mkCircuit "amp" []).
Proof.
  split.
  - destruct (new_module_empty "top"
                (with_ModulesDict (PyDict.set "top" DigitalModule) init_state))
      as [H _].
    apply H. vm_compute. eauto.
  - destruct (new_module_empty "amp" init_state) as [_ H].
    destruct (H (RModule 0) (state_of (AddAnalogModule "amp" init_state)))
      as (_ & _ & _ & _ & _ & _ & _ & He & _).
    + vm_compute. reflexivity.
    + exact He.
Defined.

(** ** The port functions: blank names, recursion, single names *)

Lemma split_blank s : blank s = true -> split s = [].
Proof.
  unfold split. induction s as [|c s IH]; [done|]. simpl.
  intros [Hc Hs]%andb_true_iff. rewrite Hc. auto.
Qed.

Lemma AddDigitalInput_single fuel name w width high low st :
  split name = [w] ->
  AddDigitalInput (S fuel) name (PInt width) high low st =
  match ChipyCurrentContext st with
  | None => Raise AssertionError st
  | Some module =>
      match module_heap st !! module with
      | None => Raise NoSuchObject st
      | Some m =>
          Ok (RSig (SigRef (length (signal_heap st))))
             (add_signal (input_signal (SigId st + 1) w module width high low)
                module m st)
      end
  end.
Proof.
  intros Hs. simpl. rewrite Hs. simpl.
  unfold assert_context, current_module, get_state.
  cbv beta iota delta [mbind M_bind mret M_ret assert].
  destruct (ChipyCurrentContext st) as [module|] eqn:Hc; simpl; [|done].
  rewrite Hc. rewrite ChipyAnalogSignal_init_eq.
  destruct (module_heap st !! module) as [m|] eqn:Hm; [|done].
  change (mkState ?a ?b (SigId st + 1) ?c ?d (signal_heap st ++ [?s]) ?e)
    with (add_signal s module m st).
  rewrite !update_signal_add_signal by done. done.
Qed.

Lemma AddAnalogOutput_single fuel name w width st :
  split name = [w] ->
  AddAnalogOutput (S fuel) name (PInt width) st =
  match ChipyCurrentContext st with
  | None => Raise AssertionError st
  | Some module =>
      match module_heap st !! module with
      | None => Raise NoSuchObject st
      | Some m =>
          Ok (RSig (SigRef (length (signal_heap st))))
             (add_signal (output_signal (SigId st + 1) w module width)
                module m st)
      end
  end.
Proof.
  intros Hs. simpl. rewrite Hs. simpl.
  unfold assert_context, current_module, get_state.
  cbv beta iota delta [mbind M_bind mret M_ret assert].
  destruct (ChipyCurrentContext st) as [module|] eqn:Hc; simpl; [|done].
  rewrite Hc. rewrite ChipyAnalogSignal_init_eq.
  destruct (module_heap st !! module) as [m|] eqn:Hm; [|done].
  change (mkState ?a ?b (SigId st + 1) ?c ?d (signal_heap st ++ [?s]) ?e)
    with (add_signal s module m st).
  rewrite !update_signal_add_signal by done. done.
Qed.

(** X4: [AddDigitalInput] and [AddAnalogOutput] with a name that is empty or
    all whitespace raise [AssertionError], whatever the type and the context
    are, and register nothing. *)
Theorem blank_port_name fuel name type high_value low_value st :
  blank name = true ->
  AddDigitalInput (S fuel) name type high_value low_value st
  = Raise AssertionError st /\
  AddAnalogOutput (S fuel) name type st = Raise AssertionError st.
Proof.
  intros H%split_blank. simpl. by rewrite H.
Qed.

Lemma blank_port_name_witness :
  AddDigitalInput 1 "  " (PStr "bus") (PFloat 3.3) (PInt 0) one_module_state
  = Raise AssertionError one_module_state /\
  AddAnalogOutput 1 "  " (PStr "bus") one_module_state
  = Raise AssertionError one_module_state.
Proof. apply blank_port_name. reflexivity. Defined.

Lemma comprehension_ext {A B} (f g : A -> M B) xs :
  Forall (fun x => forall st, f x st = g x st) xs ->
  forall st, comprehension f xs st = comprehension g xs st.
Proof.
  induction 1 as [|x xs Hx _ IH]; intros st; [done|].
  simpl. unfold mbind, M_bind. rewrite Hx.
  destruct (g x st) as [y st1|]; [|done]. by rewrite IH.
Qed.

Lemma comprehension_Raise {A B} (f : A -> M B) xs : forall st e st',
  comprehension f xs st = Raise e st' ->
  exists x st1, In x xs /\ f x st1 = Raise e st'.
Proof.
  induction xs as [|x xs IH]; intros st e st' H; [done|].
  simpl in H. apply M_bind_Raise in H as [H|(y & st1 & Hy & H)].
  - exists x, st. split; [by left|done].
  - apply M_bind_Raise in H as [H|(ys & st2 & Hys & H)]; [|done].
    destruct (IH _ _ _ H) as (x' & st3 & Hin & Hx').
    exists x', st3. split; [by right|done].
Qed.

Lemma AddDigitalInput_word_fuel fuel name type high low st :
  word name ->
  AddDigitalInput (S fuel) name type high low st
  = AddDigitalInput 1 name type high low st.
Proof. intros Hw. simpl. by rewrite split_word. Qed.

Lemma AddAnalogOutput_word_fuel fuel name type st :
  word name ->
  AddAnalogOutput (S fuel) name type st = AddAnalogOutput 1 name type st.
Proof. intros Hw. simpl. by rewrite split_word. Qed.

Lemma AddDigitalInput_no_recursion_error fuel name type high low st e st' :
  (length (split name) <= 1)%nat ->
  AddDigitalInput (S fuel) name type high low st = Raise e st' ->
  e <> RecursionError.
Proof.
  intros Hl H.
  destruct (split name) as [|w [|w' l]] eqn:Hs; simpl in Hl; [| |lia].
  - simpl in H. rewrite Hs in H. simpl in H. by injection H as <- _.
  - destruct type as [| width | | | |];
      try (simpl in H; rewrite Hs in H; simpl in H; by injection H as <- _).
    rewrite (AddDigitalInput_single _ _ w) in H by done.
    destruct (ChipyCurrentContext st); [|by injection H as <- _].
    destruct (module_heap st !! _); [done|by injection H as <- _].
Qed.

Lemma AddAnalogOutput_no_recursion_error fuel name type st e st' :
  (length (split name) <= 1)%nat ->
  AddAnalogOutput (S fuel) name type st = Raise e st' ->
  e <> RecursionError.
Proof.
  intros Hl H.
  destruct (split name) as [|w [|w' l]] eqn:Hs; simpl in Hl; [| |lia].
  - simpl in H. rewrite Hs in H. simpl in H. by injection H as <- _.
  - destruct type as [| width | | | |];
      try (simpl in H; rewrite Hs in H; simpl in H; by injection H as <- _).
    rewrite (AddAnalogOutput_single _ _ w) in H by done.
    destruct (ChipyCurrentContext st); [|by injection H as <- _].
    destruct (module_heap st !! _); [done|by injection H as <- _].
Qed.

Lemma AddDigitalInput_S fuel name type high low st :
  AddDigitalInput (S fuel) name type high low st =
  if (1 <? length (split name))%nat
  then (l ← comprehension
              (fun n => AddDigitalInput fuel n (PInt 1) (PFloat 3.3) (PInt 0))
              (split name);
        mret (RList l)) st
  else AddDigitalInput 1 name type high low st.
Proof. simpl. by destruct (1 <? length (split name))%nat. Qed.

Lemma AddAnalogOutput_S fuel name type st :
  AddAnalogOutput (S fuel) name type st =
  if (1 <? length (split name))%nat
  then (l ← comprehension (fun n => AddAnalogOutput fuel n (PInt 1))
              (split name);
        mret (RList l)) st
  else AddAnalogOutput 1 name type st.
Proof. simpl. by destruct (1 <? length (split name))%nat. Qed.

(** X5: the port functions recurse at most one level deep: the words of a
    name contain no whitespace, so the call made for a word does not recurse
    again.  With room for two nested calls the outcome is the same as with
    any larger bound, and it is never a [RecursionError]. *)
Theorem port_recursion_depth fuel name type high_value low_value st :
  AddDigitalInput (S (S fuel)) name type high_value low_value st
  = AddDigitalInput 2 name type high_value low_value st /\
  AddAnalogOutput (S (S fuel)) name type st = AddAnalogOutput 2 name type st /\
  (forall st', AddDigitalInput 2 name type high_value low_value st
               <> Raise RecursionError st') /\
  (forall st', AddAnalogOutput 2 name type st <> Raise RecursionError st').
Proof.
  assert (Hwords := split_words name).
  repeat split.
  - rewrite !(AddDigitalInput_S (S _)).
    destruct (1 <? length (split name))%nat; [|done].
    unfold mbind, M_bind.
    rewrite (comprehension_ext _
               (fun n => AddDigitalInput 1 n (PInt 1) (PFloat 3.3) (PInt 0)));
      [done|].
    eapply Forall_impl; [exact Hwords|]. intros n Hn st0.
    by apply AddDigitalInput_word_fuel.
  - rewrite !(AddAnalogOutput_S (S _)).
    destruct (1 <? length (split name))%nat; [|done].
    unfold mbind, M_bind.
    rewrite (comprehension_ext _ (fun n => AddAnalogOutput 1 n (PInt 1)));
      [done|].
    eapply Forall_impl; [exact Hwords|]. intros n Hn st0.
    by apply AddAnalogOutput_word_fuel.
  - intros st' H. rewrite AddDigitalInput_S in H.
    destruct (1 <? length (split name))%nat eqn:Hl.
    + apply M_bind_Raise in H as [H|(l & st1 & _ & H)]; [|done].
      apply comprehension_Raise in H as (x & st1 & Hin & H).
      rewrite Forall_forall in Hwords.
      apply AddDigitalInput_no_recursion_error in H; [done|].
      rewrite split_word; [simpl; lia|]. apply Hwords. by apply list_elem_of_In.
    + apply Nat.ltb_ge in Hl.
      by apply AddDigitalInput_no_recursion_error in H.
  - intros st' H. rewrite AddAnalogOutput_S in H.
    destruct (1 <? length (split name))%nat eqn:Hl.
    + apply M_bind_Raise in H as [H|(l & st1 & _ & H)]; [|done].
      apply comprehension_Raise in H as (x & st1 & Hin & H).
      rewrite Forall_forall in Hwords.
      apply AddAnalogOutput_no_recursion_error in H; [done|].
      rewrite split_word; [simpl; lia|]. apply Hwords. by apply list_elem_of_In.
    + apply Nat.ltb_ge in Hl.
      by apply AddAnalogOutput_no_recursion_error in H.
Qed.

Lemma netlist_port_of_new_signal st s module m :
  inv None (add_signal s module m st) ->
  module_heap st !! module = Some m ->
  exists ports cells,
    netlist module (add_signal s module m st)
    = Val (PDict [("ports", PDict ports); ("cells", PDict cells)]) /\
    PyDict.get (sig_name s) ports = signal_port s.
Proof.
  intros Hinv Hm.
  destruct (netlist_lookup _ module _ Hinv (add_signal_lookup s _ _ _ Hm))
    as (dc & ports & cells & _ & Hn & _ & Hp & _).
  exists ports, cells. split; [done|].
  rewrite Hp. simpl. rewrite dict_get_set_eq.
  by rewrite list_lookup_middle.
Qed.

(** X6: a name with one word, whatever whitespace surrounds it, declares one
    port under that word.  In a reachable state inside a module,
    [AddDigitalInput] returns a new signal with the next id, the width, high
    and low values given, [inport] and [digital] set; [AddAnalogOutput]
    returns one with [outport] set; and the netlist of the module then has,
    under the word, an input (resp. output) port whose only bit is that
    id. *)
Theorem single_port fuel name w width high_value low_value st module :
  reachable st ->
  split name = [w] ->
  ChipyCurrentContext st = Some module ->
  (exists st' ports cells,
      AddDigitalInput (S fuel) name (PInt width) high_value low_value st
      = Ok (RSig (SigRef (length (signal_heap st)))) st' /\
      signal_heap st'
      = signal_heap st ++
        [mkSignal (SigId st + 1) w module width false (PInt 0) false true
           false true high_value low_value (PInt 0) (PInt 0)] /\
      netlist module st'
      = Val (PDict [("ports", PDict ports); ("cells", PDict cells)]) /\
      PyDict.get w ports = Some (port "input" (SigId st + 1))) /\
  (exists st' ports cells,
      AddAnalogOutput (S fuel) name (PInt width) st
      = Ok (RSig (SigRef (length (signal_heap st)))) st' /\
      signal_heap st'
      = signal_heap st ++
        [mkSignal (SigId st + 1) w module width false (PInt 0) false false
           true false (PInt 0) (PInt 0) (PInt 0) (PInt 0)] /\
      netlist module st'
      = Val (PDict [("ports", PDict ports); ("cells", PDict cells)]) /\
      PyDict.get w ports = Some (port "output" (SigId st + 1))).
Proof.
  intros Hr Hs Hc.
  assert (Hinv := reachable_inv _ Hr).
  destruct (lookup_lt_is_Some_2 (module_heap st) module) as [m Hm].
  { by apply (inv_context _ _ Hinv). }
  split.
  - assert (Hrun : AddDigitalInput (S fuel) name (PInt width) high_value
                     low_value st
                   = Ok (RSig (SigRef (length (signal_heap st))))
                       (add_signal (input_signal (SigId st + 1) w module width
                                      high_value low_value) module m st)).
    { by rewrite (AddDigitalInput_single _ _ w), Hc, Hm. }
    assert (Hinv' : inv None (add_signal (input_signal (SigId st + 1) w module
                                width high_value low_value) module m st)).
    { apply reachable_inv.
      eapply (reachable_call (CallAddDigitalInput (S fuel) name (PInt width)
                                high_value low_value)); [exact Hr|exact Hrun]. }
    destruct (netlist_port_of_new_signal _ _ _ _ Hinv' Hm)
      as (ports & cells & Hn & Hp).
    eexists. exists ports, cells. split; [exact Hrun|]. split; [done|]. by split.
  - assert (Hrun : AddAnalogOutput (S fuel) name (PInt width) st
                   = Ok (RSig (SigRef (length (signal_heap st))))
                       (add_signal (output_signal (SigId st + 1) w module width)
                          module m st)).
    { by rewrite (AddAnalogOutput_single _ _ w), Hc, Hm. }
    assert (Hinv' : inv None (add_signal (output_signal (SigId st + 1) w module
                                width) module m st)).
    { apply reachable_inv.
      eapply (reachable_call (CallAddAnalogOutput (S fuel) name (PInt width)));
        [exact Hr|exact Hrun]. }
    destruct (netlist_port_of_new_signal _ _ _ _ Hinv' Hm)
      as (ports & cells & Hn & Hp).
    eexists. exists ports, cells. split; [exact Hrun|]. split; [done|]. by split.
Qed.

Lemma single_port_witness :
  exists st' ports cells,
    AddDigitalInput 1 " clk " (PInt 1) (PFloat 3.3) (PInt 0) one_module_state
    = Ok (RSig (SigRef 0)) st' /\
    netlist 0 st'
    = Val (PDict [("ports", PDict ports); ("cells", PDict cells)]) /\
    PyDict.get "clk" ports = Some (port "input" 1).
Proof.
  destruct (single_port 0 " clk " "clk" 1 (PFloat 3.3) (PInt 0)
              one_module_state 0 one_module_reachable)
    as [(st' & ports & cells & H1 & _ & H2 & H3) _].
  - vm_compute. reflexivity.
  - vm_compute. reflexivity.
  - exists st', ports, cells. repeat split; assumption.
Defined.

Lemma port_outside_module fuel name width high low st :
  ChipyCurrentContext st = None ->
  AddDigitalInput (S (S fuel)) name (PInt width) high low st
  = Raise AssertionError st /\
  AddAnalogOutput (S (S fuel)) name (PInt width) st = Raise AssertionError st.
Proof.
  intros Hc. assert (Hwords := split_words name).
  rewrite AddDigitalInput_S, AddAnalogOutput_S.
  destruct (split name) as [|w [|w' l]] eqn:Hs; simpl length;
    cbv beta iota delta [Nat.ltb Nat.leb].
  - simpl. by rewrite Hs.
  - by rewrite (AddDigitalInput_single _ _ w), (AddAnalogOutput_single _ _ w), Hc.
  - apply Forall_cons in Hwords as [Hw _].
    split; apply M_bind_Raise_step; cbn [comprehension];
      apply M_bind_Raise_step.
    + by rewrite (AddDigitalInput_single _ _ w), Hc by by apply split_word.
    + by rewrite (AddAnalogOutput_single _ _ w), Hc by by apply split_word.
Qed.

(** X7: outside any module ([chipy.ChipyCurrentContext] is [None]), [AddR],
    [AddC], [AddQ], [AddPower], [AddGnd] and, with an integer type, the two
    port functions raise [AssertionError] and leave the state as it was: no
    designator is used up and nothing is registered. *)
Theorem outside_module st :
  ChipyCurrentContext st = None ->
  (forall sig1 sig2 value, AddR sig1 sig2 value st = Raise AssertionError st) /\
  (forall sig1 sig2 value, AddC sig1 sig2 value st = Raise AssertionError st) /\
  (forall c b e substrate model,
      AddQ c b e substrate model st = Raise AssertionError st) /\
  (forall name value, AddPower name value st = Raise AssertionError st) /\
  (forall name, AddGnd name st = Raise AssertionError st) /\
  (forall fuel name width high_value low_value,
      AddDigitalInput (S (S fuel)) name (PInt width) high_value low_value st
      = Raise AssertionError st) /\
  (forall fuel name width,
      AddAnalogOutput (S (S fuel)) name (PInt width) st
      = Raise AssertionError st).
Proof.
  intros Hc.
  assert (Ha : forall A (k : unit -> M A),
             (assert_context ≫= k) st = Raise AssertionError st).
  { intros A k. apply M_bind_Raise_step. unfold assert_context. M_eval.
    by rewrite Hc. }
  split; [intros; apply Ha|]. split; [intros; apply Ha|].
  split; [intros; apply Ha|]. split; [intros; apply Ha|].
  split; [intros; apply Ha|].
  split.
  - intros fuel name width high_value low_value.
    by apply (port_outside_module fuel name width high_value low_value st).
  - intros fuel name width.
    by apply (port_outside_module fuel name width (PInt 0) (PInt 0) st).
Qed.

Lemma outside_module_witness :
  AddR (ArgStr "a") (ArgStr "b") (PInt 1000) init_state
  = Raise AssertionError init_state.
Proof.
  destruct (outside_module init_state) as (H & _); [reflexivity|].
  exact (H (ArgStr "a") (ArgStr "b") (PInt 1000)).
Defined.

(** ** The pins of a device *)

Lemma extends_refl st : extends st st.
Proof. repeat split; try done. intros b m Hm. by exists m. Qed.

Lemma extends_trans st1 st2 st3 :
  extends st1 st2 -> extends st2 st3 -> extends st1 st3.
Proof.
  intros (Hc1 & Hd1 & Hi1 & Hs1 & Hm1) (Hc2 & Hd2 & Hi2 & Hs2 & Hm2).
  repeat split; try congruence.
  - intros b s Hb. by apply Hs2, Hs1.
  - intros b m Hb.
    destruct (Hm1 _ _ Hb) as (m' & Hb' & Hn' & Hd' & Hk').
    destruct (Hm2 _ _ Hb') as (m'' & Hb'' & Hn'' & Hd'' & Hk'').
    exists m''. repeat split; try congruence. intros k x Hx. by apply Hk'', Hk'.
Qed.

Lemma pin_extends st st' arg a : is_pin st arg a -> extends st st' -> is_pin st' arg a.
Proof.
  intros ((s & Hs & Hw) & Hn & Ha) (Hc & _ & _ & Hsig & Hmod).
  split; [|split; [|done]].
  - exists s. split; [by apply Hsig|done].
  - intros name ->. destruct (Hn name eq_refl) as (module & m & Hctx & Hm & Hget).
    destruct (Hmod _ _ Hm) as (m' & Hm' & _ & _ & Hk).
    exists module, m'. rewrite Hc. repeat split; try done. by apply Hk.
Qed.

Lemma dict_get_app_Some {V} (k : string) (v : V) d l :
  PyDict.get k d = Some v -> PyDict.get k (d ++ l) = Some v.
Proof.
  induction d as [|[k0 v0] d IH]; [done|]. simpl.
  by destruct (String.eqb k k0).
Qed.

Lemma extends_add_signal st s module m :
  module_heap st !! module = Some m ->
  PyDict.get (sig_name s) (signals m) = None ->
  extends st (add_signal s module m st).
Proof.
  intros Hm Hget. repeat split; try done.
  - intros b s0 Hb. simpl. by apply lookup_app_l_Some.
  - intros b m0 Hb. simpl. destruct (decide (b = module)) as [->|Hne].
    + rewrite list_lookup_insert_eq by (by eapply lookup_lt_Some).
      eexists. split; [done|]. assert (m0 = m) as -> by congruence.
      repeat split; try done. intros k x Hx. simpl.
      rewrite dict_set_fresh by done. by apply dict_get_app_Some.
    + rewrite list_lookup_insert_ne by done. by exists m0.
Qed.

Lemma extends_created st c s module m :
  c = ChipyCurrentContext st ->
  module_heap st !! module = Some m ->
  PyDict.get (sig_name s) (signals m) = None ->
  extends st
    (mkState (ChipyModulesDict st) c (SigId st + 1) (IdCount st)
       (<[module := set_signals
                      (PyDict.set (sig_name s) (length (signal_heap st))) m]>
          (module_heap st))
       (signal_heap st ++ [s]) (device_heap st)).
Proof. intros ->. apply extends_add_signal. Qed.

Lemma extends_with_devices f st : extends st (with_devices f st).
Proof. repeat split; try done. intros b m Hm. by exists m. Qed.

(** [AnalogSig] with a width: the result is a signal of that width, found or
    created. *)
Lemma AnalogSig_pin arg w st r st' :
  AnalogSig arg (Some w) st = Ok r st' ->
  exists a s,
    r = SigRef a /\ signal_heap st' !! a = Some s /\ sig_width s = w /\
    extends st st' /\ device_heap st' = device_heap st /\
    (forall name, arg = ArgStr name ->
       exists module m,
         ChipyCurrentContext st' = Some module /\
         module_heap st' !! module = Some m /\
         PyDict.get name (signals m) = Some a) /\
    (forall a0, arg = ArgSignal a0 -> a0 = a) /\
    (st' = st \/
     SigId st' = SigId st + 1 /\ a = length (signal_heap st) /\
     signal_heap st' = signal_heap st ++ [s]).
Proof.
  destruct arg as [a|l|name|].
  - rewrite AnalogSig_signal_eq.
    destruct (signal_heap st !! a) as [s|] eqn:Hs; [|done]. simpl.
    destruct (sig_width s =? w) eqn:Hw; [|done]. intros [= <- <-].
    apply Z.eqb_eq in Hw. exists a, s.
    repeat split; try done; try apply extends_refl; try by left.
    by intros a0 [= ->].
  - by rewrite AnalogSig_seq_eq.
  - rewrite AnalogSig_str_eq.
    destruct (ChipyCurrentContext st) as [module|] eqn:Hc; [|done].
    destruct (module_heap st !! module) as [m|] eqn:Hm; [|done].
    destruct (PyDict.get name (signals m)) as [a|] eqn:Hget.
    + destruct (signal_heap st !! a) as [s|] eqn:Hs; [|done]. simpl.
      destruct (sig_width s =? w) eqn:Hw; [|done]. intros [= <- <-].
      apply Z.eqb_eq in Hw. exists a, s.
      repeat split; try done; try apply extends_refl; try by left.
      intros name' [= <-]. by exists module, m.
    + intros [= <- <-].
      exists (length (signal_heap st)),
        (created_signal (SigId st + 1) name module (Some w)).
      split; [done|]. split; [simpl; by rewrite list_lookup_middle|].
      split; [done|]. split.
      { apply (extends_created st _
                 (created_signal (SigId st + 1) name module (Some w)) module m);
          by rewrite ?created_signal_name. }
      split; [done|]. split; [|split; [done|by right]].
      intros name' [= <-]. simpl. exists module. eexists. split; [done|].
      rewrite list_lookup_insert_eq by (by eapply lookup_lt_Some).
      split; [done|]. simpl. by rewrite dict_get_set_eq.
  - done.
Qed.

Lemma AnalogSig_pin_again arg w st a st1 st2 s :
  AnalogSig arg (Some w) st = Ok (SigRef a) st1 ->
  ChipyCurrentContext st2 = ChipyCurrentContext st1 ->
  module_heap st2 = module_heap st1 ->
  signal_heap st2 !! a = Some s -> sig_width s = w ->
  AnalogSig arg (Some w) st2 = Ok (SigRef a) st2.
Proof.
  intros H Hc Hm Hs Hw.
  destruct (AnalogSig_pin _ _ _ _ _ H)
    as (a' & s' & [= <-] & _ & _ & _ & _ & Hname & Hsig & _).
  destruct arg as [a0|l|name|].
  - rewrite <- (Hsig a0 eq_refl) in *. rewrite AnalogSig_signal_eq, Hs. simpl.
    by rewrite (proj2 (Z.eqb_eq _ _) Hw).
  - by rewrite AnalogSig_seq_eq in H.
  - destruct (Hname name eq_refl) as (module & m & Hctx & Hmod & Hget).
    rewrite AnalogSig_str_eq, Hc, Hctx, Hm, Hmod, Hget, Hs. simpl.
    by rewrite (proj2 (Z.eqb_eq _ _) Hw).
  - done.
Qed.

Lemma AnalogSig_pin_Ok arg st r st' :
  AnalogSig arg (Some 1) st = Ok r st' ->
  exists a, r = SigRef a /\ is_pin st' arg a /\ extends st st' /\
            device_heap st' = device_heap st.
Proof.
  intros H.
  destruct (AnalogSig_pin _ _ _ _ _ H)
    as (a & s & -> & Hs & Hw & Hext & Hdev & Hname & Hsig & _).
  exists a. split; [done|]. split; [|done]. split; [by exists s|done].
Qed.

(** Assignment to an attribute of the device built last. *)
Lemma update_last_device f st h d u st' :
  device_heap st = h ++ [d] ->
  update_device (length h) f st = Ok u st' ->
  device_heap st' = h ++ [f d] /\ extends st st'.
Proof.
  intros Hh H. apply update_device_Ok in H as (d' & Hd & ->).
  rewrite Hh, list_lookup_middle in Hd by done. injection Hd as <-.
  split; [|apply extends_with_devices].
  simpl. rewrite Hh, insert_app_r_alt by done. by rewrite Nat.sub_diag.
Qed.

Ltac chain_extends :=
  repeat (eapply extends_trans; [eassumption|]); apply extends_refl.

Lemma ChipyPassive_init_Ok p module name sig1 sig2 value st self st' :
  ChipyPassive_init p module name sig1 sig2 value st = Ok self st' ->
  exists m a1 a2,
    let n := (named (ChipyPassive p) name st).1 in
    let st0 := add_device (new_device (ChipyPassive p) n module) module m
                 (named (ChipyPassive p) name st).2 in
    module_heap st !! module = Some m /\
    PyDict.get n (devices m) = None /\
    self = length (device_heap st) /\
    extends st0 st' /\
    device_heap st'
    = device_heap st ++
      [mkDevice (ChipyPassive p) n module (Some (SigRef a1)) (Some (SigRef a2))
         value None None None None None] /\
    is_pin st' sig1 a1 /\ is_pin st' sig2 a2.
Proof.
  intros H. unfold ChipyPassive_init in H.
  bind_inv H self0 st0 H0. bind_inv H s1 st1 H1. bind_inv H u2 st2 H2.
  bind_inv H s2 st3 H3. bind_inv H u4 st4 H4. bind_inv H u5 st5 H5.
  injection H as <- <-.
  apply ChipyDevice_init_Ok in H0 as (m & Hm & Hfree & -> & ->).
  apply AnalogSig_pin_Ok in H1 as (a1 & -> & P1 & E1 & D1).
  assert (D1' : device_heap st1
                = device_heap st ++
                  [new_device (ChipyPassive p)
                     (named (ChipyPassive p) name st).1 module]).
  { rewrite D1. by destruct name. }
  destruct (update_last_device _ _ _ _ _ _ D1' H2) as [D2 E2].
  apply AnalogSig_pin_Ok in H3 as (a2 & -> & P2 & E3 & D3).
  rewrite D2 in D3.
  destruct (update_last_device _ _ _ _ _ _ D3 H4) as [D4 E4].
  destruct (update_last_device _ _ _ _ _ _ D4 H5) as [D5 E5].
  exists m, a1, a2. simpl.
  split; [done|]. split; [done|]. split; [done|].
  split; [chain_extends|]. split; [done|].
  split; (eapply pin_extends; [eassumption|chain_extends]).
Qed.

Lemma ChipyTransistor_init_Ok module name c b e substrate model st self st' :
  ChipyTransistor_init module name c b e substrate model st = Ok self st' ->
  exists m ac ab ae asub,
    let n := (named ChipyTransistor name st).1 in
    let st0 := add_device (new_device ChipyTransistor n module) module m
                 (named ChipyTransistor name st).2 in
    module_heap st !! module = Some m /\
    PyDict.get n (devices m) = None /\
    self = length (device_heap st) /\
    extends st0 st' /\
    device_heap st'
    = device_heap st ++
      [mkDevice ChipyTransistor n module None None (PStr " ")
         (Some (SigRef ac)) (Some (SigRef ab)) (Some (SigRef ae))
         (Some (SigRef asub)) (Some model)] /\
    is_pin st' c ac /\ is_pin st' b ab /\ is_pin st' e ae /\ is_pin st' substrate asub.
Proof.
  intros H. unfold ChipyTransistor_init in H.
  bind_inv H self0 st0 H0.
  bind_inv H s1 st1 H1. bind_inv H u1 st2 H2.
  bind_inv H s2 st3 H3. bind_inv H u2 st4 H4.
  bind_inv H s3 st5 H5. bind_inv H u3 st6 H6.
  bind_inv H s4 st7 H7. bind_inv H u4 st8 H8.
  bind_inv H u5 st9 H9.
  injection H as <- <-.
  apply ChipyDevice_init_Ok in H0 as (m & Hm & Hfree & -> & ->).
  apply AnalogSig_pin_Ok in H1 as (ac & -> & P1 & E1 & D1).
  assert (D1' : device_heap st1
                = device_heap st ++
                  [new_device ChipyTransistor
                     (named ChipyTransistor name st).1 module]).
  { rewrite D1. by destruct name. }
  destruct (update_last_device _ _ _ _ _ _ D1' H2) as [D2 E2].
  apply AnalogSig_pin_Ok in H3 as (ab & -> & P2 & E3 & D3).
  rewrite D2 in D3.
  destruct (update_last_device _ _ _ _ _ _ D3 H4) as [D4 E4].
  apply AnalogSig_pin_Ok in H5 as (ae & -> & P3 & E5 & D5).
  rewrite D4 in D5.
  destruct (update_last_device _ _ _ _ _ _ D5 H6) as [D6 E6].
  apply AnalogSig_pin_Ok in H7 as (asub & -> & P4 & E7 & D7).
  rewrite D6 in D7.
  destruct (update_last_device _ _ _ _ _ _ D7 H8) as [D8 E8].
  destruct (update_last_device _ _ _ _ _ _ D8 H9) as [D9 E9].
  exists m, ac, ab, ae, asub. simpl.
  split; [done|]. split; [done|]. split; [done|].
  split; [chain_extends|]. split; [done|].
  split; [|split; [|split]];
    (eapply pin_extends; [eassumption|chain_extends]).
Qed.

(** ** [AddGnd] and [AddPower] *)

(** X8: when [AddGnd] returns, its result is a signal of width 1 whose
    [ground] flag is set, so that every device connected to it gets
    [eispice.GND] as its node; no other signal and no device is changed; and
    the call is idempotent: made again in the state it left, it returns the
    same signal and changes nothing. *)
Theorem AddGnd_grounds name st r st' :
  AddGnd name st = Ok r st' ->
  exists a s,
    r = RSig (SigRef a) /\
    signal_heap st' !! a = Some s /\
    sig_ground s = true /\ sig_width s = 1 /\
    getattr_eispice_model (Some (SigRef a)) st' = Val GND /\
    (forall b s0, b <> a -> signal_heap st !! b = Some s0 ->
                  signal_heap st' !! b = Some s0) /\
    device_heap st' = device_heap st /\
    AddGnd name st' = Ok r st'.
Proof.
  intros H. unfold AddGnd in H.
  bind_inv H u0 st0 H0. bind_inv H module st1 H1. bind_inv H sg st2 H2.
  bind_inv H u3 st3 H3. injection H as <- <-.
  apply assert_context_Ok in H0 as [_ ->].
  apply current_module_Ok in H1 as [Hc ->].
  assert (Hsig := H2).
  apply AnalogSig_pin in H2
    as (a & s & -> & Hs & Hw & Hext & Hdev & _ & _ & _).
  simpl in H3. apply update_signal_Ok in H3 as (s' & Hs' & ->).
  assert (s' = s) as -> by congruence.
  assert (Hlt : (a < length (signal_heap st2))%nat) by by eapply lookup_lt_Some.
  destruct Hext as (Hctx & _ & _ & Hkept & _).
  exists a, (set_ground true s).
  split; [done|]. split; [simpl; by rewrite list_lookup_insert_eq|].
  split; [done|]. split; [done|]. split.
  { unfold getattr_eispice_model. M_eval. simpl.
    by rewrite list_lookup_insert_eq. }
  split.
  { intros b s0 Hb Hs0. simpl. rewrite list_lookup_insert_ne by done. auto. }
  split; [done|].
  unfold AddGnd.
  rewrite (M_bind_step _ _ _ tt (with_signals (<[a:=set_ground true s]>) st2))
    by (apply (assert_context_step _ module); simpl; congruence).
  rewrite (M_bind_step _ _ _ module
             (with_signals (<[a:=set_ground true s]>) st2))
    by (apply current_module_step; simpl; congruence).
  rewrite (M_bind_step _ _ _ (SigRef a)
             (with_signals (<[a:=set_ground true s]>) st2)).
  2:{ eapply (AnalogSig_pin_again _ _ _ _ _ _ (set_ground true s) Hsig);
        try done. simpl. by rewrite list_lookup_insert_eq. }
  simpl. unfold mbind, M_bind. rewrite update_signal_eq. simpl.
  rewrite list_lookup_insert_eq by done.
  unfold mret, M_ret, with_signals. simpl. do 2 f_equal.
  by rewrite list_insert_insert_eq.
Qed.

Lemma AddGnd_grounds_witness :
  exists a s,
    signal_heap (state_of (AddGnd (ArgStr "0") one_module_state)) !! a = Some s /\
    sig_ground s = true /\
    getattr_eispice_model (Some (SigRef a))
      (state_of (AddGnd (ArgStr "0") one_module_state)) = Val GND.
Proof.
  destruct (AddGnd_grounds (ArgStr "0") one_module_state (RSig (SigRef 0))
              (state_of (AddGnd (ArgStr "0") one_module_state)))
    as (a & s & _ & Hs & Hg & _ & He & _).
  - vm_compute. reflexivity.
  - exists a, s. repeat split; assumption.
Defined.

(** X9: a supply can be declared once per module: after [AddPower] has
    returned, every further [AddPower] with that name, whatever the value,
    raises [AssertionError] (the voltage source of that name is registered)
    and leaves the state as it was. *)
Theorem AddPower_twice name value st r st' :
  AddPower name value st = Ok r st' ->
  forall value', AddPower name value' st' = Raise AssertionError st'.
Proof.
  intros H value'. unfold AddPower in H.
  bind_inv H u0 st0 H0. bind_inv H module st1 H1. bind_inv H vs st2 H2.
  bind_inv H sig1 st3 H3. bind_inv H u4 st4 H4. bind_inv H u5 st5 H5.
  injection H as <- <-.
  apply assert_context_Ok in H0 as [_ ->].
  apply current_module_Ok in H1 as [Hc ->].
  apply read_Ok in H3 as [_ ->].
  apply ChipyPassive_init_Ok in H2
    as (m & a1 & a2 & Hm & Hfree & -> & Hext & Hdev & P1 & P2).
  simpl in Hext, Hfree.
  destruct Hext as (Hctx & _ & _ & _ & Hmods).
  destruct (Hmods module (set_devices (PyDict.set name (length (device_heap st))) m))
    as (m2 & Hm2 & _ & Hd2 & _).
  { simpl. rewrite list_lookup_insert_eq; [done|]. by eapply lookup_lt_Some. }
  assert (Hc5 : ChipyCurrentContext st5 = Some module /\
                module_heap st5 = module_heap st2).
  { destruct sig1 as [a]; simpl in H4, H5.
    apply update_signal_Ok in H4 as (s4 & _ & ->).
    apply update_signal_Ok in H5 as (s5 & _ & ->). simpl.
    split; [|done]. rewrite Hctx. done. }
  destruct Hc5 as [Hc5 Hm5].
  unfold AddPower.
  rewrite (M_bind_step _ _ _ tt st5) by by apply (assert_context_step _ module).
  rewrite (M_bind_step _ _ _ module st5) by by apply current_module_step.
  apply M_bind_Raise_step. unfold ChipyPassive_init. apply M_bind_Raise_step.
  rewrite ChipyDevice_init_eq. simpl. rewrite Hm5, Hm2.
  assert (PyDict.contains name (devices m2) = true) as ->; [|done].
  apply dict_contains_true. rewrite Hd2. simpl. rewrite dict_get_set_eq. done.
Qed.

Lemma AddPower_twice_witness :
  AddPower "VCC" (PInt 12)
    (state_of (AddPower "VCC" (PInt 5) one_module_state))
  = Raise AssertionError (state_of (AddPower "VCC" (PInt 5) one_module_state)).
Proof.
  apply (AddPower_twice "VCC" (PInt 5) one_module_state (RSig (SigRef 0))).
  vm_compute. reflexivity.
Defined.

(** X10: in a reachable state, when [AddPower(name, value)] returns, its
    result is the signal registered under [name] in the current module, of
    width 1, with [power] set and [power_value = value]; a voltage source
    named [name] between that signal and the signal named ['0'] is
    registered in the module; and the netlist of the module has under
    [name] the power cell of the signal, with the pin [VCC], and no port:
    the voltage source itself, having no skin, gives no cell. *)
Theorem AddPower_rail name value st r st' :
  reachable st ->
  AddPower name value st = Ok r st' ->
  exists module m' a a0 s ports cells,
    ChipyCurrentContext st = Some module /\
    r = RSig (SigRef a) /\
    signal_heap st' !! a = Some s /\
    sig_power s = true /\ sig_power_value s = value /\ sig_width s = 1 /\
    module_heap st' !! module = Some m' /\
    PyDict.get name (signals m') = Some a /\
    PyDict.get name (devices m') = Some (length (device_heap st)) /\
    device_heap st'
    = device_heap st ++
      [mkDevice (ChipyPassive ChipyVoltageSource) name module
         (Some (SigRef a)) (Some (SigRef a0)) value None None None None None] /\
    is_pin st' (ArgStr "0") a0 /\
    netlist module st'
    = Val (PDict [("ports", PDict ports); ("cells", PDict cells)]) /\
    PyDict.get name cells
    = Some (PDict (yosys_cell "power" [("VCC", sig_id s)] (PStr name))) /\
    PyDict.get name ports = None.
Proof.
  intros Hr Hrun.
  assert (Hr' : reachable st').
  { eapply (reachable_call (CallAddPower name value)); [exact Hr|exact Hrun]. }
  assert (H := Hrun). unfold AddPower in H.
  bind_inv H u0 st0 H0. bind_inv H module st1 H1. bind_inv H vs st2 H2.
  bind_inv H sig1 st3 H3. bind_inv H u4 st4 H4. bind_inv H u5 st5 H5.
  injection H as <- <-.
  apply assert_context_Ok in H0 as [_ ->].
  apply current_module_Ok in H1 as [Hc ->].
  apply read_Ok in H3 as [H3 ->].
  apply ChipyPassive_init_Ok in H2
    as (m & a1 & a2 & Hm & Hfree & -> & Hext & Hdev & P1 & P2).
  simpl in Hext, Hfree, Hdev.
  unfold getattr_sig1 in H3. apply R_bind_Val in H3 as (d & Hd & H3).
  apply load_device_Val in Hd. rewrite Hdev, list_lookup_middle in Hd by done.
  injection Hd as <-. simpl in H3. injection H3 as <-.
  simpl in H4, H5.
  apply update_signal_Ok in H4 as (s1 & Hs1 & ->).
  apply update_signal_Ok in H5 as (s2 & Hs2 & ->).
  assert (Hlt : (a1 < length (signal_heap st2))%nat) by by eapply lookup_lt_Some.
  simpl in Hs2. rewrite list_lookup_insert_eq in Hs2 by done.
  injection Hs2 as <-.
  destruct P1 as ((s1' & Hs1' & Hw1) & Hreg & _).
  assert (s1' = s1) as -> by congruence.
  destruct (Hreg name eq_refl) as (module' & m2 & Hc2 & Hm2 & Hget).
  destruct Hext as (Hctx & _ & _ & _ & Hmods). simpl in Hctx.
  assert (module' = module) as -> by congruence.
  destruct (Hmods module (set_devices (PyDict.set name (length (device_heap st))) m))
    as (m2' & Hm2' & _ & Hd2 & _).
  { simpl. rewrite list_lookup_insert_eq; [done|]. by eapply lookup_lt_Some. }
  assert (m2' = m2) as -> by congruence.
  set (s := set_power_value value (set_power true s1)).
  set (st' := with_signals _ (with_signals _ st2)) in *.
  assert (Hs : signal_heap st' !! a1 = Some s).
  { unfold st'. simpl. rewrite list_lookup_insert_eq; [done|].
    by rewrite length_insert. }
  destruct (netlist_lookup st' module m2 (reachable_inv _ Hr') Hm2)
    as (dc & ports & cells & _ & Hn & _ & Hports & Hcells).
  exists module, m2, a1, a2, s, ports, cells.
  split; [done|]. split; [done|]. split; [done|].
  split; [done|]. split; [done|]. split; [done|].
  split; [done|]. split; [done|]. split.
  { rewrite Hd2. simpl. by rewrite dict_get_set_eq. }
  split; [done|]. split.
  { destruct P2 as ((s0 & Hs0 & Hw0) & Hreg0 & Hsig0).
    split; [|split; [exact Hreg0|exact Hsig0]].
    destruct (decide (a2 = a1)) as [->|Hne].
    - exists s. split; [done|]. assert (s0 = s1) as -> by congruence. done.
    - exists s0. split; [|done]. unfold st'. simpl.
      by rewrite !list_lookup_insert_ne. }
  split; [done|]. split.
  - by rewrite Hcells, Hget, Hs.
  - by rewrite Hports, Hget, Hs.
Qed.

Lemma AddPower_rail_witness :
  exists ports cells,
    netlist 0 (state_of (AddPower "VCC" (PInt 5) one_module_state))
    = Val (PDict [("ports", PDict ports); ("cells", PDict cells)]) /\
    PyDict.get "VCC" ports = None /\
    is_Some (PyDict.get "VCC" cells).
Proof.
  destruct (AddPower_rail "VCC" (PInt 5) one_module_state (RSig (SigRef 0))
              (state_of (AddPower "VCC" (PInt 5) one_module_state))
              one_module_reachable)
    as (module & m' & a & a0 & s & ports & cells & Hc & _ & _ & _ & _ & _ & _
        & _ & _ & _ & _ & Hn & Hcell & Hport).
  - vm_compute. reflexivity.
  - injection Hc as <-. exists ports, cells. rewrite Hcell. by eauto.
Defined.

(** ** [AddR], [AddC] and [AddQ] *)

Lemma ChipyPassive_init_added p skin module sig1 sig2 value st self st' :
  ChipyCurrentContext st = Some module -> inv None st' ->
  Skin (ChipyPassive p) = Some skin ->
  ChipyPassive_init p module None sig1 sig2 value st = Ok self st' ->
  passive_added p skin sig1 sig2 value st st'.
Proof.
  intros Hc Hinv Hskin H.
  apply ChipyPassive_init_Ok in H
    as (m & a1 & a2 & Hm & Hfree & -> & Hext & Hdev & P1 & P2).
  simpl in Hfree, Hext, Hdev.
  destruct Hext as (_ & _ & Hid & Hsigs & Hmods). simpl in Hid, Hsigs.
  destruct (Hmods module
              (set_devices
                 (PyDict.set (RefDes (ChipyPassive p)
                              ++ pretty (IdCount st (ChipyPassive p) + 1))%string
                    (length (device_heap st))) m))
    as (m' & Hm' & _ & Hd' & Hk').
  { simpl. rewrite list_lookup_insert_eq; [done|]. by eapply lookup_lt_Some. }
  simpl in Hd', Hk'. rewrite dict_set_fresh in Hd' by done.
  destruct (netlist_lookup st' module m' Hinv Hm')
    as (dc & ports & cells & _ & Hn & Hdc & _ & Hcells).
  destruct P1 as ((s1 & Hs1 & Hw1) & Hr1 & Ha1).
  destruct P2 as ((s2 & Hs2 & Hw2) & Hr2 & Ha2).
  exists module, m, m', a1, a2, s1, s2, ports, cells. simpl.
  split; [done|]. split; [done|]. split; [done|]. split; [done|].
  split; [done|]. split; [done|].
  split; [rewrite Hid; by rewrite decide_True|].
  split; [split; [by exists s1|by split]|].
  split; [split; [by exists s2|by split]|].
  split; [done|]. split; [done|]. split; [done|]. split; [done|].
  split; [done|]. split.
  - intros Hnone. rewrite Hcells, Hnone, Hdc, Hd'.
    rewrite <- (dict_set_fresh _ (length (device_heap st)) _ Hfree).
    rewrite dict_get_set_eq.
    unfold device_cell. M_eval. rewrite Hdev, list_lookup_middle by done.
    simpl in Hskin |- *. rewrite Hskin. unfold connections, getattr_id. simpl.
    M_eval. by rewrite Hs1, Hs2.
  - unfold device_eispice_model, getattr_eispice_model. simpl. M_eval.
    by rewrite Hs1, Hs2.
Qed.

Lemma ChipyTransistor_init_added module c b e substrate model st self st' :
  ChipyCurrentContext st = Some module -> inv None st' ->
  ChipyTransistor_init module None c b e substrate model st = Ok self st' ->
  transistor_added c b e substrate model st st'.
Proof.
  intros Hc Hinv H.
  apply ChipyTransistor_init_Ok in H
    as (m & ac & ab & ae & asub & Hm & Hfree & -> & Hext & Hdev
        & P1 & P2 & P3 & P4).
  simpl in Hfree, Hext, Hdev.
  destruct Hext as (_ & _ & Hid & Hsigs & Hmods). simpl in Hid, Hsigs.
  destruct (Hmods module
              (set_devices
                 (PyDict.set ("Q" ++ pretty (IdCount st ChipyTransistor + 1))%string
                    (length (device_heap st))) m))
    as (m' & Hm' & _ & Hd' & Hk').
  { simpl. rewrite list_lookup_insert_eq; [done|]. by eapply lookup_lt_Some. }
  simpl in Hd', Hk'. rewrite dict_set_fresh in Hd' by done.
  destruct (netlist_lookup st' module m' Hinv Hm')
    as (dc & ports & cells & _ & Hn & Hdc & _ & Hcells).
  assert (P1' := P1). assert (P2' := P2). assert (P3' := P3).
  destruct P1' as ((s1 & Hs1 & _) & _ & _).
  destruct P2' as ((s2 & Hs2 & _) & _ & _).
  destruct P3' as ((s3 & Hs3 & _) & _ & _).
  exists module, m, m', ac, ab, ae, asub, s1, s2, s3, ports, cells. simpl.
  split; [done|]. split; [done|]. split; [done|]. split; [done|].
  split; [done|]. split; [done|].
  split; [rewrite Hid; by rewrite decide_True|].
  split; [done|]. split; [done|]. split; [done|]. split; [done|].
  split; [done|]. split; [done|]. split; [done|]. split; [done|].
  split; [done|]. split; [done|]. split.
  - intros Hnone. rewrite Hcells, Hnone, Hdc, Hd'.
    rewrite <- (dict_set_fresh _ (length (device_heap st)) _ Hfree).
    rewrite dict_get_set_eq.
    unfold device_cell. M_eval. rewrite Hdev, list_lookup_middle by done.
    simpl. unfold connections, getattr_id. simpl.
    M_eval. by rewrite Hs1, Hs2, Hs3.
  - unfold device_eispice_model, getattr_eispice_model. simpl. M_eval.
    by rewrite Hs1, Hs2, Hs3.
Qed.

(** X11: in a reachable state, when [AddR] (resp. [AddC]) returns, it
    returns [None] and has registered in the current module one resistor
    (resp. capacitor) under the next designator [R<n>] (resp. [C<n>]), which
    was free; its two pins are the signals [AnalogSig] gives for the two
    arguments, of width 1, existing signals being reused, not changed, and
    missing ones created; the netlist of the module has the cell of the
    device, with pins [L] and [R] on the ids of the two signals and the
    value given, unless a signal of the module has the designator as its
    name; and the eispice element of the device joins the nodes of the two
    signals. *)
Theorem AddR_AddC_connect sig1 sig2 value st r st' :
  reachable st ->
  (AddR sig1 sig2 value st = Ok r st' ->
   r = RNone /\
   passive_added ChipyResistor "resistor" sig1 sig2 value st st') /\
  (AddC sig1 sig2 value st = Ok r st' ->
   r = RNone /\
   passive_added ChipyCapacitor "capacitor" sig1 sig2 value st st').
Proof.
  intros Hr. split; intros Hrun.
  - assert (Hinv : inv None st').
    { apply reachable_inv.
      eapply (reachable_call (CallAddR sig1 sig2 value)); [exact Hr|exact Hrun]. }
    unfold AddR in Hrun.
    bind_inv Hrun u0 st0 H0. bind_inv Hrun module st1 H1.
    bind_inv Hrun self st2 H2. injection Hrun as <- <-.
    apply assert_context_Ok in H0 as [_ ->].
    apply current_module_Ok in H1 as [Hc ->].
    split; [done|]. by eapply ChipyPassive_init_added.
  - assert (Hinv : inv None st').
    { apply reachable_inv.
      eapply (reachable_call (CallAddC sig1 sig2 value)); [exact Hr|exact Hrun]. }
    unfold AddC in Hrun.
    bind_inv Hrun u0 st0 H0. bind_inv Hrun module st1 H1.
    bind_inv Hrun self st2 H2. injection Hrun as <- <-.
    apply assert_context_Ok in H0 as [_ ->].
    apply current_module_Ok in H1 as [Hc ->].
    split; [done|]. by eapply ChipyPassive_init_added.
Qed.

Lemma AddR_AddC_connect_witness :
  passive_added ChipyResistor "resistor" (ArgStr "a") (ArgStr "b") (PInt 1000)
    one_module_state
    (state_of (AddR (ArgStr "a") (ArgStr "b") (PInt 1000) one_module_state)).
Proof.
  apply (AddR_AddC_connect (ArgStr "a") (ArgStr "b") (PInt 1000)
           one_module_state RNone
           (state_of (AddR (ArgStr "a") (ArgStr "b") (PInt 1000)
                        one_module_state)) one_module_reachable).
  vm_compute. reflexivity.
Defined.

(** X12: in a reachable state, when [AddQ] returns, it returns [None] and has
    registered one transistor under the next designator [Q<n>]; collector,
    base, emitter and substrate are the signals [AnalogSig] gives for the
    arguments, the model is the keyword dictionary; the cell of the netlist
    has the pins [C], [B] and [E], not the substrate, and carries the class
    default [' '] as its value; the eispice element joins the nodes of
    collector, base and emitter. *)
Theorem AddQ_connects c b e substrate model st r st' :
  reachable st ->
  AddQ c b e substrate model st = Ok r st' ->
  r = RNone /\ transistor_added c b e substrate model st st'.
Proof.
  intros Hr Hrun.
  assert (Hinv : inv None st').
  { apply reachable_inv.
    eapply (reachable_call (CallAddQ c b e substrate model));
      [exact Hr|exact Hrun]. }
  unfold AddQ in Hrun.
  bind_inv Hrun u0 st0 H0. bind_inv Hrun module st1 H1.
  bind_inv Hrun self st2 H2. injection Hrun as <- <-.
  apply assert_context_Ok in H0 as [_ ->].
  apply current_module_Ok in H1 as [Hc ->].
  split; [done|]. by eapply ChipyTransistor_init_added.
Qed.

Lemma AddQ_connects_witness :
  transistor_added (ArgStr "out") (ArgStr "bias") (ArgStr "0") (ArgStr "0") []
    one_module_state
    (state_of (AddQ (ArgStr "out") (ArgStr "bias") (ArgStr "0") (ArgStr "0") []
                 one_module_state)).
Proof.
  apply (AddQ_connects (ArgStr "out") (ArgStr "bias") (ArgStr "0") (ArgStr "0")
           [] one_module_state RNone
           (state_of (AddQ (ArgStr "out") (ArgStr "bias") (ArgStr "0")
                        (ArgStr "0") [] one_module_state))
           one_module_reachable).
  vm_compute. reflexivity.
Defined.

(** ** What no call undoes *)

Section Preserves.
Context (Rel : state -> state -> Prop).
Hypothesis Rel_refl : forall st, Rel st st.
Hypothesis Rel_trans : forall st1 st2 st3, Rel st1 st2 -> Rel st2 st3 -> Rel st1 st3.

Lemma preserves_bind {A B} (m : M A) (f : A -> M B) :
  preserves Rel m -> (forall a, preserves Rel (f a)) -> preserves Rel (m ≫= f).
Proof.
  intros Hm Hf st. specialize (Hm st). unfold mbind, M_bind.
  destruct (m st) as [a st1|e st1]; simpl in *; [|done].
  eapply Rel_trans; [exact Hm|apply Hf].
Qed.

Lemma preserves_ret {A} (a : A) : preserves Rel (mret a).
Proof. intros st. apply Rel_refl. Qed.

Lemma preserves_raise {A} e : preserves Rel (@raise A e).
Proof. intros st. apply Rel_refl. Qed.

Lemma preserves_read {A} (r : R A) : preserves Rel (read r).
Proof. intros st. unfold read. destruct (r st); apply Rel_refl. Qed.

Lemma preserves_assert b : preserves Rel (assert b).
Proof. intros st. destruct b; apply Rel_refl. Qed.

Lemma preserves_assert_context : preserves Rel assert_context.
Proof.
  intros st. unfold assert_context. M_eval.
  destruct (ChipyCurrentContext st); apply Rel_refl.
Qed.

Lemma preserves_current_module : preserves Rel current_module.
Proof.
  intros st. unfold current_module.
  destruct (ChipyCurrentContext st); apply Rel_refl.
Qed.

Lemma preserves_comprehension {A B} (f : A -> M B) xs :
  (forall x, preserves Rel (f x)) -> preserves Rel (comprehension f xs).
Proof.
  intros Hf. induction xs as [|x xs IH]; simpl; [apply preserves_ret|].
  apply preserves_bind; [done|]. intros y.
  apply preserves_bind; [done|]. intros ys. apply preserves_ret.
Qed.

Lemma preserves_setattr_signal x f :
  (forall a, preserves Rel (update_signal a f)) ->
  preserves Rel (setattr_signal x f).
Proof. intros H. destruct x; simpl. apply H. Qed.

End Preserves.

Lemma grows_refl st : grows st st.
Proof.
  split; [done|]. split; [intros b m Hm; by exists m|].
  split; [intros a s Hs; by exists s|].
  split; [intros a d Hd; by exists d|]. split; [lia|]. intros cls. lia.
Qed.

Lemma grows_trans st1 st2 st3 : grows st1 st2 -> grows st2 st3 -> grows st1 st3.
Proof.
  intros (D1 & M1 & S1 & V1 & I1 & C1) (D2 & M2 & S2 & V2 & I2 & C2).
  split; [intros k e H; by apply D2, D1|]. split.
  { intros b m Hm. destruct (M1 _ _ Hm) as (m' & Hm' & Hn' & Hs' & Hd').
    destruct (M2 _ _ Hm') as (m'' & Hm'' & Hn'' & Hs'' & Hd'').
    exists m''. split; [done|]. split; [congruence|]. split.
    - intros k Hk. by apply Hs'', Hs'.
    - intros k a Hk. by apply Hd'', Hd'. }
  split.
  { intros a s Hs. destruct (S1 _ _ Hs) as (s' & Hs' & ? & ? & ?).
    destruct (S2 _ _ Hs') as (s'' & Hs'' & ? & ? & ?).
    exists s''. split; [done|]. split; [congruence|]. split; congruence. }
  split.
  { intros a d Hd. destruct (V1 _ _ Hd) as (d' & Hd' & ? & ? & ?).
    destruct (V2 _ _ Hd') as (d'' & Hd'' & ? & ? & ?).
    exists d''. split; [done|]. split; [congruence|]. split; congruence. }
  split; [lia|]. intros cls. specialize (C1 cls). specialize (C2 cls). lia.
Qed.

(** The parts of [grows] for states that share components. *)
Lemma grows_parts st st' :
  (forall k e, PyDict.get k (ChipyModulesDict st) = Some e ->
               PyDict.get k (ChipyModulesDict st') = Some e) ->
  (forall b m, module_heap st !! b = Some m ->
     exists m', module_heap st' !! b = Some m' /\ mod_name m' = mod_name m /\
       (forall k, is_Some (PyDict.get k (signals m)) ->
                  is_Some (PyDict.get k (signals m'))) /\
       (forall k a, PyDict.get k (devices m) = Some a ->
                    PyDict.get k (devices m') = Some a)) ->
  (forall a s, signal_heap st !! a = Some s ->
     exists s', signal_heap st' !! a = Some s' /\ sig_id s' = sig_id s /\
                sig_name s' = sig_name s /\ sig_module s' = sig_module s) ->
  (forall a d, device_heap st !! a = Some d ->
     exists d', device_heap st' !! a = Some d' /\ dev_class d' = dev_class d /\
                dev_name d' = dev_name d /\ dev_module d' = dev_module d) ->
  SigId st <= SigId st' ->
  (forall cls, IdCount st cls <= IdCount st' cls) ->
  grows st st'.
Proof. by repeat split. Qed.

Lemma modules_same st st' :
  module_heap st' = module_heap st ->
  forall b m, module_heap st !! b = Some m ->
    exists m', module_heap st' !! b = Some m' /\ mod_name m' = mod_name m /\
      (forall k, is_Some (PyDict.get k (signals m)) ->
                 is_Some (PyDict.get k (signals m'))) /\
      (forall k a, PyDict.get k (devices m) = Some a ->
                   PyDict.get k (devices m') = Some a).
Proof. intros -> b m Hm. by exists m. Qed.

Lemma modules_insert (h : list ChipyAnalogModule) (module : nat) m0 m1 :
  h !! module = Some m0 -> mod_name m1 = mod_name m0 ->
  (forall k, is_Some (PyDict.get k (signals m0)) ->
             is_Some (PyDict.get k (signals m1))) ->
  (forall k a, PyDict.get k (devices m0) = Some a ->
               PyDict.get k (devices m1) = Some a) ->
  forall b m, h !! b = Some m ->
    exists m', <[module := m1]> h !! b = Some m' /\ mod_name m' = mod_name m /\
      (forall k, is_Some (PyDict.get k (signals m)) ->
                 is_Some (PyDict.get k (signals m'))) /\
      (forall k a, PyDict.get k (devices m) = Some a ->
                   PyDict.get k (devices m') = Some a).
Proof.
  intros H0 Hn Hs Hd b m Hm. destruct (decide (b = module)) as [->|Hne].
  - exists m1. rewrite list_lookup_insert_eq by (by eapply lookup_lt_Some).
    assert (m = m0) as -> by congruence. done.
  - exists m. by rewrite list_lookup_insert_ne.
Qed.

Lemma signals_same st st' :
  signal_heap st' = signal_heap st ->
  forall a s, signal_heap st !! a = Some s ->
    exists s', signal_heap st' !! a = Some s' /\ sig_id s' = sig_id s /\
               sig_name s' = sig_name s /\ sig_module s' = sig_module s.
Proof. intros -> a s Hs. by exists s. Qed.

Lemma signals_app (h l : list ChipyAnalogSignal) :
  forall a s, h !! a = Some s ->
    exists s', (h ++ l) !! a = Some s' /\ sig_id s' = sig_id s /\
               sig_name s' = sig_name s /\ sig_module s' = sig_module s.
Proof. intros a s Hs. exists s. split; [by apply lookup_app_l_Some|done]. Qed.

Lemma devices_same st st' :
  device_heap st' = device_heap st ->
  forall a d, device_heap st !! a = Some d ->
    exists d', device_heap st' !! a = Some d' /\ dev_class d' = dev_class d /\
               dev_name d' = dev_name d /\ dev_module d' = dev_module d.
Proof. intros -> a d Hd. by exists d. Qed.

Lemma devices_app (h l : list ChipyDevice) :
  forall a d, h !! a = Some d ->
    exists d', (h ++ l) !! a = Some d' /\ dev_class d' = dev_class d /\
               dev_name d' = dev_name d /\ dev_module d' = dev_module d.
Proof. intros a d Hd. exists d. split; [by apply lookup_app_l_Some|done]. Qed.

Lemma dict_set_is_Some {V} (k k' : string) (v : V) d :
  is_Some (PyDict.get k' d) -> is_Some (PyDict.get k' (PyDict.set k v d)).
Proof. intros H. rewrite dict_get_set. by case_decide. Qed.

Lemma dict_set_kept {V} (k k' : string) (v x : V) d :
  PyDict.get k d = None -> PyDict.get k' d = Some x ->
  PyDict.get k' (PyDict.set k v d) = Some x.
Proof. intros Hk H. rewrite dict_get_set. case_decide; [congruence|done]. Qed.

Lemma grows_update_signal a f :
  (forall s, sig_id (f s) = sig_id s) ->
  (forall s, sig_name (f s) = sig_name s) ->
  (forall s, sig_module (f s) = sig_module s) ->
  preserves grows (update_signal a f).
Proof.
  intros H1 H2 H3 st. rewrite update_signal_eq.
  destruct (signal_heap st !! a) as [s|] eqn:Hs; [|apply grows_refl]. simpl.
  apply grows_parts; simpl; try done; try lia.
  - by apply modules_same.
  - intros b s0 Hb. destruct (decide (b = a)) as [->|Hne].
    + exists (f s). rewrite list_lookup_insert_eq by (by eapply lookup_lt_Some).
      assert (s0 = s) as -> by congruence. by rewrite H1, H2, H3.
    + exists s0. by rewrite list_lookup_insert_ne.
  - by apply devices_same.
Qed.

Lemma grows_update_device a f :
  (forall d, dev_class (f d) = dev_class d) ->
  (forall d, dev_name (f d) = dev_name d) ->
  (forall d, dev_module (f d) = dev_module d) ->
  preserves grows (update_device a f).
Proof.
  intros H1 H2 H3 st. rewrite update_device_eq.
  destruct (device_heap st !! a) as [d|] eqn:Hd; [|apply grows_refl]. simpl.
  apply grows_parts; simpl; try done; try lia.
  - by apply modules_same.
  - by apply signals_same.
  - intros b d0 Hb. destruct (decide (b = a)) as [->|Hne].
    + exists (f d). rewrite list_lookup_insert_eq by (by eapply lookup_lt_Some).
      assert (d0 = d) as -> by congruence. by rewrite H1, H2, H3.
    + exists d0. by rewrite list_lookup_insert_ne.
Qed.

Lemma grows_ChipyAnalogModule_init name :
  preserves grows (ChipyAnalogModule_init name).
Proof.
  intros st. rewrite ChipyAnalogModule_init_eq.
  destruct (PyDict.contains name (ChipyModulesDict st)) eqn:Hc;
    [apply grows_refl|].
  apply dict_contains_false in Hc. simpl.
  apply grows_parts; simpl; try done; try lia.
  - intros k e Hk. by apply dict_set_kept.
  - intros b m Hm. exists m. split; [by apply lookup_app_l_Some|done].
  - by apply signals_same.
  - by apply devices_same.
Qed.

Lemma grows_ChipyAnalogSignal_init module name :
  preserves grows (ChipyAnalogSignal_init module name).
Proof.
  intros st. rewrite ChipyAnalogSignal_init_eq.
  destruct (module_heap st !! module) as [m|] eqn:Hm; [|apply grows_refl].
  simpl. apply grows_parts; simpl; try done; try lia.
  - apply (modules_insert _ _ m); try done.
    intros k Hk. simpl. by apply dict_set_is_Some.
  - apply signals_app.
  - by apply devices_same.
Qed.

Lemma grows_with_IdCount cls st :
  grows st (with_IdCount cls (IdCount st cls + 1) st).
Proof.
  apply grows_parts; simpl; try done; try lia.
  - by apply modules_same.
  - by apply signals_same.
  - by apply devices_same.
  - intros c. case_decide; [subst|]; lia.
Qed.

Lemma grows_named cls name st : grows st (named cls name st).2.
Proof. destruct name; simpl; [apply grows_refl|apply grows_with_IdCount]. Qed.

Lemma grows_ChipyDevice_init cls module name :
  preserves grows (ChipyDevice_init cls module name).
Proof.
  intros st. rewrite ChipyDevice_init_eq.
  assert (Hn := grows_named cls name st).
  destruct (named cls name st) as [n st1] eqn:Hnamed. simpl in Hn.
  assert (Hh : module_heap st1 = module_heap st /\
               signal_heap st1 = signal_heap st /\
               device_heap st1 = device_heap st).
  { destruct name; injection Hnamed as _ <-; done. }
  destruct Hh as (Hh1 & Hh2 & Hh3).
  destruct (module_heap st !! module) as [m|] eqn:Hm; [|done].
  destruct (PyDict.contains n (devices m)) eqn:Hc; [done|].
  apply dict_contains_false in Hc. simpl.
  eapply grows_trans; [exact Hn|].
  apply grows_parts; simpl; try done; try lia.
  - rewrite Hh1. apply (modules_insert _ _ m); try done.
    intros k a Hk. simpl. by apply dict_set_kept.
  - rewrite Hh2. intros a s Hs. by exists s.
  - rewrite Hh3. apply devices_app.
Qed.

Lemma grows_AnalogSig arg width : preserves grows (AnalogSig arg width).
Proof.
  intros st. destruct (AnalogSig arg width st) as [r st'|e st'] eqn:H; simpl.
  - destruct arg as [a|l|name|].
    + rewrite AnalogSig_signal_eq in H.
      destruct (signal_heap st !! a) as [s|]; [|done].
      destruct (width_ok s width); [|done].
      injection H as _ <-. apply grows_refl.
    + rewrite AnalogSig_seq_eq in H. by destruct width.
    + rewrite AnalogSig_str_eq in H.
      destruct (ChipyCurrentContext st) as [module|] eqn:Hc; [|done].
      destruct (module_heap st !! module) as [m|] eqn:Hm; [|done].
      destruct (PyDict.get name (signals m)) as [a|] eqn:Hget.
      * destruct (signal_heap st !! a) as [s|]; [|done].
        destruct (width_ok s width); [|done].
        injection H as _ <-. apply grows_refl.
      * injection H as _ <-.
        apply grows_parts; simpl; try done; try lia.
        -- apply (modules_insert _ _ m); try done.
           intros k Hk. simpl. by apply dict_set_is_Some.
        -- apply signals_app.
        -- by apply devices_same.
    + done.
  - apply AnalogSig_Raise in H as ->. apply grows_refl.
Qed.

Ltac grows_steps :=
  repeat first
    [ apply preserves_ret; apply grows_refl
    | apply preserves_raise; apply grows_refl
    | apply preserves_read; apply grows_refl
    | apply preserves_assert; apply grows_refl
    | apply preserves_assert_context; apply grows_refl
    | apply preserves_current_module; apply grows_refl
    | apply grows_AnalogSig
    | apply grows_ChipyDevice_init | apply grows_ChipyAnalogSignal_init
    | apply grows_ChipyAnalogModule_init
    | apply grows_update_device; done
    | apply grows_update_signal; done
    | apply preserves_setattr_signal; intros ?; apply grows_update_signal; done
    | apply preserves_bind; [apply grows_trans| |intros ?] ].

Lemma grows_AddDigitalInput fuel : forall name type high_value low_value,
  preserves grows (AddDigitalInput fuel name type high_value low_value).
Proof.
  induction fuel as [|fuel IH]; intros name type hv lv; simpl; [grows_steps|].
  destruct (1 <? length (split name))%nat.
  - apply preserves_bind; [apply grows_trans| |intros; grows_steps].
    apply preserves_comprehension; [apply grows_refl|apply grows_trans|done].
  - apply preserves_bind; [apply grows_trans|grows_steps|intros _].
    destruct type; grows_steps.
Qed.

Lemma grows_AddAnalogOutput fuel : forall name type,
  preserves grows (AddAnalogOutput fuel name type).
Proof.
  induction fuel as [|fuel IH]; intros name type; simpl; [grows_steps|].
  destruct (1 <? length (split name))%nat.
  - apply preserves_bind; [apply grows_trans| |intros; grows_steps].
    apply preserves_comprehension; [apply grows_refl|apply grows_trans|done].
  - apply preserves_bind; [apply grows_trans|grows_steps|intros _].
    destruct type; grows_steps.
Qed.

(** X13: no call, whether it returns or raises, removes, renames or
    renumbers anything: entries of [ChipyModulesDict] stay; every module
    keeps its name, the names of its [signals] registry and the entries of
    its [devices] registry; every signal keeps its id, name and module;
    every device keeps its class, name and module; and no counter
    decreases.  (A call that hands a sequence to [chipy.Concat] is followed
    up to that call.) *)
Theorem nothing_removed c st : grows st (state_of (run c st)).
Proof.
  revert st. change (preserves grows (run c)).
  destruct c; simpl;
    try apply grows_AddDigitalInput; try apply grows_AddAnalogOutput;
    unfold AddAnalogModule, AddDigitalOutput, AddAnalogInput, AddPower, AddGnd,
      AddR, AddC, AddQ, ChipyPassive_init, ChipyTransistor_init;
    grows_steps.
Qed.

(** ** Designators *)

Lemma same_counters_refl st : same_counters st st.
Proof. done. Qed.

Lemma same_counters_trans st1 st2 st3 :
  same_counters st1 st2 -> same_counters st2 st3 -> same_counters st1 st3.
Proof. unfold same_counters. congruence. Qed.

Lemma counters_update_signal a f : preserves same_counters (update_signal a f).
Proof.
  intros st. rewrite update_signal_eq. by destruct (signal_heap st !! a).
Qed.

Lemma counters_update_device a f : preserves same_counters (update_device a f).
Proof.
  intros st. rewrite update_device_eq. by destruct (device_heap st !! a).
Qed.

Lemma counters_AnalogSig arg width : preserves same_counters (AnalogSig arg width).
Proof.
  intros st. destruct (AnalogSig arg width st) as [r st'|e st'] eqn:H; simpl.
  - destruct arg as [a|l|name|].
    + rewrite AnalogSig_signal_eq in H.
      destruct (signal_heap st !! a) as [s|]; [|done].
      destruct (width_ok s width); [|done]. by injection H as _ <-.
    + rewrite AnalogSig_seq_eq in H. by destruct width.
    + rewrite AnalogSig_str_eq in H.
      destruct (ChipyCurrentContext st) as [module|]; [|done].
      destruct (module_heap st !! module) as [m|]; [|done].
      destruct (PyDict.get name (signals m)) as [a|].
      * destruct (signal_heap st !! a) as [s|]; [|done].
        destruct (width_ok s width); [|done]. by injection H as _ <-.
      * by injection H as _ <-.
    + done.
  - by apply AnalogSig_Raise in H as ->.
Qed.

Lemma counters_ChipyDevice_init cls module name st :
  IdCount (state_of (ChipyDevice_init cls module name st))
  = IdCount (named cls name st).2.
Proof.
  rewrite ChipyDevice_init_eq.
  destruct name as [n|]; simpl;
    (destruct (module_heap st !! module) as [m|]; [|done]);
    by destruct (PyDict.contains _ (devices m)).
Qed.

Ltac counters_steps :=
  repeat first
    [ apply preserves_ret; apply same_counters_refl
    | apply preserves_raise; apply same_counters_refl
    | apply preserves_read; apply same_counters_refl
    | apply preserves_assert; apply same_counters_refl
    | apply preserves_assert_context; apply same_counters_refl
    | apply preserves_current_module; apply same_counters_refl
    | apply counters_AnalogSig
    | apply counters_update_device
    | apply counters_update_signal
    | apply preserves_setattr_signal; intros ?; apply counters_update_signal
    | apply preserves_bind; [apply same_counters_trans| |intros ?] ].

Lemma counters_ChipyPassive_init p module name sig1 sig2 value st :
  IdCount (state_of (ChipyPassive_init p module name sig1 sig2 value st))
  = IdCount (named (ChipyPassive p) name st).2.
Proof.
  rewrite <- counters_ChipyDevice_init with (module := module).
  unfold ChipyPassive_init. unfold mbind at 1, M_bind at 1.
  destruct (ChipyDevice_init (ChipyPassive p) module name st) as [self st1|];
    [|done].
  simpl. revert st1.
  match goal with
  | |- forall st1, IdCount (state_of (?k st1)) = IdCount st1 =>
      change (preserves same_counters k)
  end.
  counters_steps.
Qed.

Lemma counters_ChipyTransistor_init module name c b e substrate model st :
  IdCount (state_of (ChipyTransistor_init module name c b e substrate model st))
  = IdCount (named ChipyTransistor name st).2.
Proof.
  rewrite <- counters_ChipyDevice_init with (module := module).
  unfold ChipyTransistor_init. unfold mbind at 1, M_bind at 1.
  destruct (ChipyDevice_init ChipyTransistor module name st) as [self st1|];
    [|done].
  simpl. revert st1.
  match goal with
  | |- forall st1, IdCount (state_of (?k st1)) = IdCount st1 =>
      change (preserves same_counters k)
  end.
  counters_steps.
Qed.

Lemma state_of_bind_ret {A B} (m : M A) (b : B) st :
  state_of ((m ≫= fun _ => mret b) st) = state_of (m st).
Proof. unfold mbind, M_bind. by destruct (m st). Qed.

(** X14: inside a module, a call of [AddR], [AddC] or [AddQ] advances the
    counter of its own class by exactly one and no other counter, whether
    the call returns or raises: a call that fails has used up its
    designator.  [AddPower], which names its device itself, changes no
    counter. *)
Theorem designator_counter st module :
  ChipyCurrentContext st = Some module ->
  (forall sig1 sig2 value cls,
      IdCount (state_of (AddR sig1 sig2 value st)) cls
      = if decide (cls = ChipyPassive ChipyResistor)
        then IdCount st cls + 1 else IdCount st cls) /\
  (forall sig1 sig2 value cls,
      IdCount (state_of (AddC sig1 sig2 value st)) cls
      = if decide (cls = ChipyPassive ChipyCapacitor)
        then IdCount st cls + 1 else IdCount st cls) /\
  (forall c b e substrate model cls,
      IdCount (state_of (AddQ c b e substrate model st)) cls
      = if decide (cls = ChipyTransistor)
        then IdCount st cls + 1 else IdCount st cls) /\
  (forall name value cls,
      IdCount (state_of (AddPower name value st)) cls = IdCount st cls).
Proof.
  intros Hc. repeat split.
  - intros sig1 sig2 value cls. unfold AddR.
    rewrite (M_bind_step _ _ _ tt st) by by apply (assert_context_step _ module).
    rewrite (M_bind_step _ _ _ module st) by by apply current_module_step.
    rewrite state_of_bind_ret, counters_ChipyPassive_init. simpl.
    by case_decide; subst.
  - intros sig1 sig2 value cls. unfold AddC.
    rewrite (M_bind_step _ _ _ tt st) by by apply (assert_context_step _ module).
    rewrite (M_bind_step _ _ _ module st) by by apply current_module_step.
    rewrite state_of_bind_ret, counters_ChipyPassive_init. simpl.
    by case_decide; subst.
  - intros c b e substrate model cls. unfold AddQ.
    rewrite (M_bind_step _ _ _ tt st) by by apply (assert_context_step _ module).
    rewrite (M_bind_step _ _ _ module st) by by apply current_module_step.
    rewrite state_of_bind_ret, counters_ChipyTransistor_init. simpl.
    by case_decide; subst.
  - intros name value cls. unfold AddPower.
    rewrite (M_bind_step _ _ _ tt st) by by apply (assert_context_step _ module).
    rewrite (M_bind_step _ _ _ module st) by by apply current_module_step.
    unfold mbind at 1, M_bind at 1.
    assert (Hp := counters_ChipyPassive_init ChipyVoltageSource module
                    (Some name) (ArgStr name) (ArgStr "0") value st).
    simpl in Hp.
    destruct (ChipyPassive_init ChipyVoltageSource module (Some name)
                (ArgStr name) (ArgStr "0") value st) as [vs st1|e st1];
      simpl in Hp |- *; [|by rewrite Hp].
    rewrite <- Hp. clear Hp.
    assert (Hk : IdCount
                   (state_of
                      ((sig1 ← read (getattr_sig1 vs);
                        setattr_signal sig1 (set_power true);;
                        setattr_signal sig1 (set_power_value value);;
                        mret (RSig sig1)) st1))
                 = IdCount st1); [|by rewrite Hk].
    revert st1.
    match goal with
    | |- forall st1, IdCount (state_of (?k st1)) = IdCount st1 =>
        change (preserves same_counters k)
    end.
    counters_steps.
Qed.

Lemma designator_counter_witness :
  IdCount (state_of (AddR ArgOther (ArgStr "b") (PInt 1000) one_module_state))
    (ChipyPassive ChipyResistor) = 1.
Proof.
  destruct (designator_counter one_module_state 0) as (H & _);
    [vm_compute; reflexivity|].
  rewrite H. vm_compute. reflexivity.
Defined.

(** ** A device left behind by a failed call *)

Lemma AnalogSig_rejected arg w st :
  rejected arg = true -> AnalogSig arg (Some w) st = Raise AssertionError st.
Proof. by destruct arg. Qed.

Lemma for_each_app {A B} (f : B -> A -> R B) l1 l2 st : forall acc,
  for_each f (l1 ++ l2) acc st =
  match for_each f l1 acc st with
  | Val acc' => for_each f l2 acc' st
  | Exc e => Exc e
  end.
Proof.
  induction l1 as [|x l1 IH]; intros acc; [done|].
  rewrite <- app_comm_cons, !for_each_cons. by destruct (f acc x st).
Qed.

Lemma device_valid_signals st st' d :
  length (signal_heap st') = length (signal_heap st) ->
  device_valid st d -> device_valid st' d.
Proof.
  intros Hl. unfold device_valid, valid_ref. rewrite Hl. done.
Qed.

(** X15: a device whose first pin is rejected stays behind.  In a reachable
    state inside a module where the next designator is free, [AddR] with a
    first argument that [AnalogSig] rejects raises [AssertionError] after the
    resistor has been registered: the state at the raise has the device,
    without pins, in the registry of the module, and from then on [netlist]
    and [eispice_model] of the module raise [AttributeError]. *)
Theorem rejected_pin sig1 sig2 value st module m :
  reachable st ->
  ChipyCurrentContext st = Some module ->
  module_heap st !! module = Some m ->
  rejected sig1 = true ->
  PyDict.get ("R" ++ pretty (IdCount st (ChipyPassive ChipyResistor) + 1))%string
    (devices m) = None ->
  exists st' m',
    AddR sig1 sig2 value st = Raise AssertionError st' /\
    device_heap st'
    = device_heap st ++
      [mkDevice (ChipyPassive ChipyResistor)
         ("R" ++ pretty (IdCount st (ChipyPassive ChipyResistor) + 1))%string
         module None None (PStr " ") None None None None None] /\
    signal_heap st' = signal_heap st /\
    module_heap st' !! module = Some m' /\
    devices m'
    = devices m ++
      [(("R" ++ pretty (IdCount st (ChipyPassive ChipyResistor) + 1))%string,
        length (device_heap st))] /\
    netlist module st' = Exc AttributeError /\
    eispice_model module st' = Exc AttributeError.
Proof.
  intros Hinv%reachable_inv Hc Hm Hrej Hfree.
  set (n := ("R" ++ pretty (IdCount st (ChipyPassive ChipyResistor) + 1))%string)
    in *.
  set (st' := add_device (new_device (ChipyPassive ChipyResistor) n module)
                module m
                (with_IdCount (ChipyPassive ChipyResistor)
                   (IdCount st (ChipyPassive ChipyResistor) + 1) st)).
  set (m' := set_devices (PyDict.set n (length (device_heap st))) m).
  assert (Hm' : module_heap st' !! module = Some m').
  { unfold st'. simpl. rewrite list_lookup_insert_eq; [done|].
    by eapply lookup_lt_Some. }
  assert (Hd' : devices m' = devices m ++ [(n, length (device_heap st))]).
  { unfold m'. simpl. by rewrite dict_set_fresh. }
  destruct (inv_modules _ _ Hinv _ _ Hm) as (_ & Hnodup & _ & Hdev).
  assert (Hold : forall k a, In (k, a) (devices m) ->
            exists d, device_heap st' !! a = Some d /\
                      device_complete d /\ device_valid st' d).
  { intros k a Hin.
    destruct (Hdev _ _ Hin) as (d & Hd & _ & _ & [?|Hcomp]); [done|].
    exists d. split; [by apply lookup_app_l_Some|]. split; [done|].
    apply (device_valid_signals st); [done|]. by apply (inv_devices _ _ Hinv a). }
  assert (Hnew : device_heap st' !! length (device_heap st)
                 = Some (new_device (ChipyPassive ChipyResistor) n module)).
  { unfold st'. simpl. by rewrite list_lookup_middle. }
  exists st', m'.
  split; [|split; [done|split; [done|split; [done|split; [done|split]]]]].
  - unfold AddR.
    rewrite (M_bind_step _ _ _ tt st) by by apply (assert_context_step _ module).
    rewrite (M_bind_step _ _ _ module st) by by apply current_module_step.
    apply M_bind_Raise_step. unfold ChipyPassive_init.
    rewrite (M_bind_step _ _ _ (length (device_heap st)) st').
    + apply M_bind_Raise_step. by apply AnalogSig_rejected.
    + rewrite ChipyDevice_init_eq. simpl. rewrite Hm.
      apply dict_contains_false in Hfree. fold n. by rewrite Hfree.
  - unfold netlist, PyDict.items.
    rewrite (R_bind_step _ _ _ _ (proj2 (load_module_Val _ _ _) Hm')).
    rewrite Hd'. unfold mbind at 1, R_bind at 1. rewrite for_each_app.
    destruct (for_each_upd netlist_device (fun _ a => device_cell a st') st'
                (fun acc k x => netlist_device_eq acc k x st')
                (devices m) PyDict.empty Hnodup) as (out & -> & _).
    { intros k a Hin. destruct (Hold _ _ Hin) as (d & Hd & Hcomp & Hval).
      by eapply device_cell_total. }
    rewrite for_each_cons, netlist_device_eq.
    unfold device_cell. M_eval. by rewrite Hnew.
  - unfold eispice_model, PyDict.items.
    rewrite (R_bind_step _ _ _ _ (proj2 (load_module_Val _ _ _) Hm')).
    rewrite Hd'. unfold mbind at 1, R_bind at 1. rewrite for_each_app.
    destruct (eispice_devices_loop st' (devices m) (mkCircuit (mod_name m') []))
      as (calls & -> & _).
    { intros k a Hin. destruct (Hold _ _ Hin) as (d & Hd & Hcomp & Hval).
      destruct (device_eispice_model_total st' d Hcomp Hval) as [x Hx]. eauto. }
    rewrite for_each_cons. unfold eispice_device_step. M_eval. by rewrite Hnew.
Qed.

Lemma rejected_pin_witness :
  exists st',
    AddR (ArgSeq [ArgStr "a"; ArgStr "b"]) (ArgStr "c") (PInt 1000)
      one_module_state
    = Raise AssertionError st' /\
    netlist 0 st' = Exc AttributeError.
Proof.
  destruct (rejected_pin (ArgSeq [ArgStr "a"; ArgStr "b"]) (ArgStr "c")
              (PInt 1000) one_module_state 0
              (mkModule "amp" PyDict.empty PyDict.empty))
    as (st' & m' & Hrun & _ & _ & _ & _ & Hn & _).
  - exact one_module_reachable.
  - vm_compute. reflexivity.
  - vm_compute. reflexivity.
  - reflexivity.
  - vm_compute. reflexivity.
  - exists st'. split; [exact Hrun|exact Hn].
Defined.

(** ** [EispiceModel] and the registries *)

Lemma eispice_model_runs st self m :
  inv None st -> module_heap st !! self = Some m ->
  exists calls,
    eispice_model self st = Val (mkCircuit (mod_name m) calls) /\
    map fst calls
    = map fst (devices m) ++ map fst (digital_inputs st (signals m)).
Proof.
  intros Hinv Hm.
  destruct (inv_modules _ _ Hinv _ _ Hm) as (Hn1 & Hn2 & Hsig & Hdev).
  destruct (eispice_devices_loop st (devices m) (mkCircuit (mod_name m) []))
    as (dcalls & Hrun1 & Hd).
  { intros k a Hin. destruct (Hdev _ _ Hin) as (d & Hd & _ & _ & [?|Hc]); [done|].
    destruct (device_eispice_model_total st d Hc) as [x Hx];
      [by eapply inv_devices|]. eauto. }
  destruct (eispice_signals_loop st (signals m)
              (mkCircuit (mod_name m) ([] ++ dcalls)))
    as (scalls & Hrun2 & Hs).
  { intros k a Hin. destruct (Hsig _ _ Hin) as (s & Hs & _). eauto. }
  exists (dcalls ++ scalls). split.
  - unfold eispice_model, PyDict.items.
    rewrite (R_bind_step _ _ _ _ (proj2 (load_module_Val _ _ _) Hm)).
    by rewrite (R_bind_step _ _ _ _ Hrun1).
  - rewrite map_app. f_equal.
    + eapply Forall2_names; [|exact Hd]. by intros x y [E _].
    + eapply Forall2_names; [|exact Hs]. by intros x y [E _].
Qed.

(** X16: [EispiceModel] raises [KeyError] for a name that is not in
    [ChipyModulesDict] and [AttributeError] for a module of the digital
    framework; in a reachable state, for the name of an analog module it
    returns the circuit [eispice_model] builds for that module, whose title
    is the name and whose elements are named, in order, after the devices of
    the module and then after its digital inputs. *)
Theorem EispiceModel_lookup modname st :
  (PyDict.get modname (ChipyModulesDict st) = None ->
   EispiceModel modname st = Exc KeyError) /\
  (PyDict.get modname (ChipyModulesDict st) = Some DigitalModule ->
   EispiceModel modname st = Exc AttributeError) /\
  (reachable st ->
   forall a, PyDict.get modname (ChipyModulesDict st) = Some (AnalogModule a) ->
     exists m calls,
       module_heap st !! a = Some m /\
       EispiceModel modname st = Val (mkCircuit modname calls) /\
       eispice_model a st = Val (mkCircuit modname calls) /\
       map fst calls
       = map fst (devices m) ++ map fst (digital_inputs st (signals m))).
Proof.
  unfold EispiceModel. split; [by intros ->|]. split; [by intros ->|].
  intros Hinv%reachable_inv a Hget. rewrite Hget.
  destruct (inv_dict _ _ Hinv modname a) as (m & Hm & Hname).
  { by apply dict_get_Some_In. }
  destruct (eispice_model_runs st a m Hinv Hm) as (calls & Hrun & Hcalls).
  exists m, calls. by rewrite <- Hname.
Qed.

Lemma EispiceModel_lookup_witness :
  EispiceModel "top" amplifier_state = Exc AttributeError /\
  EispiceModel "none" amplifier_state = Exc KeyError /\
  exists calls, EispiceModel "amp" amplifier_state = Val (mkCircuit "amp" calls).
Proof.
  split; [|split].
  - destruct (EispiceModel_lookup "top" amplifier_state) as (_ & H & _).
    apply H. vm_compute. reflexivity.
  - destruct (EispiceModel_lookup "none" amplifier_state) as (H & _ & _).
    apply H. vm_compute. reflexivity.
  - destruct (EispiceModel_lookup "amp" amplifier_state) as (_ & _ & H).
    destruct (H amplifier_reachable 0%nat) as (m & calls & _ & Hrun & _).
    + vm_compute. reflexivity.
    + exists calls. exact Hrun.
Defined.

(** X17: in every reachable state the registries agree with the objects:
    an analog entry of [ChipyModulesDict] is a module of that name, every
    entry of a module's [signals] is a signal that has the key as its name
    and the module as its owner, and every entry of its [devices] is a
    device with that name and owner all of whose pins are set and are
    signals. *)
Theorem registries_consistent st :
  reachable st ->
  (forall name a,
      PyDict.get name (ChipyModulesDict st) = Some (AnalogModule a) ->
      exists m, module_heap st !! a = Some m /\ mod_name m = name) /\
  (forall b m name a,
      module_heap st !! b = Some m ->
      PyDict.get name (signals m) = Some a ->
      exists s, signal_heap st !! a = Some s /\
                sig_name s = name /\ sig_module s = b) /\
  (forall b m name a,
      module_heap st !! b = Some m ->
      PyDict.get name (devices m) = Some a ->
      exists d, device_heap st !! a = Some d /\
                dev_name d = name /\ dev_module d = b /\
                device_complete d /\ device_valid st d).
Proof.
  intros Hinv%reachable_inv. split; [|split].
  - intros name a Hget. apply (inv_dict _ _ Hinv). by apply dict_get_Some_In.
  - intros b m name a Hm Hget.
    destruct (inv_modules _ _ Hinv _ _ Hm) as (_ & _ & Hsig & _).
    apply Hsig. by apply dict_get_Some_In.
  - intros b m name a Hm Hget.
    destruct (inv_modules _ _ Hinv _ _ Hm) as (_ & _ & _ & Hdev).
    destruct (Hdev name a) as (d & Hd & Hn & Hb & [?|Hc]);
      [by apply dict_get_Some_In|done|].
    exists d. split; [done|]. split; [done|]. split; [done|].
    split; [done|]. by apply (inv_devices _ _ Hinv a).
Qed.

Lemma registries_consistent_witness :
  exists d, device_heap amplifier_state !! 1%nat = Some d /\
            dev_name d = "R1" /\ dev_module d = 0%nat /\ device_complete d.
Proof.
  destruct (registries_consistent amplifier_state amplifier_reachable)
    as (_ & _ & H).
  destruct (H 0%nat amplifier_module "R1" 1%nat)
    as (d & Hd & Hn & Hm & Hc & _).
  - vm_compute. reflexivity.
  - vm_compute. reflexivity.
  - exists d. split; [exact Hd|]. split; [exact Hn|]. split; [exact Hm|exact Hc].
Defined.

(** ** The width of pins *)

Lemma settled_refl st : settled st st.
Proof. split; [done|]. intros b s Hs. by exists s. Qed.

Lemma settled_heaps st st' :
  device_heap st' = device_heap st -> signal_heap st' = signal_heap st ->
  settled st st'.
Proof. intros Hd Hs. split; [done|]. rewrite Hs. intros b s Hb. by exists s. Qed.

Lemma settled_trans st1 st2 st3 :
  settled st1 st2 -> settled st2 st3 -> settled st1 st3.
Proof.
  intros [D1 S1] [D2 S2]. split; [congruence|]. intros b s Hs.
  destruct (S1 _ _ Hs) as (s' & Hs' & Hw').
  destruct (S2 _ _ Hs') as (s'' & Hs'' & Hw'').
  exists s''. split; [done|congruence].
Qed.

Lemma settled_add_signal s module m st : settled st (add_signal s module m st).
Proof.
  split; [done|]. intros b s0 Hb. exists s0.
  split; [by apply lookup_app_l_Some|done].
Qed.

Lemma settled_update_signal a f st u st' :
  (forall s, sig_width (f s) = sig_width s) ->
  update_signal a f st = Ok u st' -> settled st st'.
Proof.
  intros Hf (s & Hs & ->)%update_signal_Ok. split; [done|].
  intros b s0 Hb. simpl. destruct (decide (b = a)) as [->|Hne].
  - exists (f s). rewrite list_lookup_insert_eq by (by eapply lookup_lt_Some).
    split; [done|]. rewrite Hf. congruence.
  - exists s0. by rewrite list_lookup_insert_ne.
Qed.

Lemma settled_setattr_signal x f st u st' :
  (forall s, sig_width (f s) = sig_width s) ->
  setattr_signal x f st = Ok u st' -> settled st st'.
Proof.
  intros Hf H. destruct x as [a]; simpl in H.
  by eapply settled_update_signal.
Qed.

Lemma settled_AnalogSig arg width st r st' :
  AnalogSig arg width st = Ok r st' -> settled st st'.
Proof.
  intros [[-> _]|(name & module & m & _ & _ & _ & ->)]%AnalogSig_Ok.
  - apply settled_refl.
  - apply settled_add_signal.
Qed.

Lemma pins_settled st st' :
  pins_width_one st -> settled st st' -> pins_width_one st'.
Proof.
  intros Hp [Hd Hs] a d x b Ha Hx ->. rewrite Hd in Ha.
  destruct (Hp a d _ b Ha Hx eq_refl) as (s & Hb & Hw).
  destruct (Hs _ _ Hb) as (s' & Hb' & Hw'). exists s'. split; [done|congruence].
Qed.

Lemma pins_new_device st st' d :
  pins_width_one st ->
  device_heap st' = device_heap st ++ [d] ->
  (forall b s, signal_heap st !! b = Some s -> signal_heap st' !! b = Some s) ->
  (forall x b, In x (device_pins d) -> x = Some (SigRef b) ->
     exists s, signal_heap st' !! b = Some s /\ sig_width s = 1) ->
  pins_width_one st'.
Proof.
  intros Hp Hd Hs Hnew a d0 x b Ha Hx ->. rewrite Hd in Ha.
  apply lookup_snoc_Some in Ha as [[_ Ha]|[_ <-]].
  - destruct (Hp a d0 _ b Ha Hx eq_refl) as (s & Hb & Hw).
    exists s. split; [by apply Hs|done].
  - by apply (Hnew _ b Hx).
Qed.

Lemma pin_width st arg a :
  is_pin st arg a -> exists s, signal_heap st !! a = Some s /\ sig_width s = 1.
Proof. by intros [H _]. Qed.

Lemma pins_ChipyPassive_init p module name sig1 sig2 value st self st' :
  pins_width_one st ->
  ChipyPassive_init p module name sig1 sig2 value st = Ok self st' ->
  pins_width_one st'.
Proof.
  intros Hp H.
  apply ChipyPassive_init_Ok in H
    as (m & a1 & a2 & _ & _ & _ & Hext & Hdev & P1 & P2).
  destruct Hext as (_ & _ & _ & Hs & _).
  eapply pins_new_device; [exact Hp|exact Hdev| |].
  - intros b s Hb. apply Hs. by destruct name.
  - intros x b Hx ->. simpl in Hx.
    destruct Hx as [[= <-]|[[= <-]|[|[|[|[|[]]]]]]]; try done;
      by eapply pin_width.
Qed.

Lemma pins_ChipyTransistor_init module name c b e substrate model st self st' :
  pins_width_one st ->
  ChipyTransistor_init module name c b e substrate model st = Ok self st' ->
  pins_width_one st'.
Proof.
  intros Hp H.
  apply ChipyTransistor_init_Ok in H
    as (m & ac & ab & ae & asub & _ & _ & _ & Hext & Hdev & P1 & P2 & P3 & P4).
  destruct Hext as (_ & _ & _ & Hs & _).
  eapply pins_new_device; [exact Hp|exact Hdev| |].
  - intros b0 s Hb. apply Hs. by destruct name.
  - intros x b0 Hx ->. simpl in Hx.
    destruct Hx as [|[|[[= <-]|[[= <-]|[[= <-]|[[= <-]|[]]]]]]]; try done;
      by eapply pin_width.
Qed.

Lemma comprehension_settled {A B} (f : A -> M B) xs :
  (forall x st r st', f x st = Ok r st' -> settled st st') ->
  forall st rs st', comprehension f xs st = Ok rs st' -> settled st st'.
Proof.
  intros Hf. induction xs as [|x xs IH]; simpl; intros st rs st' H.
  - injection H as _ <-. apply settled_refl.
  - apply M_bind_Ok in H as (y & st1 & H1 & H).
    apply M_bind_Ok in H as (ys & st2 & H2 & H).
    injection H as _ <-. eapply settled_trans; eauto.
Qed.

Lemma settled_AddDigitalInput fuel : forall name type high low st r st',
  AddDigitalInput fuel name type high low st = Ok r st' -> settled st st'.
Proof.
  induction fuel as [|fuel IH]; intros name type hv lv st r st' H; [done|].
  rewrite AddDigitalInput_S in H.
  destruct (1 <? length (split name))%nat eqn:Hl.
  - apply M_bind_Ok in H as (l & st1 & H1 & H). injection H as _ <-.
    eapply comprehension_settled; [|exact H1]. intros x st0 r0 st0' Hx.
    cbv beta in Hx. by eapply IH.
  - apply Nat.ltb_ge in Hl.
    destruct (split name) as [|w [|w' l]] eqn:Hs; simpl in Hl; [| |lia].
    + simpl in H. by rewrite Hs in H.
    + destruct type as [|width| | | |];
        try (simpl in H; rewrite Hs in H; done).
      rewrite (AddDigitalInput_single _ _ w) in H by done.
      destruct (ChipyCurrentContext st) as [module|]; [|done].
      destruct (module_heap st !! module) as [m|]; [|done].
      injection H as _ <-. apply settled_add_signal.
Qed.

Lemma settled_AddAnalogOutput fuel : forall name type st r st',
  AddAnalogOutput fuel name type st = Ok r st' -> settled st st'.
Proof.
  induction fuel as [|fuel IH]; intros name type st r st' H; [done|].
  rewrite AddAnalogOutput_S in H.
  destruct (1 <? length (split name))%nat eqn:Hl.
  - apply M_bind_Ok in H as (l & st1 & H1 & H). injection H as _ <-.
    eapply comprehension_settled; [|exact H1]. intros x st0 r0 st0' Hx.
    cbv beta in Hx. by eapply IH.
  - apply Nat.ltb_ge in Hl.
    destruct (split name) as [|w [|w' l]] eqn:Hs; simpl in Hl; [| |lia].
    + simpl in H. by rewrite Hs in H.
    + destruct type as [|width| | | |];
        try (simpl in H; rewrite Hs in H; done).
      rewrite (AddAnalogOutput_single _ _ w) in H by done.
      destruct (ChipyCurrentContext st) as [module|]; [|done].
      destruct (module_heap st !! module) as [m|]; [|done].
      injection H as _ <-. apply settled_add_signal.
Qed.

Lemma pins_run c st r st' :
  pins_width_one st -> run c st = Ok r st' -> pins_width_one st'.
Proof.
  intros Hp H. destruct c; simpl in H.
  - bind_inv H a st1 H1. injection H as _ <-.
    rewrite ChipyAnalogModule_init_eq in H1.
    destruct (PyDict.contains name (ChipyModulesDict st)); [done|].
    injection H1 as _ <-. eapply pins_settled; [exact Hp|].
    by apply settled_heaps.
  - bind_inv H a st1 H1. injection H as _ <-.
    apply ChipyAnalogSignal_init_Ok in H1 as (m & _ & _ & ->).
    eapply pins_settled; [exact Hp|]. apply settled_add_signal.
  - bind_inv H a st1 H1. injection H as _ <-.
    by eapply pins_ChipyPassive_init.
  - bind_inv H a st1 H1. injection H as _ <-.
    by eapply pins_ChipyTransistor_init.
  - bind_inv H a st1 H1. injection H as _ <-.
    eapply pins_settled; [exact Hp|]. by eapply settled_AnalogSig.
  - unfold AddAnalogModule in H. bind_inv H a st1 H1. injection H as _ <-.
    rewrite ChipyAnalogModule_init_eq in H1.
    destruct (PyDict.contains name (ChipyModulesDict st)); [done|].
    injection H1 as _ <-. eapply pins_settled; [exact Hp|].
    by apply settled_heaps.
  - eapply pins_settled; [exact Hp|]. by eapply settled_AddDigitalInput.
  - done.
  - done.
  - eapply pins_settled; [exact Hp|]. by eapply settled_AddAnalogOutput.
  - unfold AddPower in H.
    bind_inv H u0 st0 H0. bind_inv H module st1 H1. bind_inv H vs st2 H2.
    bind_inv H sig1 st3 H3. bind_inv H u4 st4 H4. bind_inv H u5 st5 H5.
    injection H as _ <-.
    apply assert_context_Ok in H0 as [_ ->].
    apply current_module_Ok in H1 as [_ ->].
    apply read_Ok in H3 as [_ ->].
    eapply pins_ChipyPassive_init in H2; [|exact Hp].
    eapply pins_settled; [exact H2|].
    eapply settled_trans;
      [eapply settled_setattr_signal; [|exact H4]; done
      |eapply settled_setattr_signal; [|exact H5]; done].
  - unfold AddGnd in H.
    bind_inv H u0 st0 H0. bind_inv H module st1 H1. bind_inv H sg st2 H2.
    bind_inv H u3 st3 H3. injection H as _ <-.
    apply assert_context_Ok in H0 as [_ ->].
    apply current_module_Ok in H1 as [_ ->].
    eapply pins_settled; [exact Hp|].
    eapply settled_trans; [by eapply settled_AnalogSig|].
    eapply settled_setattr_signal; [|exact H3]; done.
  - unfold AddR in H.
    bind_inv H u0 st0 H0. bind_inv H module st1 H1. bind_inv H vs st2 H2.
    injection H as _ <-.
    apply assert_context_Ok in H0 as [_ ->].
    apply current_module_Ok in H1 as [_ ->].
    by eapply pins_ChipyPassive_init.
  - unfold AddC in H.
    bind_inv H u0 st0 H0. bind_inv H module st1 H1. bind_inv H vs st2 H2.
    injection H as _ <-.
    apply assert_context_Ok in H0 as [_ ->].
    apply current_module_Ok in H1 as [_ ->].
    by eapply pins_ChipyPassive_init.
  - unfold AddQ in H.
    bind_inv H u0 st0 H0. bind_inv H module st1 H1. bind_inv H vs st2 H2.
    injection H as _ <-.
    apply assert_context_Ok in H0 as [_ ->].
    apply current_module_Ok in H1 as [_ ->].
    by eapply pins_ChipyTransistor_init.
Qed.

(** X18: in every reachable state each pin of each device is a signal of
    width 1, whatever widths the ports of the module were declared with. *)
Theorem device_pins_width_one st :
  reachable st ->
  forall a d x b,
    device_heap st !! a = Some d -> In x (device_pins d) ->
    x = Some (SigRef b) ->
    exists s, signal_heap st !! b = Some s /\ sig_width s = 1.
Proof.
  induction 1 as [|c st r st' _ IH Hrun|ctx st _ IH _|name st _ IH _].
  - intros a d x b Ha. done.
  - by eapply pins_run.
  - exact IH.
  - exact IH.
Qed.

Lemma device_pins_width_one_witness :
  exists s, signal_heap amplifier_state !! 0%nat = Some s /\ sig_width s = 1.
Proof.
  destruct (signal_heap amplifier_state !! 0%nat) as [s0|] eqn:Hs0;
    [|vm_compute in Hs0; discriminate].
  destruct (device_heap amplifier_state !! 0%nat) as [d|] eqn:Hd;
    [|vm_compute in Hd; discriminate].
  destruct (device_pins_width_one amplifier_state amplifier_reachable 0%nat d
              (dev_sig1 d) 0%nat Hd) as (s & Hs & Hw).
  - by left.
  - vm_compute in Hd. injection Hd as <-. reflexivity.
  - exists s0. split; [done|]. congruence.
Defined.

(** ** The nets of a netlist *)

Lemma getattr_id_signal x st id :
  getattr_id x st = Val id ->
  exists a s, signal_heap st !! a = Some s /\ sig_id s = id.
Proof.
  destruct x as [[a]|]; simpl; [|done].
  intros (s & Hs%load_signal_Val & [= <-])%R_bind_Val. by exists a, s.
Qed.

Lemma connections_ids st d pins pin net :
  connections d st = Val pins -> PyDict.get pin pins = Some net ->
  exists a s, signal_heap st !! a = Some s /\ sig_id s = net.
Proof.
  unfold connections. destruct (dev_class d).
  - intros (l & Hl & (r & Hr & [= <-])%R_bind_Val)%R_bind_Val.
    rewrite !dict_get_cons. simpl.
    repeat case_decide; intros [= <-]; by eapply getattr_id_signal.
  - intros (c & Hc & (b & Hb & (e & He & [= <-])%R_bind_Val)%R_bind_Val)%R_bind_Val.
    rewrite !dict_get_cons. simpl.
    repeat case_decide; intros [= <-]; by eapply getattr_id_signal.
Qed.

(** X19: in a reachable state the nets of a netlist are ids of signals:
    every pin of every cell and the bits of every port hold a one-element
    list whose element is the id of a signal, between 1 and [SigId]. *)
Theorem netlist_nets st self m :
  reachable st -> module_heap st !! self = Some m ->
  exists ports cells,
    netlist self st
    = Val (PDict [("ports", PDict ports); ("cells", PDict cells)]) /\
    (forall k entries conns pin v,
        PyDict.get k cells = Some (PDict entries) ->
        PyDict.get "connections" entries = Some (PDict conns) ->
        PyDict.get pin conns = Some v ->
        exists a s,
          signal_heap st !! a = Some s /\ v = PList [PInt (sig_id s)] /\
          1 <= sig_id s <= SigId st) /\
    (forall k entries v,
        PyDict.get k ports = Some (PDict entries) ->
        PyDict.get "bits" entries = Some v ->
        exists a s,
          signal_heap st !! a = Some s /\ v = PList [PInt (sig_id s)] /\
          1 <= sig_id s <= SigId st).
Proof.
  intros Hr Hm. assert (Hinv := reachable_inv _ Hr).
  assert (Hrange : forall a s, signal_heap st !! a = Some s ->
                     1 <= sig_id s <= SigId st).
  { intros a s Hs. rewrite (inv_ids _ _ Hinv _ _ Hs), (inv_SigId _ _ Hinv).
    apply lookup_lt_Some in Hs. lia. }
  destruct (netlist_entries st self m Hr Hm) as (ports & cells & Hn & Hc & Hp).
  exists ports, cells. split; [done|]. split.
  - intros k entries conns pin v Hk Hconn Hpin.
    destruct (Hc _ _ Hk)
      as [(a & d & skin & pins & _ & _ & _ & Hpins & Hcell)
         |(a & s & skin & pin0 & _ & Hs & Hcell)].
    + destruct Hcell as (entries' & conns' & [= <-] & _ & Hconn' & Hget & _).
      rewrite Hconn in Hconn'. injection Hconn' as <-.
      rewrite Hget in Hpin.
      destruct (PyDict.get pin pins) as [net|] eqn:Hnet; [|done].
      injection Hpin as <-.
      destruct (connections_ids _ _ _ _ _ Hpins Hnet) as (b & s & Hs & <-).
      exists b, s. split; [done|]. split; [done|]. by eapply Hrange.
    + destruct Hcell as (entries' & conns' & [= <-] & _ & Hconn' & Hget & _).
      rewrite Hconn in Hconn'. injection Hconn' as <-.
      rewrite Hget, dict_get_cons in Hpin.
      case_decide; [|done]. injection Hpin as <-.
      exists a, s. split; [done|]. split; [done|]. by eapply Hrange.
  - intros k entries v Hk Hbits.
    destruct (Hp _ _ Hk) as (a & s & direction & _ & Hs & _ & Hport).
    destruct Hport as (entries' & [= <-] & _ & Hbits' & _).
    rewrite Hbits in Hbits'. injection Hbits' as ->.
    exists a, s. split; [done|]. split; [done|]. by eapply Hrange.
Qed.

Lemma netlist_nets_witness :
  exists ports cells,
    netlist 0 amplifier_state
    = Val (PDict [("ports", PDict ports); ("cells", PDict cells)]) /\
    forall k entries v,
      PyDict.get k ports = Some (PDict entries) ->
      PyDict.get "bits" entries = Some v ->
      exists a s,
        signal_heap amplifier_state !! a = Some s /\
        v = PList [PInt (sig_id s)] /\
        1 <= sig_id s <= SigId amplifier_state.
Proof.
  destruct (netlist_nets amplifier_state 0 amplifier_module amplifier_reachable)
    as (ports & cells & Hn & _ & Hp).
  - vm_compute. reflexivity.
  - exists ports, cells. split; [exact Hn|exact Hp].
Defined.

(** ** [EispiceDigitalInput] *)

Lemma set_value_input_levels values : forall d,
  let d' := fold_left (fun d v => set_value_input v d) values d in
  pNode d' = pNode d /\ high d' = high d /\ low d' = low d.
Proof.
  induction values as [|v vs IH]; intros d; [done|].
  simpl. by destruct (IH (set_value_input v d)) as (-> & -> & ->).
Qed.

(** X20: the level of an [EispiceDigitalInput] is [low] until [set_value] is
    called, and after any calls of [set_value] it is [high] when the last
    value is true and [low] when it is false; the node and the two levels
    are those given to the constructor. *)
Theorem digital_input_level node high_level low_level values v :
  model (EispiceDigitalInput_init node high_level low_level) = low_level /\
  let d := fold_left (fun d v => set_value_input v d) (values ++ [v])
             (EispiceDigitalInput_init node high_level low_level) in
  model d = (if v then high_level else low_level) /\
  pNode d = node /\ high d = high_level /\ low d = low_level.
Proof.
  split; [done|]. simpl.
  destruct (set_value_input_levels (values ++ [v])
              (EispiceDigitalInput_init node high_level low_level))
    as (Hn & Hh & Hl).
  simpl in Hn, Hh, Hl. rewrite Hn, Hh, Hl. split; [|done].
  rewrite fold_left_app. simpl. unfold model. simpl.
  destruct (set_value_input_levels values
              (EispiceDigitalInput_init node high_level low_level))
    as (_ & -> & ->).
  done.
Qed.
